(** * dmlc-core: thread-backed iterators (include/dmlc/threadediter.h)

    A shallow embedding of [ThreadedIter] (one producer thread feeding a
    bounded buffer) and [MultiThreadedIter] (several worker threads fed by
    a [ThreadedIter]), and the properties of the two classes.

    Conventions of the embedding.
    - A [DType*] is a [cellptr]: [None] is NULL, [Some a] is the address
      of a cell.  The free store maps an address to the content of a live
      cell; [delete] of an address that is not live is undefined
      behaviour, reported as [Undefined DoubleDelete].
    - A call returns an [Outcome]: [Ok] with its result, [Fatal] when a
      CHECK fails or LOG(FATAL) runs, [Undefined] for undefined
      behaviour, [Blocked] when the calling thread has to wait in the
      given state.
    - Each thread advances by atomic sections: the code between two
      points where it takes or releases the mutex.  A wait on a
      condition variable with a predicate is an await: the section is
      enabled exactly when the predicate holds.  The waiter counters
      [nwait_consumer_] and [nwait_producer_] only decide whether
      [notify] is called, so they are not part of the state. *)

From stdpp Require Import base numbers option list.

Set Default Proof Using "Type".

(** ** Outcomes of a call *)

Inductive Fault := DoubleDelete | NullDeref | OutOfRange | Dangling.

Inductive Outcome (A : Type) :=
| Ok (a : A)
| Fatal
| Undefined (f : Fault)
| Blocked.
Arguments Ok {A} a.
Arguments Fatal {A}.
Arguments Undefined {A} f.
Arguments Blocked {A}.

Definition obind {A B} (m : Outcome A) (k : A -> Outcome B) : Outcome B :=
  match m with
  | Ok a => k a
  | Fatal => Fatal
  | Undefined f => Undefined f
  | Blocked => Blocked
  end.

Notation "'let*' x ':=' m 'in' k" := (obind m (fun x => k))
  (at level 10, x pattern, m at level 100, k at level 200).

(** ** The free store *)

Definition ptr := nat.
Abbreviation cellptr := (option ptr).
Abbreviation heap T := (list (option T)).

Section Store.
Context {T : Type}.

(** [*p] for a live cell. *)
Definition cell_value (h : heap T) (p : ptr) : option T :=
  match h !! p with Some (Some v) => Some v | _ => None end.

(** [new DType(v)]: the next address never used before. *)
Definition heap_new (v : T) (h : heap T) : ptr * heap T :=
  (length h, h ++ [Some v]).

(** [*p = v]. *)
Definition heap_write (p : ptr) (v : T) (h : heap T) : heap T :=
  <[p := Some v]> h.

(** [delete p]: NULL is a no-op, a live cell is released, anything else
    is a double delete. *)
Definition heap_delete (p : cellptr) (h : heap T) : Outcome (heap T) :=
  match p with
  | None => Ok h
  | Some a =>
      match cell_value h a with
      | Some _ => Ok (<[a := None]> h)
      | None => Undefined DoubleDelete
      end
  end.

(** [while (q.size() != 0) { delete q.front(); q.pop(); }] *)
Fixpoint heap_delete_all (q : list cellptr) (h : heap T) : Outcome (heap T) :=
  match q with
  | [] => Ok h
  | p :: q' => let* h' := heap_delete p h in heap_delete_all q' h'
  end.

(** Number of cells currently allocated. *)
Definition allocated (h : heap T) : nat := length (omap id h).
End Store.

(** ** The producer capability ([ThreadedIter::Producer])

    The producer is external.  [p_next] gives the content of the next
    record, or [None] at the end; [p_before_first] rewinds, and is [None]
    for a producer that keeps the default [NotImplemented], which logs
    FATAL. *)

Record Producer (T : Type) := {
  PState : Type;
  p_next : PState -> option T * PState;
  p_before_first : PState -> option PState
}.
Arguments PState {T} _.
Arguments p_next {T} _ _.
Arguments p_before_first {T} _ _.

(** [Producer::Next(DType **inout_dptr)]: with NULL the producer allocates
    a cell and fills it, with a cell it fills that cell in place; at the
    end it returns false and leaves the handle alone. *)
Definition Producer_Next {T} (P : Producer T) (inout_dptr : cellptr)
    (s : PState P) (h : heap T) : bool * cellptr * PState P * heap T :=
  match p_next P s with
  | (Some v, s') =>
      match inout_dptr with
      | Some a => (true, Some a, s', heap_write a v h)
      | None => let '(a, h') := heap_new v h in (true, Some a, s', h')
      end
  | (None, s') => (false, inout_dptr, s', h)
  end.

(** The producer that reads a fixed list of records: its state is what is
    left to read. *)
Definition list_producer {T} (items : list T) : Producer T :=
  {| PState := list T;
     p_next := fun s => match s with [] => (None, []) | v :: s' => (Some v, s') end;
     p_before_first := fun _ => Some items |}.

(** A producer object that does not override [BeforeFirst]. *)
Definition forward_only_producer {T} (items : list T) : Producer T :=
  {| PState := list T;
     p_next := fun s => match s with [] => (None, []) | v :: s' => (Some v, s') end;
     p_before_first := fun _ => None |}.

(** * The single-producer pipe: [ThreadedIter<DType>] *)

Module ThreadedIter.

(** [enum Signal] *)
Inductive Signal := kProduce | kBeforeFirst | kDestroy.

Definition Signal_eqb (a b : Signal) : bool :=
  match a, b with
  | kProduce, kProduce | kBeforeFirst, kBeforeFirst | kDestroy, kDestroy => true
  | _, _ => false
  end.

(** Where the producer thread stands in [producer_fun]:
    - [PcStart]: the thread was created and has yet to run the first
      [beforefirst()];
    - [PcWait]: at [producer_cond_.wait] on top of the loop;
    - [PcCall cell]: the first lock scope is left with the signal
      [kProduce], [next(&cell)] is about to run;
    - [PcPush cell]: [next] has returned and [produce_end_] is written,
      the second lock scope is about to be entered;
    - [PcExit]: the thread function has returned. *)
Inductive ThreadPc :=
| PcStart
| PcWait
| PcCall (cell : cellptr)
| PcPush (cell : cellptr)
| PcExit.

(** Producer objects are named by a number. *)
Definition obj := nat.

(** The data members.  [producer_thread_] is NULL or the thread, given by
    where it stands. *)
Record ThreadedIter := mkThreadedIter {
  producer_owned_ : option obj;
  producer_sig_ : Signal;
  producer_sig_processed_ : bool;
  producer_thread_ : option ThreadPc;
  produce_end_ : bool;
  max_capacity_ : nat;
  out_data_ : cellptr;
  queue_ : list cellptr;
  free_cells_ : list cellptr
}.

Definition set_producer_owned (x : option obj) (t : ThreadedIter) :=
  mkThreadedIter x (producer_sig_ t) (producer_sig_processed_ t) (producer_thread_ t)
    (produce_end_ t) (max_capacity_ t) (out_data_ t) (queue_ t) (free_cells_ t).
Definition set_producer_sig (x : Signal) (t : ThreadedIter) :=
  mkThreadedIter (producer_owned_ t) x (producer_sig_processed_ t) (producer_thread_ t)
    (produce_end_ t) (max_capacity_ t) (out_data_ t) (queue_ t) (free_cells_ t).
Definition set_producer_sig_processed (x : bool) (t : ThreadedIter) :=
  mkThreadedIter (producer_owned_ t) (producer_sig_ t) x (producer_thread_ t)
    (produce_end_ t) (max_capacity_ t) (out_data_ t) (queue_ t) (free_cells_ t).
Definition set_producer_thread (x : option ThreadPc) (t : ThreadedIter) :=
  mkThreadedIter (producer_owned_ t) (producer_sig_ t) (producer_sig_processed_ t) x
    (produce_end_ t) (max_capacity_ t) (out_data_ t) (queue_ t) (free_cells_ t).
Definition set_produce_end (x : bool) (t : ThreadedIter) :=
  mkThreadedIter (producer_owned_ t) (producer_sig_ t) (producer_sig_processed_ t)
    (producer_thread_ t) x (max_capacity_ t) (out_data_ t) (queue_ t) (free_cells_ t).
Definition set_max_capacity (x : nat) (t : ThreadedIter) :=
  mkThreadedIter (producer_owned_ t) (producer_sig_ t) (producer_sig_processed_ t)
    (producer_thread_ t) (produce_end_ t) x (out_data_ t) (queue_ t) (free_cells_ t).
Definition set_out_data (x : cellptr) (t : ThreadedIter) :=
  mkThreadedIter (producer_owned_ t) (producer_sig_ t) (producer_sig_processed_ t)
    (producer_thread_ t) (produce_end_ t) (max_capacity_ t) x (queue_ t) (free_cells_ t).
Definition set_queue (x : list cellptr) (t : ThreadedIter) :=
  mkThreadedIter (producer_owned_ t) (producer_sig_ t) (producer_sig_processed_ t)
    (producer_thread_ t) (produce_end_ t) (max_capacity_ t) (out_data_ t) x (free_cells_ t).
Definition set_free_cells (x : list cellptr) (t : ThreadedIter) :=
  mkThreadedIter (producer_owned_ t) (producer_sig_ t) (producer_sig_processed_ t)
    (producer_thread_ t) (produce_end_ t) (max_capacity_ t) (out_data_ t) (queue_ t) x.

(** The constructor sets [producer_owned_], [producer_thread_],
    [max_capacity_] and [out_data_]; the queues start empty.
    [producer_sig_], [producer_sig_processed_] and [produce_end_] are left
    unset until [Init]: their indeterminate values are arguments here. *)
Definition construct (max_capacity : nat)
    (sig0 : Signal) (processed0 end0 : bool) : ThreadedIter :=
  {| producer_owned_ := None;
     producer_sig_ := sig0;
     producer_sig_processed_ := processed0;
     producer_thread_ := None;
     produce_end_ := end0;
     max_capacity_ := max_capacity;
     out_data_ := None;
     queue_ := [];
     free_cells_ := [] |}.

Section Pipe.
Context {T : Type} (P : Producer T).

(** The pipe together with what it acts on: the cells of the free
    store, the state of the producer behind the closures, and the
    producer objects deleted so far. *)
Record World := mkWorld {
  iter : ThreadedIter;
  cells : heap T;
  source : PState P;
  deleted : list obj
}.

Definition on_iter (f : ThreadedIter -> ThreadedIter) (w : World) : World :=
  mkWorld (f (iter w)) (cells w) (source w) (deleted w).
Definition set_cells (h : heap T) (w : World) : World :=
  mkWorld (iter w) h (source w) (deleted w).
Definition set_source (s : PState P) (w : World) : World :=
  mkWorld (iter w) (cells w) s (deleted w).
Definition set_deleted (d : list obj) (w : World) : World :=
  mkWorld (iter w) (cells w) (source w) d.

(** *** The producer thread *)

(** The predicate of [producer_cond_.wait]. *)
Definition producer_may_run (t : ThreadedIter) : bool :=
  match producer_sig_ t with
  | kProduce =>
      negb (produce_end_ t) &&
      ((length (queue_ t) <? max_capacity_ t) || negb (length (free_cells_ t) =? 0))
  | _ => true
  end.

(** One atomic section of [producer_fun]. *)
Definition producer_fun (w : World) : Outcome World :=
  let t := iter w in
  match producer_thread_ t with
  | None => Blocked
  | Some PcStart =>
      match p_before_first P (source w) with
      | None => Fatal
      | Some s' => Ok (on_iter (set_producer_thread (Some PcWait)) (set_source s' w))
      end
  | Some PcWait =>
      if producer_may_run t then
        match producer_sig_ t with
        | kProduce =>
            match free_cells_ t with
            | cell :: rest =>
                Ok (on_iter (fun t => set_producer_thread (Some (PcCall cell))
                                        (set_free_cells rest t)) w)
            | [] => Ok (on_iter (set_producer_thread (Some (PcCall None))) w)
            end
        | kBeforeFirst =>
            match p_before_first P (source w) with
            | None => Fatal
            | Some s' =>
                Ok (on_iter (fun t =>
                       set_producer_sig kProduce
                         (set_producer_sig_processed true
                            (set_produce_end false
                               (set_queue []
                                  (set_free_cells (free_cells_ t ++ queue_ t) t)))))
                      (set_source s' w))
            end
        | kDestroy =>
            Ok (on_iter (fun t =>
                   set_producer_thread (Some PcExit)
                     (set_produce_end true (set_producer_sig_processed true t))) w)
        end
      else Blocked
  | Some (PcCall cell) =>
      let '(more, cell', s', h') := Producer_Next P cell (source w) (cells w) in
      let w' := on_iter (set_produce_end (negb more)) (set_cells h' (set_source s' w)) in
      if bool_decide (cell' <> None) || negb more
      then Ok (on_iter (set_producer_thread (Some (PcPush cell'))) w')
      else Fatal
  | Some (PcPush cell) =>
      let push :=
        if negb (produce_end_ t) then set_queue (queue_ t ++ [cell])
        else match cell with
             | Some _ => set_free_cells (free_cells_ t ++ [cell])
             | None => fun t => t
             end in
      Ok (on_iter (fun t => set_producer_thread (Some PcWait) (push t)) w)
  | Some PcExit => Blocked
  end.

(** [producer_thread_->join()]: the caller waits while the thread runs
    on to its end, which takes at most [n] sections. *)
Fixpoint join (n : nat) (w : World) : Outcome World :=
  match producer_thread_ (iter w) with
  | Some PcExit => Ok w
  | _ =>
      match n with
      | 0 => Blocked
      | S n' => let* w' := producer_fun w in join n' w'
      end
  end.

(** *** The member functions *)

(** [Init(next, beforefirst)] *)
Definition Init_closures (w : World) : World :=
  on_iter (fun t =>
    set_producer_thread (Some PcStart)
      (set_produce_end false
         (set_producer_sig_processed false (set_producer_sig kProduce t)))) w.

(** [Init(Producer *producer, bool pass_ownership)] *)
Definition Init (producer : obj) (pass_ownership : bool) (w : World) : Outcome World :=
  match producer_owned_ (iter w) with
  | Some _ => Fatal
  | None =>
      let w' := if pass_ownership
                then on_iter (set_producer_owned (Some producer)) w else w in
      Ok (Init_closures w')
  end.

(** [Next(DType **out_dptr)]: the result, the new value of [*out_dptr]
    and the state.  The CHECK and the wait are under one lock; a call
    that has to wait is [Blocked] and leaves the state as it is.  The
    test for [kDestroy], which the code makes before it takes the lock,
    reads the signal in the same section as the CHECK: a signal that
    changes between the two is not modelled. *)
Definition Next (out_dptr : cellptr) (w : World) : Outcome (bool * cellptr * World) :=
  let t := iter w in
  match producer_sig_ t with
  | kDestroy => Ok (false, out_dptr, w)
  | kBeforeFirst => Fatal
  | kProduce =>
      match queue_ t with
      | front :: rest => Ok (true, front, on_iter (set_queue rest) w)
      | [] => if produce_end_ t then Ok (false, out_dptr, w) else Blocked
      end
  end.

(** [Recycle(DType **inout_dptr)]: the new value of [*inout_dptr] and
    the state. *)
Definition Recycle (inout_dptr : cellptr) (w : World) : cellptr * World :=
  (None, on_iter (fun t => set_free_cells (free_cells_ t ++ [inout_dptr]) t) w).

(** [Next(void)] has two lock scopes: the recycling of [out_data_], then
    [Next(&out_data_)]. *)
Definition Next_recycle (w : World) : World :=
  match out_data_ (iter w) with
  | Some _ =>
      let '(p, w') := Recycle (out_data_ (iter w)) w in on_iter (set_out_data p) w'
  | None => w
  end.

Definition Next_pull (w : World) : Outcome (bool * World) :=
  let* (more, p, w') := Next (out_data_ (iter w)) w in
  Ok (more, on_iter (set_out_data p) w').

Definition Next_void (w : World) : Outcome (bool * World) :=
  Next_pull (Next_recycle w).

(** [Value()] *)
Definition Value (w : World) : Outcome T :=
  match out_data_ (iter w) with
  | None => Fatal
  | Some a =>
      match cell_value (cells w) a with
      | Some v => Ok v
      | None => Undefined Dangling
      end
  end.

(** [BeforeFirst()] up to the wait for the acknowledgement: [true] when
    the call has returned (the signal was [kDestroy]), [false] when the
    caller now waits for [producer_sig_processed_]. *)
Definition BeforeFirst_request (w : World) : Outcome (bool * World) :=
  let w1 :=
    match out_data_ (iter w) with
    | Some _ =>
        on_iter (fun t => set_out_data None
                            (set_free_cells (free_cells_ t ++ [out_data_ t]) t)) w
    | None => w
    end in
  match producer_sig_ (iter w1) with
  | kDestroy => Ok (true, w1)
  | _ =>
      let w2 := on_iter (set_producer_sig kBeforeFirst) w1 in
      if producer_sig_processed_ (iter w2) then Fatal else Ok (false, w2)
  end.

(** [BeforeFirst()] from the wait on: enabled once the producer thread
    has acknowledged. *)
Definition BeforeFirst_ack (w : World) : Outcome World :=
  if producer_sig_processed_ (iter w)
  then Ok (on_iter (set_producer_sig_processed false) w)
  else Blocked.

(** [delete producer_owned_] *)
Definition delete_producer (o : obj) (w : World) : Outcome World :=
  if bool_decide (o ∈ deleted w) then Undefined DoubleDelete
  else Ok (set_deleted (o :: deleted w) w).

(** [Destroy()].  Once the signal is [kDestroy] the thread ends within
    four sections. *)
Definition Destroy (w : World) : Outcome World :=
  let* w1 :=
    match producer_thread_ (iter w) with
    | Some _ =>
        let* w' := join 4 (on_iter (set_producer_sig kDestroy) w) in
        Ok (on_iter (set_producer_thread None) w')
    | None => Ok w
    end in
  let* h2 := heap_delete_all (free_cells_ (iter w1)) (cells w1) in
  let w2 := on_iter (set_free_cells []) (set_cells h2 w1) in
  let* h3 := heap_delete_all (queue_ (iter w2)) (cells w2) in
  let w3 := on_iter (set_queue []) (set_cells h3 w2) in
  let* w4 :=
    match producer_owned_ (iter w3) with
    | Some o => delete_producer o w3
    | None => Ok w3
    end in
  match out_data_ (iter w4) with
  | Some _ =>
      let* h5 := heap_delete (out_data_ (iter w4)) (cells w4) in
      Ok (on_iter (set_out_data None) (set_cells h5 w4))
  | None => Ok w4
  end.

(** *** The pipe with its two threads

    The consumer thread calls the member functions one after the
    other; the producer thread runs [producer_fun].  A schedule is the
    list of the sections that get to run, in order. *)

(** What a finished call has shown to the consumer. *)
Inductive Obs :=
| Got (v : T)      (* Next returned true and the cell holds v *)
| End              (* Next returned false *)
| Rewound.         (* BeforeFirst returned *)

(** Where the consumer stands: between calls, inside [Next(void)]
    after the recycling, or inside [BeforeFirst] at the wait. *)
Inductive ConsumerPc := Idle | InNext | InBeforeFirst.

(** [loans] are the cells handed out by [Next(&p)] that the consumer
    has not recycled; [peak] is the greatest number of cells the
    consumer has held at once so far. *)
Record System := mkSystem {
  world : World;
  cpc : ConsumerPc;
  loans : list cellptr;
  seen : list Obs;
  peak : nat
}.

Inductive Move :=
| Produce          (* the producer thread runs its next section *)
| Advance          (* the consumer runs the next section of Next(void) *)
| Rewind           (* the consumer runs the next section of BeforeFirst() *)
| Pull             (* the consumer calls Next(&p) on a pointer of its own *)
| Give (i : nat).  (* the consumer calls Recycle on its i-th loan *)

#[global] Instance Move_eq_dec : EqDecision Move.
Proof. solve_decision. Defined.

(** Cells in the hands of the consumer. *)
Definition held (w : World) (loans : list cellptr) : nat :=
  length loans + (if out_data_ (iter w) is Some _ then 1 else 0).

Definition settle (w : World) (c : ConsumerPc) (l : list cellptr)
    (o : list Obs) (pk : nat) : System :=
  mkSystem w c l o (Nat.max pk (held w l)).

(** The content of the cell that a successful [Next] handed out. *)
Definition deref (w : World) (p : cellptr) : Outcome T :=
  match p with
  | None => Undefined NullDeref
  | Some a =>
      match cell_value (cells w) a with
      | Some v => Ok v
      | None => Undefined Dangling
      end
  end.

Definition step (m : Move) (s : System) : Outcome System :=
  let w := world s in
  match m, cpc s with
  | Produce, c =>
      let* w' := producer_fun w in
      Ok (settle w' c (loans s) (seen s) (peak s))
  | Advance, Idle =>
      Ok (settle (Next_recycle w) InNext (loans s) (seen s) (peak s))
  | Advance, InNext =>
      let* (more, w') := Next_pull w in
      if more then
        let* v := Value w' in
        Ok (settle w' Idle (loans s) (seen s ++ [Got v]) (peak s))
      else Ok (settle w' Idle (loans s) (seen s ++ [End]) (peak s))
  | Rewind, Idle =>
      let* (returned, w') := BeforeFirst_request w in
      if returned then Ok (settle w' Idle (loans s) (seen s ++ [Rewound]) (peak s))
      else Ok (settle w' InBeforeFirst (loans s) (seen s) (peak s))
  | Rewind, InBeforeFirst =>
      let* w' := BeforeFirst_ack w in
      Ok (settle w' Idle (loans s) (seen s ++ [Rewound]) (peak s))
  | Pull, Idle =>
      let* (more, p, w') := Next None w in
      if more then
        let* v := deref w' p in
        Ok (settle w' Idle (loans s ++ [p]) (seen s ++ [Got v]) (peak s))
      else Ok (settle w' Idle (loans s) (seen s ++ [End]) (peak s))
  | Give i, Idle =>
      match loans s !! i with
      | Some p =>
          let '(_, w') := Recycle p w in
          Ok (settle w' Idle (delete i (loans s)) (seen s) (peak s))
      | None => Blocked
      end
  | _, _ => Blocked
  end.

(** A section that cannot run in the current state is passed over. *)
Fixpoint run (sched : list Move) (s : System) : Outcome System :=
  match sched with
  | [] => Ok s
  | m :: sched' =>
      match step m s with
      | Ok s' => run sched' s'
      | Blocked => run sched' s
      | Fatal => Fatal
      | Undefined f => Undefined f
      end
  end.

(** A pipe of capacity [c] right after [Init(next, beforefirst)], over
    an empty free store. *)
Definition boot (c : nat) (s0 : PState P) : System :=
  mkSystem (Init_closures (mkWorld (construct c kProduce false false) [] s0 []))
           Idle [] [] 0.

(** The producer gives [items] and then the end, from state [s]. *)
Fixpoint yields (s : PState P) (items : list T) : Prop :=
  match items with
  | [] => (p_next P s).1 = None
  | v :: items' => (p_next P s).1 = Some v /\ yields (p_next P s).2 items'
  end.

(** A deterministic producer of [items]: whenever it is reset, it gives
    [items] and then the end. *)
Definition produces (items : list T) : Prop :=
  forall s, exists s', p_before_first P s = Some s' /\ yields s' items.

(** What a plain cursor over [items] shows: [cursor items seen rest]
    when the calls that returned [seen] leave [rest] to read. *)
Inductive cursor (items : list T) : list Obs -> list T -> Prop :=
| cursor_start : cursor items [] items
| cursor_got seen v rest :
    cursor items seen (v :: rest) -> cursor items (seen ++ [Got v]) rest
| cursor_end seen :
    cursor items seen [] -> cursor items (seen ++ [End]) []
| cursor_rewound seen rest :
    cursor items seen rest -> cursor items (seen ++ [Rewound]) items.

(** The schedule that lets the producer run four sections and then the
    consumer make one call of [Next(void)], [n] times over. *)
Definition pulls (n : nat) : list Move :=
  mjoin (replicate n [Produce; Produce; Produce; Produce; Advance; Advance]).

(** The schedule of one call of [BeforeFirst()] between producer
    sections. *)
Definition rewinds : list Move :=
  [Rewind; Produce; Produce; Produce; Produce; Rewind].

End Pipe.

End ThreadedIter.

(** * The multi-producer pipe: [MultiThreadedIter<DType, SourceType>] *)

Module MultiThreadedIter.

(** Modelled from the spec: [ConcurrentBlockingQueue] of concurrency.h,
    which is not among the sources.  A queue with a fixed capacity, a
    blocking push and pop, a size query and a kill signal after which
    every push and pop fails at once. *)
Record BlockingQueue (A : Type) := mkQueue {
  fifo : list A;
  capacity : nat;
  killed : bool
}.
Arguments mkQueue {A} _ _ _.
Arguments fifo {A} _.
Arguments capacity {A} _.
Arguments killed {A} _.

Definition queue_new {A} (capacity : nat) : BlockingQueue A := mkQueue [] capacity false.

Definition Push {A} (x : A) (q : BlockingQueue A) : Outcome (bool * BlockingQueue A) :=
  if killed q then Ok (false, q)
  else if length (fifo q) <? capacity q
       then Ok (true, mkQueue (fifo q ++ [x]) (capacity q) (killed q))
       else Blocked.

Definition Pop {A} (q : BlockingQueue A) : Outcome (option A * BlockingQueue A) :=
  if killed q then Ok (None, q)
  else match fifo q with
       | x :: rest => Ok (Some x, mkQueue rest (capacity q) (killed q))
       | [] => Blocked
       end.

Definition Size {A} (q : BlockingQueue A) : nat := length (fifo q).

Definition SignalForKill {A} (q : BlockingQueue A) : BlockingQueue A :=
  mkQueue (fifo q) (capacity q) true.

(** [typedef std::pair<DType*, SourceType*> CellType] *)
Abbreviation CellType := (cellptr * cellptr)%type.

(** Where a worker thread stands in [producer_thread_body_]:
    - [WNext]: on top of the loop, at [loader_->Next(&source_data)];
    - [WCheck src]: [Next] returned true, [force_stopped_] is read next;
    - [WTake src]: at the lock scope that takes a free cell;
    - [WCall cell src]: at [next(&cell, source_data, tid)];
    - [WPush cell src]: at [queue_->Push(CellType(cell, source_data))];
    - [WPushNull]: at [queue_->Push(CellType(nullptr, nullptr))];
    - [WReturn]: the sentinel is pushed, the [return] after the push
      has yet to run: a [join()] on the thread still waits;
    - [WExit]: the thread function has returned. *)
Inductive WorkerPc :=
| WNext
| WCheck (src : cellptr)
| WTake (src : cellptr)
| WCall (cell src : cellptr)
| WPush (cell src : cellptr)
| WPushNull
| WReturn
| WExit.

Section Multi.
Context {Src T : Type} (P : Producer Src) (F : Src -> nat -> T).

(** The data members.  [loader_] owns the upstream pipe, given with
    the store and the producer it acts on.  An entry of
    [producer_threads_] is an empty pointer or a thread. *)
Record MultiThreadedIter := mkMulti {
  out_data_ : cellptr;
  loader_ : ThreadedIter.World P;
  thread_num_ : nat;
  force_stopped_ : bool;
  null_cell_num_ : nat;
  producer_threads_ : list (option WorkerPc);
  queue_ : option (BlockingQueue CellType);
  queue_capacity_ : nat;
  free_cells_ : list cellptr
}.

Definition set_out_data (x : cellptr) (m : MultiThreadedIter) :=
  mkMulti x (loader_ m) (thread_num_ m) (force_stopped_ m) (null_cell_num_ m)
    (producer_threads_ m) (queue_ m) (queue_capacity_ m) (free_cells_ m).
Definition set_loader (x : ThreadedIter.World P) (m : MultiThreadedIter) :=
  mkMulti (out_data_ m) x (thread_num_ m) (force_stopped_ m) (null_cell_num_ m)
    (producer_threads_ m) (queue_ m) (queue_capacity_ m) (free_cells_ m).
Definition set_force_stopped (x : bool) (m : MultiThreadedIter) :=
  mkMulti (out_data_ m) (loader_ m) (thread_num_ m) x (null_cell_num_ m)
    (producer_threads_ m) (queue_ m) (queue_capacity_ m) (free_cells_ m).
Definition set_null_cell_num (x : nat) (m : MultiThreadedIter) :=
  mkMulti (out_data_ m) (loader_ m) (thread_num_ m) (force_stopped_ m) x
    (producer_threads_ m) (queue_ m) (queue_capacity_ m) (free_cells_ m).
Definition set_producer_threads (x : list (option WorkerPc)) (m : MultiThreadedIter) :=
  mkMulti (out_data_ m) (loader_ m) (thread_num_ m) (force_stopped_ m) (null_cell_num_ m)
    x (queue_ m) (queue_capacity_ m) (free_cells_ m).
Definition set_queue (x : option (BlockingQueue CellType)) (m : MultiThreadedIter) :=
  mkMulti (out_data_ m) (loader_ m) (thread_num_ m) (force_stopped_ m) (null_cell_num_ m)
    (producer_threads_ m) x (queue_capacity_ m) (free_cells_ m).
Definition set_free_cells (x : list cellptr) (m : MultiThreadedIter) :=
  mkMulti (out_data_ m) (loader_ m) (thread_num_ m) (force_stopped_ m) (null_cell_num_ m)
    (producer_threads_ m) (queue_ m) (queue_capacity_ m) x.

(** The pipe with the store of its output cells and the number of
    times the reset closure [before_first_] has run. *)
Record World := mkWorld {
  iter : MultiThreadedIter;
  cells : heap T;
  resets : nat
}.

Definition on_iter (f : MultiThreadedIter -> MultiThreadedIter) (w : World) : World :=
  mkWorld (f (iter w)) (cells w) (resets w).
Definition set_cells (h : heap T) (w : World) : World :=
  mkWorld (iter w) h (resets w).

(** The constructor. *)
Definition construct (base : ThreadedIter.World P) (thread_num queue_capacity : nat)
    : MultiThreadedIter :=
  {| out_data_ := None;
     loader_ := base;
     thread_num_ := thread_num;
     force_stopped_ := false;
     null_cell_num_ := 0;
     producer_threads_ := [];
     queue_ := None;
     queue_capacity_ := queue_capacity;
     free_cells_ := [] |}.

(** [producer_threads_.resize(thread_num_)] and the loop that starts
    the threads.  The threads are created in one section: a thread
    that has not run yet cannot be told from one created later. *)
Definition launch (m : MultiThreadedIter) : MultiThreadedIter :=
  set_producer_threads (replicate (thread_num_ m) (Some WNext)) m.

(** [Init(next, beforefirst)] *)
Definition Init (w : World) : World :=
  on_iter (fun m => launch (set_queue (Some (queue_new (queue_capacity_ m))) m)) w.

(** The closure [next(&cell, source_data, tid)] is external: it fills
    the cell it is given, or a new one for NULL, with the image of the
    source record. *)
Definition transform (cell src : cellptr) (tid : nat) (w : World)
    : Outcome (cellptr * World) :=
  match src with
  | None => Undefined NullDeref
  | Some a =>
      match cell_value (ThreadedIter.cells P (loader_ (iter w))) a with
      | None => Undefined Dangling
      | Some v =>
          match cell with
          | Some c => Ok (Some c, set_cells (heap_write c (F v tid) (cells w)) w)
          | None =>
              let '(c, h') := heap_new (F v tid) (cells w) in
              Ok (Some c, set_cells h' w)
          end
      end
  end.

Definition set_worker (tid : nat) (pc : WorkerPc) (w : World) : World :=
  on_iter (fun m => set_producer_threads (<[tid := Some pc]> (producer_threads_ m)) m) w.

Definition push_cell (x : CellType) (w : World) : Outcome World :=
  match queue_ (iter w) with
  | None => Undefined NullDeref
  | Some q =>
      let* (_, q') := Push x q in
      Ok (on_iter (set_queue (Some q')) w)
  end.

(** One atomic section of the worker [tid]. *)
Definition producer_thread_body_ (tid : nat) (w : World) : Outcome World :=
  let m := iter w in
  match producer_threads_ m !! tid with
  | Some (Some WNext) =>
      let* (more, src, l') := ThreadedIter.Next P None (loader_ m) in
      Ok (set_worker tid (if more then WCheck src else WPushNull)
            (on_iter (set_loader l') w))
  | Some (Some (WCheck src)) =>
      Ok (set_worker tid (if force_stopped_ m then WPushNull else WTake src) w)
  | Some (Some (WTake src)) =>
      match free_cells_ m with
      | cell :: rest => Ok (set_worker tid (WCall cell src) (on_iter (set_free_cells rest) w))
      | [] => Ok (set_worker tid (WCall None src) w)
      end
  | Some (Some (WCall cell src)) =>
      let* (cell', w') := transform cell src tid w in
      Ok (set_worker tid (WPush cell' src) w')
  | Some (Some (WPush cell src)) =>
      let* w' := push_cell (cell, src) w in
      Ok (set_worker tid WNext w')
  | Some (Some WPushNull) =>
      let* w' := push_cell (None, None) w in
      Ok (set_worker tid WReturn w')
  | Some (Some WReturn) =>
      Ok (set_worker tid WExit w)
  | _ => Blocked
  end.

(** The section of the producer thread of the upstream pipe. *)
Definition loader_thread (w : World) : Outcome World :=
  let* l' := ThreadedIter.producer_fun P (loader_ (iter w)) in
  Ok (on_iter (set_loader l') w).

(** [Recycle(DType **inout_dptr)] *)
Definition Recycle (inout_dptr : cellptr) (w : World) : cellptr * World :=
  (None, on_iter (fun m => set_free_cells (free_cells_ m ++ [inout_dptr]) m) w).

(** [Next(void)] up to the loop of [Next(&out_data_)]: the recycling of
    [out_data_] and the test of the counter.  [Some false] when the
    call has returned, [None] when the loop is entered. *)
Definition Next_enter (w : World) : option bool * World :=
  let w1 :=
    match out_data_ (iter w) with
    | Some _ =>
        let '(p, w') := Recycle (out_data_ (iter w)) w in on_iter (set_out_data p) w'
    | None => w
    end in
  if thread_num_ (iter w1) <=? null_cell_num_ (iter w1) then (Some false, w1)
  else (None, w1).

(** One turn of the loop of [Next(&out_data_)]: the pop, and for a cell
    the recycling of its source cell in the same section.  [Some b]
    when the call has returned [b], [None] when the loop goes on. *)
Definition Next_turn (w : World) : Outcome (option bool * World) :=
  let m := iter w in
  match queue_ m with
  | None => Undefined NullDeref
  | Some q =>
      let* (popped, q') := Pop q in
      let w1 := on_iter (set_queue (Some q')) w in
      match popped with
      | None => Ok (Some false, w1)
      | Some (Some c, src) =>
          let '(_, l') := ThreadedIter.Recycle P src (loader_ m) in
          Ok (Some true, on_iter (fun m => set_loader l' (set_out_data (Some c) m)) w1)
      | Some (None, _) =>
          let n := S (null_cell_num_ m) in
          let w2 := on_iter (set_null_cell_num n) w1 in
          if n =? thread_num_ m then Ok (Some false, w2) else Ok (None, w2)
      end
  end.

(** [Value()] *)
Definition Value (w : World) : Outcome T :=
  match out_data_ (iter w) with
  | None => Fatal
  | Some a =>
      match cell_value (cells w) a with
      | Some v => Ok v
      | None => Undefined Dangling
      end
  end.

(** All the threads of the vector have returned. *)
Definition all_ended (ths : list (option WorkerPc)) : bool :=
  forallb (fun h => match h with Some WExit | None => true | _ => false end) ths.

(** The loop of joins, [join()] and [reset()] for each thread in turn,
    is one await: it ends exactly when every thread has returned, and the
    handles are read by no other thread.  The vector is indexed up to
    [thread_num_]. *)
Definition join_all (w : World) : Outcome World :=
  let m := iter w in
  if all_ended (producer_threads_ m) then
    if length (producer_threads_ m) <? thread_num_ m then Undefined OutOfRange
    else Ok (on_iter (set_producer_threads
                        (replicate (length (producer_threads_ m)) None)) w)
  else Blocked.

(** [Destroy()] up to the joins: [true] when the call has returned. *)
Definition Destroy_signal (w : World) : Outcome (bool * World) :=
  let m := iter w in
  if force_stopped_ m then Ok (true, w)
  else
    match queue_ m with
    | None => Undefined NullDeref
    | Some q =>
        Ok (false, on_iter (fun m => set_queue (Some (SignalForKill q))
                                       (set_force_stopped true m)) w)
    end.

(** The loop [while (queue_->Size() > 0)] of [Destroy]. *)
Fixpoint drop_queue (n : nat) (q : BlockingQueue CellType)
    (hs : heap Src) (ht : heap T)
    : Outcome (BlockingQueue CellType * heap Src * heap T) :=
  match n with
  | 0 => Ok (q, hs, ht)
  | S n' =>
      if 0 <? Size q then
        let* (popped, q') := Pop q in
        match popped with
        | Some (c, src) =>
            let* ht' := heap_delete c ht in
            let* hs' := heap_delete src hs in
            drop_queue n' q' hs' ht'
        | None => Ok (q', hs, ht)
        end
      else Ok (q, hs, ht)
  end.

(** [Destroy()] from the joins on. *)
Definition Destroy_finish (w : World) : Outcome World :=
  let* w1 := join_all w in
  let* l' := ThreadedIter.Destroy P (loader_ (iter w1)) in
  let w2 := on_iter (set_loader l') w1 in
  let* h3 := heap_delete_all (free_cells_ (iter w2)) (cells w2) in
  let w3 := on_iter (set_free_cells []) (set_cells h3 w2) in
  match queue_ (iter w3) with
  | None => Undefined NullDeref
  | Some q =>
      let l := loader_ (iter w3) in
      let* (q', hs, ht) :=
        drop_queue (S (Size q)) q (ThreadedIter.cells P l) (cells w3) in
      let w4 := on_iter (fun m => set_queue (Some q')
                                    (set_loader (ThreadedIter.set_cells P hs l) m))
                  (set_cells ht w3) in
      let* h5 := heap_delete (out_data_ (iter w4)) (cells w4) in
      Ok (on_iter (set_out_data None) (set_cells h5 w4))
  end.

(** [Destroy()], for a pipe whose threads, if any, have ended. *)
Definition Destroy (w : World) : Outcome World :=
  let* (returned, w') := Destroy_signal w in
  if returned then Ok w' else Destroy_finish w'.

(** *** The pipe with its threads

    The consumer thread calls [Next()] and [BeforeFirst()]; the
    workers run [producer_thread_body_] and the upstream pipe runs its
    producer thread. *)

(** What the consumer thread has done or been shown: the result of a
    call of [Next()] made by the user, and the stages of
    [BeforeFirst()]. *)
Inductive Obs :=
| Got (v : T)      (* Next returned true and the cell holds v *)
| End              (* Next returned false *)
| Stopped          (* force_stopped_ = true *)
| Drained          (* a loop while (Next()) has ended *)
| Joined           (* every worker thread is joined *)
| ResetRun         (* before_first_() has run *)
| UpstreamRewound  (* loader_->BeforeFirst() has returned *)
| Relaunched.      (* flag and counter cleared, threads started *)

(** Who called [Next()]: the user, or one of the two loops of
    [BeforeFirst]. *)
Inductive Caller := ByUser | ByDrain1 | ByDrain2.

(** Where the consumer thread stands: between calls, in the loop of
    [Next(&out_data_)], or in [BeforeFirst] before the named stage. *)
Inductive ConsumerPc :=
| Idle
| InNext (by_ : Caller)
| AtDrain1
| AtJoin
| AtDrain2
| AtReset
| AtUpstream
| AtUpstreamAck
| AtRelaunch.

Record System := mkSystem {
  world : World;
  cpc : ConsumerPc;
  seen : list Obs
}.

Inductive Move :=
| Feed                 (* the producer thread of the upstream pipe *)
| Work (tid : nat)     (* the worker tid *)
| Advance              (* the consumer, in a call of Next() *)
| Rewind.              (* the consumer, in a call of BeforeFirst() *)

(** The consumer when a call of [Next()] made by [by_] returns [more]. *)
Definition returned (by_ : Caller) (more : bool) (w : World) (o : list Obs)
    : Outcome System :=
  match by_, more with
  | ByUser, true => let* v := Value w in Ok (mkSystem w Idle (o ++ [Got v]))
  | ByUser, false => Ok (mkSystem w Idle (o ++ [End]))
  | ByDrain1, true => Ok (mkSystem w AtDrain1 o)
  | ByDrain1, false => Ok (mkSystem w AtJoin (o ++ [Drained]))
  | ByDrain2, true => Ok (mkSystem w AtDrain2 o)
  | ByDrain2, false => Ok (mkSystem w AtReset (o ++ [Drained]))
  end.

(** The first section of [Next()]. *)
Definition enter (by_ : Caller) (s : System) : Outcome System :=
  match Next_enter (world s) with
  | (Some more, w') => returned by_ more w' (seen s)
  | (None, w') => Ok (mkSystem w' (InNext by_) (seen s))
  end.

(** A turn of the loop of [Next(&out_data_)]. *)
Definition turn (by_ : Caller) (s : System) : Outcome System :=
  let* (r, w') := Next_turn (world s) in
  match r with
  | Some more => returned by_ more w' (seen s)
  | None => Ok (mkSystem w' (InNext by_) (seen s))
  end.

Definition step (mv : Move) (s : System) : Outcome System :=
  let w := world s in
  match mv, cpc s with
  | Feed, c => let* w' := loader_thread w in Ok (mkSystem w' c (seen s))
  | Work tid, c => let* w' := producer_thread_body_ tid w in Ok (mkSystem w' c (seen s))
  | Advance, Idle => enter ByUser s
  | Advance, InNext ByUser => turn ByUser s
  | Rewind, Idle =>
      Ok (mkSystem (on_iter (set_force_stopped true) w) AtDrain1 (seen s ++ [Stopped]))
  | Rewind, AtDrain1 => enter ByDrain1 s
  | Rewind, InNext ByDrain1 => turn ByDrain1 s
  | Rewind, AtJoin =>
      let* w' := join_all w in Ok (mkSystem w' AtDrain2 (seen s ++ [Joined]))
  | Rewind, AtDrain2 => enter ByDrain2 s
  | Rewind, InNext ByDrain2 => turn ByDrain2 s
  | Rewind, AtReset =>
      Ok (mkSystem (mkWorld (iter w) (cells w) (S (resets w))) AtUpstream
            (seen s ++ [ResetRun]))
  | Rewind, AtUpstream =>
      let* (back, l') := ThreadedIter.BeforeFirst_request P (loader_ (iter w)) in
      let w' := on_iter (set_loader l') w in
      if back then Ok (mkSystem w' AtRelaunch (seen s ++ [UpstreamRewound]))
      else Ok (mkSystem w' AtUpstreamAck (seen s))
  | Rewind, AtUpstreamAck =>
      let* l' := ThreadedIter.BeforeFirst_ack P (loader_ (iter w)) in
      Ok (mkSystem (on_iter (set_loader l') w) AtRelaunch (seen s ++ [UpstreamRewound]))
  | Rewind, AtRelaunch =>
      Ok (mkSystem
            (on_iter (fun m => launch (set_null_cell_num 0 (set_force_stopped false m))) w)
            Idle (seen s ++ [Relaunched]))
  | _, _ => Blocked
  end.

(** A section that cannot run in the current state is passed over. *)
Fixpoint run (sched : list Move) (s : System) : Outcome System :=
  match sched with
  | [] => Ok s
  | mv :: sched' =>
      match step mv s with
      | Ok s' => run sched' s'
      | Blocked => run sched' s
      | Fatal => Fatal
      | Undefined f => Undefined f
      end
  end.

(** The upstream pipe of capacity [c] after its [Init], handed to the
    constructor with [n] workers and a queue of capacity [qc], and
    then [Init]. *)
Definition boot (n qc c : nat) (s0 : PState P) : System :=
  let base :=
    ThreadedIter.Init_closures P
      (ThreadedIter.mkWorld P
         (ThreadedIter.construct c ThreadedIter.kProduce false false) [] s0 []) in
  mkSystem (Init (mkWorld (construct base n qc) [] 0)) Idle [].

(** The multi-producer control state: flag, counter, threads, queue
    and current cell. *)
Definition control (m : MultiThreadedIter)
    : bool * nat * list (option WorkerPc) * option (BlockingQueue CellType) * cellptr :=
  (force_stopped_ m, null_cell_num_ m, producer_threads_ m, queue_ m, out_data_ m).

(** The stages of one call of [BeforeFirst()], as the consumer goes
    through them. *)
Definition rewind_stages : list Obs :=
  [Stopped; Drained; Joined; Drained; ResetRun; UpstreamRewound; Relaunched].

End Multi.

End MultiThreadedIter.

(** * Properties of the single-producer pipe *)

Module ThreadedIterProofs.
Import ThreadedIter.

Section Calls.
Context {T : Type} (P : Producer T).

Lemma heap_delete_all_nil (h : heap T) : heap_delete_all [] h = Ok h.
Proof. reflexivity. Qed.

(** The join after [kDestroy] ends within four sections when the
    producer's reset, if it still has to run, does not fail. *)
Lemma join_exit (w : World P) :
  producer_thread_ (iter P w) = Some PcExit -> join P 4 w = Ok w.
Proof. intros H. simpl. by rewrite H. Qed.

(** ** Next after shutdown *)

(** C2, as amended: once the signal is [kDestroy], [Next] returns
    false at once and changes neither the caller's pointer nor the
    pipe; it is not a fatal failure. *)
Theorem Next_after_shutdown (out_dptr : cellptr) (w : World P) :
  producer_sig_ (iter P w) = kDestroy ->
  Next P out_dptr w = Ok (false, out_dptr, w).
Proof. intros H. unfold Next. by rewrite H. Qed.

(** With the signal as the call finds it, [Next] is fatal exactly at
    [kBeforeFirst]. *)
Lemma Next_fatal_iff (out_dptr : cellptr) (w : World P) :
  Next P out_dptr w = Fatal <-> producer_sig_ (iter P w) = kBeforeFirst.
Proof.
  unfold Next. destruct (producer_sig_ (iter P w)); split; try done.
  destruct (queue_ (iter P w)); [by destruct (produce_end_ (iter P w))|done].
Qed.

(** ** BeforeFirst after shutdown *)

(** C10: with the signal [kDestroy], [BeforeFirst] returns without
    waiting and without writing the signal; the cell held in
    [out_data_], if any, goes to the free pool and [out_data_] is
    nulled, and nothing else changes. *)
Theorem BeforeFirst_after_shutdown (w : World P) :
  producer_sig_ (iter P w) = kDestroy ->
  exists w',
    BeforeFirst_request P w = Ok (true, w') /\
    producer_sig_ (iter P w') = kDestroy /\
    out_data_ (iter P w') = None /\
    free_cells_ (iter P w') =
      free_cells_ (iter P w) ++
      match out_data_ (iter P w) with Some a => [Some a] | None => [] end /\
    w' = on_iter P (fun t => set_out_data None (set_free_cells (free_cells_ (iter P w')) t)) w.
Proof.
  intros H. destruct w as [[o sg pr th e c od q f] h src d]. simpl in *. subst sg.
  unfold BeforeFirst_request. destruct od as [a|]; simpl.
  - eexists; repeat split; reflexivity.
  - eexists; repeat split; simpl; rewrite ?app_nil_r; reflexivity.
Qed.

(** ** Destroy *)

Lemma obind_Ok {A B} (m : Outcome A) (k : A -> Outcome B) (b : B) :
  obind m k = Ok b -> exists a, m = Ok a /\ k a = Ok b.
Proof. destruct m; simpl; try done. eauto. Qed.

Lemma producer_fun_owned (w w' : World P) :
  producer_fun P w = Ok w' ->
  producer_owned_ (iter P w') = producer_owned_ (iter P w) /\ deleted P w' = deleted P w.
Proof.
  destruct w as [[o sg pr th e c od q f] h src d].
  unfold producer_fun; simpl.
  intros H. repeat case_match; simplify_eq; done.
Qed.

Lemma join_owned (n : nat) (w w' : World P) :
  join P n w = Ok w' ->
  producer_owned_ (iter P w') = producer_owned_ (iter P w) /\
  deleted P w' = deleted P w /\
  producer_thread_ (iter P w') = Some PcExit.
Proof.
  revert w. induction n as [|n IH]; intros w; simpl.
  - destruct (producer_thread_ (iter P w)) as [[]|] eqn:E; try done.
    by intros [= <-].
  - destruct (producer_thread_ (iter P w)) as [[]|] eqn:E;
      try (intros [= <-]; done);
      intros (w1 & H1 & H2)%obind_Ok;
      apply producer_fun_owned in H1 as [Ho Hd];
      apply IH in H2 as (-> & -> & ->); done.
Qed.

(** What [Destroy] leaves behind. *)
Lemma Destroy_leaves (w w' : World P) :
  Destroy P w = Ok w' ->
  producer_thread_ (iter P w') = None /\
  free_cells_ (iter P w') = [] /\
  queue_ (iter P w') = [] /\
  out_data_ (iter P w') = None /\
  producer_owned_ (iter P w') = producer_owned_ (iter P w) /\
  (forall o, producer_owned_ (iter P w) = Some o -> o ∈ deleted P w').
Proof.
  unfold Destroy.
  intros (w1 & H1 & H)%obind_Ok.
  apply obind_Ok in H as (h2 & _ & H). apply obind_Ok in H as (h3 & _ & H).
  apply obind_Ok in H as (w4 & H4 & H). cbn beta zeta in *.
  assert (producer_thread_ (iter P w1) = None /\
          producer_owned_ (iter P w1) = producer_owned_ (iter P w)) as [Hth Ho].
  { destruct (producer_thread_ (iter P w)) eqn:E.
    - apply obind_Ok in H1 as (wj & Hj & [= <-]).
      apply join_owned in Hj as (Hj & _ & _). done.
    - by injection H1 as <-. }
  assert (iter P w4 = set_queue [] (set_free_cells [] (iter P w1)) /\
          (forall o, producer_owned_ (iter P w) = Some o -> o ∈ deleted P w4))
    as [Hi Hd].
  { rewrite <- Ho. simpl in H4.
    destruct (producer_owned_ (iter P w1)) as [o|] eqn:Eo.
    - unfold delete_producer in H4. case_bool_decide; [done|].
      injection H4 as <-. simpl. split; [done|]. intros ? [= <-]. apply list_elem_of_here.
    - injection H4 as <-. done. }
  destruct (out_data_ (iter P w4)) eqn:Eod.
  - apply obind_Ok in H as (h5 & _ & [= <-]); simpl.
    rewrite Hi; simpl. rewrite Hth, Ho. done.
  - injection H as <-. rewrite Hi in Eod |- *; simpl in Eod |- *.
    by rewrite Hth, Ho.
Qed.

(** C3: after a [Destroy] that has returned, a second [Destroy] changes
    nothing when the pipe owns no producer; when it owns one, the
    second call deletes it a second time. *)
Theorem Destroy_twice (w w' : World P) :
  Destroy P w = Ok w' ->
  match producer_owned_ (iter P w) with
  | None => Destroy P w' = Ok w'
  | Some _ => Destroy P w' = Undefined DoubleDelete
  end.
Proof.
  intros H. apply Destroy_leaves in H as (Hth & Hf & Hq & Hod & Ho & Hd).
  destruct w' as [[o sg pr th e c od q f] h src d]. simpl in *. subst th f q od o.
  unfold Destroy; simpl.
  destruct (producer_owned_ (iter P w)) as [o|]; simpl; [|done].
  unfold delete_producer; simpl. rewrite bool_decide_eq_true_2; eauto.
Qed.

(** ** Init *)

(** C4: [Init(producer, pass_ownership)] fails on a second call only
    when an earlier call passed the ownership of its producer.  After
    [Init(next, beforefirst)], or after [Init(producer, false)], a
    second [Init] of either form returns and starts another thread. *)
Theorem Init_twice (w : World P) (p q : obj) (f : bool) :
  producer_owned_ (iter P w) = None ->
  (exists w2, Init P q f (Init_closures P w) = Ok w2 /\
              producer_thread_ (iter P w2) = Some PcStart) /\
  (exists w1 w2, Init P p false w = Ok w1 /\ Init P q f w1 = Ok w2 /\
                 producer_thread_ (iter P w2) = Some PcStart) /\
  (exists w1, Init P p true w = Ok w1 /\ Init P q f w1 = Fatal).
Proof.
  intros H. destruct w as [[o sg pr th e c od qu fr] h src d]. simpl in *. subst o.
  unfold Init; simpl. repeat split.
  - destruct f; eexists; split; reflexivity.
  - destruct f; do 2 eexists; repeat split; reflexivity.
  - eexists; split; reflexivity.
Qed.

(** ** A pipe that was never initialised *)

(** [Destroy] on a single-producer pipe fresh from the constructor
    returns and changes nothing, whatever the fields left unset hold. *)
Lemma Destroy_constructed (c : nat) (sg : Signal) (pr e : bool)
    (h : heap T) (src : PState P) (d : list obj) :
  let w := mkWorld P (construct c sg pr e) h src d in
  Destroy P w = Ok w.
Proof. reflexivity. Qed.

End Calls.

(** ** The free store *)

Section StoreFacts.
Context {T : Type}.
Implicit Types (h : heap T) (a : ptr) (c : cellptr) (v : T).

(** The cell [c] is live and holds [v]. *)
Definition holds h c v : Prop := exists a, c = Some a /\ cell_value h a = Some v.
Definition live h c : Prop := exists v, holds h c v.

Lemma cell_value_Some h a v : cell_value h a = Some v <-> h !! a = Some (Some v).
Proof.
  unfold cell_value. destruct (h !! a) as [[?|]|]; split; intros; simplify_eq; done.
Qed.

Lemma cell_value_lt h a v : cell_value h a = Some v -> a < length h.
Proof. rewrite cell_value_Some. apply lookup_lt_Some. Qed.

Lemma cell_value_new_old h a v : a < length h -> cell_value (h ++ [Some v]) a = cell_value h a.
Proof. intros H. unfold cell_value. by rewrite lookup_app_l. Qed.

Lemma cell_value_new h v : cell_value (h ++ [Some v]) (length h) = Some v.
Proof. unfold cell_value. by rewrite list_lookup_middle. Qed.

Lemma cell_value_write h a v : a < length h -> cell_value (heap_write a v h) a = Some v.
Proof. intros H. unfold cell_value, heap_write. by rewrite list_lookup_insert_eq. Qed.

Lemma cell_value_write_ne h a a' v :
  a <> a' -> cell_value (heap_write a v h) a' = cell_value h a'.
Proof. intros H. unfold cell_value, heap_write. by rewrite list_lookup_insert_ne. Qed.

Lemma allocated_new h v : allocated (h ++ [Some v]) = S (allocated h).
Proof. unfold allocated. rewrite omap_app, length_app. simpl. lia. Qed.

Lemma allocated_write h a v w :
  cell_value h a = Some w -> allocated (heap_write a v h) = allocated h.
Proof.
  rewrite cell_value_Some. unfold allocated, heap_write.
  revert a. induction h as [|x h IH]; intros [|a] H; simplify_eq/=; try done.
  specialize (IH a H). destruct x; simpl; [f_equal|]; exact IH.
Qed.

Lemma holds_new_old h c v w : holds h c w -> holds (h ++ [Some v]) c w.
Proof.
  intros (a & -> & H). exists a. split; [done|].
  rewrite cell_value_new_old; [done|]. by eapply cell_value_lt.
Qed.

Lemma holds_write_ne h a c v w : c <> Some a -> holds h c w -> holds (heap_write a v h) c w.
Proof.
  intros Hne (a' & -> & H). exists a'. split; [done|].
  rewrite cell_value_write_ne; [done|]. congruence.
Qed.

Lemma live_not_fresh h : ~ live h (Some (length h)).
Proof.
  intros (v & a & [= <-] & H%cell_value_lt). lia.
Qed.

(** The cells of [l] are exactly the allocated cells, each once. *)
Definition owns h (l : list cellptr) : Prop :=
  NoDup l /\ Forall (live h) l /\ allocated h = length l.

Lemma owns_perm h l l' : l ≡ₚ l' -> owns h l -> owns h l'.
Proof. intros Hp (H1 & H2 & H3). unfold owns. by rewrite <- Hp. Qed.

Lemma owns_new h l v : owns h l -> owns (h ++ [Some v]) (Some (length h) :: l).
Proof.
  intros (H1 & H2 & H3). repeat split.
  - constructor; [|done]. intros Hin.
    rewrite Forall_forall in H2. exact (live_not_fresh h (H2 _ Hin)).
  - constructor.
    + exists v, (length h). split; [done|]. apply cell_value_new.
    + eapply Forall_impl; [done|]. intros c [w Hw]. exists w. by apply holds_new_old.
  - rewrite allocated_new. simpl. by rewrite H3.
Qed.

Lemma owns_write h l a v : Some a ∈ l -> owns h l -> owns (heap_write a v h) l.
Proof.
  intros Hin (H1 & H2 & H3).
  assert (exists w, cell_value h a = Some w) as [w Hw].
  { rewrite Forall_forall in H2. destruct (H2 _ Hin) as (w & a' & [= <-] & Hw). eauto. }
  repeat split; [done| |].
  - eapply Forall_impl; [done|]. intros c [u (a' & -> & Hu)].
    destruct (decide (a = a')) as [<-|Hne].
    + exists v, a. split; [done|]. apply cell_value_write. by eapply cell_value_lt.
    + exists u, a'. split; [done|]. by rewrite cell_value_write_ne.
  - by rewrite (allocated_write _ _ _ w).
Qed.

End StoreFacts.

(** ** Who owns which cell, and how many there are *)

Section Ownership.
Context {T : Type} (P : Producer T).
Implicit Types (s : System P) (w : World P) (t : ThreadedIter).

(** The cell that the producer thread works on. *)
Definition in_flight t : list cellptr :=
  match producer_thread_ t with
  | Some (PcCall (Some a)) | Some (PcPush (Some a)) => [Some a]
  | _ => []
  end.

(** The cell behind [out_data_]. *)
Definition in_hand t : list cellptr :=
  match out_data_ t with Some a => [Some a] | None => [] end.

(** The homes of a cell: the free pool, the ready queue, the producer
    thread, and the consumer through [out_data_] or a loan. *)
Definition homes w (l : list cellptr) : list cellptr :=
  free_cells_ (iter P w) ++ queue_ (iter P w) ++ in_flight (iter P w)
    ++ in_hand (iter P w) ++ l.

(** The producer thread has left the lock scope without a free cell: its
    call of [next] will allocate one. *)
Definition about_to_allocate t : nat :=
  match producer_thread_ t with Some (PcCall None) => 1 | _ => 0 end.

(** The invariant of a running pipe of capacity [c]. *)
Record inv (c : nat) s : Prop := mkInv {
  inv_owns : owns (cells P (world P s)) (homes (world P s) (loans P s));
  inv_thread :
    match producer_thread_ (iter P (world P s)) with
    | Some PcStart | Some PcWait => True
    | Some (PcCall _) => produce_end_ (iter P (world P s)) = false
    | Some (PcPush cell) =>
        produce_end_ (iter P (world P s)) = false -> cell <> None
    | _ => False
    end;
  inv_sig :
    match producer_sig_ (iter P (world P s)) with
    | kProduce =>
        producer_sig_processed_ (iter P (world P s)) = true -> cpc P s = InBeforeFirst
    | kBeforeFirst =>
        cpc P s = InBeforeFirst /\ producer_sig_processed_ (iter P (world P s)) = false
    | kDestroy => False
    end;
  inv_busy : cpc P s <> Idle -> out_data_ (iter P (world P s)) = None;
  inv_capacity : max_capacity_ (iter P (world P s)) = c;
  inv_peak : held P (world P s) (loans P s) <= peak P s;
  inv_bound :
    length (homes (world P s) (loans P s)) + about_to_allocate (iter P (world P s))
    <= c + peak P s
}.

Ltac unfold_homes :=
  unfold homes, in_flight, in_hand, about_to_allocate, held, settle in *; simpl in *.

Lemma inv_boot (c : nat) (s0 : PState P) : inv c (boot P c s0).
Proof.
  constructor; unfold_homes; try done; try lia.
  split; [apply NoDup_nil_2|split; [apply Forall_nil_2|done]].
Qed.

Lemma live_None (h : heap T) : ~ live h None.
Proof. by intros (v & a & ? & _). Qed.

Lemma owns_head_Some (h : heap T) c l : owns h (c :: l) -> exists a, c = Some a.
Proof.
  intros (_ & H & _). apply Forall_cons_1 in H as [(v & a & -> & _) _]. eauto.
Qed.

Ltac lengths :=
  repeat (progress (rewrite ?length_app in *; simpl in * ));
  repeat case_match; simpl in *; try lia.
Ltac shuffle H := eapply owns_perm; [|exact H]; solve_Permutation.
Ltac finish H :=
  try done; try (solve [shuffle H]); try tauto; try (solve [lengths]).

Lemma producer_fun_inv c s w' :
  inv c s -> producer_fun P (world P s) = Ok w' ->
  inv c (settle P w' (cpc P s) (loans P s) (seen P s) (peak P s)).
Proof.
  destruct s as [[[o sg pr th e cap od q f] h src d] cp ln sn pk].
  intros [Io It Is Ib Ic Ip Ibd]. unfold producer_fun. unfold_homes.
  destruct th as [[| |cell|cell|]|]; try done.
  - (* the first beforefirst() *)
    destruct (p_before_first P src); [|done]. intros [= <-].
    constructor; unfold_homes; finish Io.
  - (* the wait *)
    destruct (producer_may_run _) eqn:Hrun; [|done].
    unfold producer_may_run in Hrun. simpl in Hrun.
    destruct sg; simpl in *; [| |done].
    + apply andb_prop in Hrun as [He%negb_true_iff Hroom].
      destruct f as [|cell f].
      * intros [= <-]. rewrite orb_false_r in Hroom. apply Nat.ltb_lt in Hroom.
        constructor; unfold_homes; finish Io.
      * intros [= <-]. destruct (owns_head_Some _ _ _ Io) as [a ->].
        constructor; unfold_homes; finish Io.
    + destruct (p_before_first P src); [|done]. intros [= <-].
      constructor; unfold_homes; finish Io.
  - (* next(&cell) *)
    unfold Producer_Next. destruct (p_next P src) as [[v|] s']; simpl.
    + destruct cell as [a|]; simpl; intros [= <-].
      * constructor; unfold_homes; finish Io.
        apply owns_write; [|done]. rewrite !elem_of_app, !elem_of_cons. naive_solver.
      * constructor; unfold_homes; finish Io.
        eapply owns_perm; [|apply owns_new, Io]. solve_Permutation.
    + rewrite orb_true_r. intros [= <-].
      constructor; unfold_homes; finish Io; by destruct cell.
  - (* the push *)
    intros [= <-]. destruct e; simpl.
    + destruct cell as [a|]; constructor; unfold_homes; finish Io.
    + destruct cell as [a|]; [|by destruct It].
      constructor; unfold_homes; finish Io.
Qed.

Lemma step_inv c m s s' : inv c s -> step P m s = Ok s' -> inv c s'.
Proof.
  intros Hinv. destruct m; simpl.
  - (* Produce *)
    intros (w' & Hw & [= <-])%obind_Ok. by apply producer_fun_inv.
  - (* Advance *)
    destruct s as [[[o sg pr th e cap od q f] h src d] cp ln sn pk].
    destruct Hinv as [Io It Is Ib Ic Ip Ibd]. unfold_homes.
    destruct cp; simpl; try done.
    + intros [= <-]. unfold Next_recycle; simpl.
      destruct sg; [|by destruct Is|done].
      destruct od as [a|]; simpl; constructor; unfold_homes; finish Io; naive_solver.
    + rewrite (Ib ltac:(done)) in *. unfold Next_pull, Next; simpl.
      destruct sg; simpl; try done.
      destruct q as [|front q]; simpl.
      * destruct e; simpl; [|done]. intros [= <-].
        constructor; unfold_homes; finish Io; naive_solver.
      * unfold Value; simpl. destruct front as [a|]; simpl; [|done].
        destruct (cell_value h a) as [v|]; simpl; [|done]. intros [= <-].
        constructor; unfold_homes; finish Io; naive_solver.
  - (* Rewind *)
    destruct s as [[[o sg pr th e cap od q f] h src d] cp ln sn pk].
    destruct Hinv as [Io It Is Ib Ic Ip Ibd]. unfold_homes.
    destruct cp; simpl; try done.
    + unfold BeforeFirst_request; simpl.
      destruct sg; [|by destruct Is|done].
      destruct od as [a|]; simpl; destruct pr; simpl; try done; intros [= <-];
        constructor; unfold_homes; finish Io; naive_solver.
    + unfold BeforeFirst_ack; simpl. destruct pr; simpl; [|done]. intros [= <-].
      destruct sg; [| |done].
      * constructor; unfold_homes; finish Io; naive_solver.
      * by destruct Is.
  - (* Pull *)
    destruct s as [[[o sg pr th e cap od q f] h src d] cp ln sn pk].
    destruct Hinv as [Io It Is Ib Ic Ip Ibd]. unfold_homes.
    destruct cp; simpl; try done.
    unfold Next; simpl. destruct sg; simpl; try done.
    destruct q as [|front q]; simpl.
    + destruct e; simpl; [|done]. intros [= <-].
      constructor; unfold_homes; finish Io.
    + unfold deref; simpl. destruct front as [a|]; simpl; [|done].
      destruct (cell_value h a) as [v|]; simpl; [|done]. intros [= <-].
      constructor; unfold_homes; finish Io.
  - (* Give *)
    destruct s as [[[o sg pr th e cap od q f] h src d] cp ln sn pk].
    destruct Hinv as [Io It Is Ib Ic Ip Ibd]. unfold_homes.
    destruct cp; simpl; try done.
    destruct (ln !! i) as [p|] eqn:Hp; simpl; [|done]. intros [= <-].
    pose proof (delete_Permutation ln i p Hp) as Hperm.
    assert (length ln = S (length (delete i ln))) as Hlen.
    { by rewrite Hperm at 1. }
    constructor; unfold_homes; finish Io.
    eapply owns_perm; [|exact Io]. rewrite Hperm at 1. solve_Permutation.
Qed.

Lemma run_inv c sched s s' : inv c s -> run P sched s = Ok s' -> inv c s'.
Proof.
  revert s. induction sched as [|m sched IH]; intros s Hinv; simpl.
  - by intros [= <-].
  - destruct (step P m s) as [s1| | |] eqn:Hstep; try done.
    + apply IH. by eapply step_inv.
    + by apply IH.
Qed.

(** A consumer that uses only [Next()] and [BeforeFirst()] holds no loan
    and never more than one cell. *)
Lemma held_nil w : held P w [] <= 1.
Proof. unfold held. destruct (out_data_ (iter P w)); simpl; lia. Qed.

Lemma step_adapter m s s' :
  m <> Pull -> loans P s = [] -> peak P s <= 1 ->
  step P m s = Ok s' -> loans P s' = [] /\ peak P s' <= 1.
Proof.
  intros Hm Hl Hp. destruct s as [w cp ln sn pk]. simpl in *. subst ln.
  destruct m; simpl; try done.
  - intros (w' & Hw & [= <-])%obind_Ok. simpl.
    pose proof (held_nil w'). split; [done|lia].
  - destruct cp; simpl; try done.
    + intros [= <-]. simpl. pose proof (held_nil (Next_recycle P w)). split; [done|lia].
    + intros ([more w'] & Hw & H)%obind_Ok. pose proof (held_nil w'). destruct more.
      * apply obind_Ok in H as (v & _ & [= <-]). simpl. split; [done|lia].
      * injection H as <-. simpl. split; [done|lia].
  - destruct cp; simpl; try done.
    + intros ([back w'] & Hw & H)%obind_Ok. pose proof (held_nil w').
      destruct back; injection H as <-; simpl; (split; [done|lia]).
    + intros (w' & Hw & [= <-])%obind_Ok. pose proof (held_nil w'). simpl.
      split; [done|lia].
  - destruct cp; simpl; done.
Qed.

Lemma run_adapter sched s s' :
  Pull ∉ sched -> loans P s = [] -> peak P s <= 1 ->
  run P sched s = Ok s' -> loans P s' = [] /\ peak P s' <= 1.
Proof.
  revert s. induction sched as [|m sched IH]; intros s Hm Hl Hp; simpl.
  - by intros [= <-].
  - apply not_elem_of_cons in Hm as [Hm Hsched].
    destruct (step P m s) as [s1| | |] eqn:Hstep; try done.
    + apply (step_adapter m s s1) in Hstep as [? ?]; [|done..]. by apply IH.
    + by apply IH.
Qed.

(** C6, as amended: the cells allocated are those of the free pool, of
    the ready queue, the one the producer thread works on and those in
    the hands of the consumer; their number never exceeds the capacity
    plus the greatest number of cells the consumer has held at once, and
    never exceeds the capacity plus one for a consumer that only calls
    [Next()] and [BeforeFirst()]. *)
Theorem allocated_bound (c : nat) (s0 : PState P) (sched : list Move) s :
  run P sched (boot P c s0) = Ok s ->
  allocated (cells P (world P s)) =
    length (free_cells_ (iter P (world P s))) + length (queue_ (iter P (world P s)))
    + length (in_flight (iter P (world P s))) + held P (world P s) (loans P s) /\
  allocated (cells P (world P s)) <= c + peak P s /\
  (Pull ∉ sched -> allocated (cells P (world P s)) <= c + 1).
Proof.
  intros Hrun. pose proof (run_inv c _ _ _ (inv_boot c s0) Hrun) as [Io _ _ _ _ _ Ibd].
  destruct Io as (_ & _ & Hcount).
  assert (allocated (cells P (world P s)) <= c + peak P s) as Hle.
  { rewrite Hcount. lia. }
  split; [|split; [done|]].
  - rewrite Hcount. unfold homes, held, in_hand. rewrite !length_app.
    destruct (out_data_ _); simpl; lia.
  - intros Hno. apply (run_adapter _ _ _ Hno) in Hrun as [_ Hp]; simpl; [lia|done|lia].
Qed.

End Ownership.

(** ** What the pipe delivers *)

Section Delivery.
Context {T : Type} (P : Producer T) (items : list T).
Implicit Types (s : System P) (w : World P) (t : ThreadedIter).

(** The records [E] that the pipe is going to deliver: those in the
    ready queue, the one just produced, and what the producer has left. *)
Definition supply w (E : list T) : Prop :=
  exists qv rest,
    Forall2 (holds (cells P w)) (queue_ (iter P w)) qv /\
    match producer_thread_ (iter P w) with
    | Some PcStart =>
        queue_ (iter P w) = [] /\ produce_end_ (iter P w) = false /\ E = items
    | Some PcWait | Some (PcCall _) =>
        E = qv ++ rest /\
        if produce_end_ (iter P w) then rest = [] else yields P (source P w) rest
    | Some (PcPush cell) =>
        if produce_end_ (iter P w) then rest = [] /\ E = qv
        else exists v, holds (cells P w) cell v /\ E = qv ++ v :: rest /\
                       yields P (source P w) rest
    | _ => False
    end.

(** The calls seen so far are those of a cursor over [items], and the
    pipe is going to deliver what the cursor has left.  While a rewind is
    being served only the first half is required; once it is served the
    pipe is going to deliver [items]. *)
Definition delivers s : Prop :=
  match cpc P s, producer_sig_ (iter P (world P s)) with
  | InBeforeFirst, kBeforeFirst => exists rest, cursor items (seen P s) rest
  | InBeforeFirst, _ =>
      supply (world P s) items /\ exists rest, cursor items (seen P s) rest
  | _, _ => exists E, supply (world P s) E /\ cursor items (seen P s) E
  end.

Lemma stocked_new (h : heap T) q qv v :
  Forall2 (holds h) q qv -> Forall2 (holds (h ++ [Some v])) q qv.
Proof. intros H. eapply Forall2_impl; [done|]. intros ??. apply holds_new_old. Qed.

Lemma stocked_write (h : heap T) q qv a v :
  Some a ∉ q -> Forall2 (holds h) q qv -> Forall2 (holds (heap_write a v h)) q qv.
Proof.
  intros Hnot H. induction H as [|c u q qv Hc H IH]; [constructor|].
  apply not_elem_of_cons in Hnot as [Hne Hnot].
  constructor; [|by apply IH]. apply holds_write_ne; [congruence|done].
Qed.

Lemma yields_next (src : PState P) rest :
  yields P src rest ->
  match p_next P src with
  | (Some v, s') => exists rest', rest = v :: rest' /\ yields P s' rest'
  | (None, _) => rest = []
  end.
Proof.
  destruct rest as [|u rest]; simpl.
  - destruct (p_next P src) as [[v|] s']; simpl; done.
  - destruct (p_next P src) as [[v|] s']; simpl; intros [[= ->] H]; eauto.
Qed.

Hypothesis Hdet : produces P items.

Lemma producer_fun_supply c s w' E :
  inv P c s -> supply (world P s) E ->
  producer_sig_ (iter P (world P s)) = kProduce ->
  producer_fun P (world P s) = Ok w' -> supply w' E.
Proof using Hdet.
  destruct s as [[[o sg pr th e cap od q f] h src d] cp ln sn pk].
  intros [Io It Is Ib Ic Ip Ibd] (qv & rest & Hq & Hs) Hsig.
  unfold producer_fun, supply in *. simpl in *. subst sg.
  destruct th as [[| |cell|cell|]|]; try done.
  - destruct (Hdet src) as (s' & -> & Hy). intros [= <-]. simpl.
    destruct Hs as (-> & -> & ->). exists [], items. split; [constructor|done].
  - destruct (producer_may_run _) eqn:Hrun; [|done]. simpl.
    destruct f; intros [= <-]; simpl; eauto.
  - unfold Producer_Next. destruct Hs as [-> Hy]. rewrite It in Hy.
    apply yields_next in Hy. destruct (p_next P src) as [[v|] s']; simpl.
    + destruct Hy as (rest' & -> & Hy).
      destruct cell as [a|]; simpl; intros [= <-]; simpl.
      * destruct Io as (Hnd & Hlive & _). unfold homes, in_flight in *; simpl in *.
        assert (Some a ∉ q) as Hnot.
        { intros Hin. apply NoDup_app in Hnd as (_ & _ & Hnd).
          apply NoDup_app in Hnd as (_ & Hnd & _). eapply Hnd; [done|].
          apply list_elem_of_here. }
        assert (a < length h) as Hlt.
        { rewrite Forall_forall in Hlive.
          destruct (Hlive (Some a)) as (u & a' & [= <-] & Hu).
          - rewrite !elem_of_app, !elem_of_cons. naive_solver.
          - by eapply cell_value_lt. }
        exists qv, rest'. split; [by apply stocked_write|].
        exists v. split; [|done]. exists a. split; [done|]. by apply cell_value_write.
      * exists qv, rest'. split; [by apply stocked_new|].
        exists v. split; [|done]. exists (length h). split; [done|]. apply cell_value_new.
    + rewrite orb_true_r. intros [= <-]. simpl. subst rest.
      exists qv, []. rewrite app_nil_r. done.
  - intros [= <-]. simpl. destruct e; simpl.
    + destruct Hs as [-> ->]. destruct cell; simpl; exists qv, []; rewrite app_nil_r; done.
    + destruct Hs as (v & Hv & -> & Hy). exists (qv ++ [v]), rest.
      split; [apply Forall2_app; [done|by constructor]|]. by rewrite <- app_assoc.
Qed.

Lemma supply_ext w w' E :
  cells P w' = cells P w -> source P w' = source P w ->
  queue_ (iter P w') = queue_ (iter P w) ->
  producer_thread_ (iter P w') = producer_thread_ (iter P w) ->
  produce_end_ (iter P w') = produce_end_ (iter P w) ->
  supply w E -> supply w' E.
Proof. unfold supply. by intros -> -> -> -> ->. Qed.

(** Taking the front of the ready queue. *)
Lemma supply_front w E front q :
  supply w E -> queue_ (iter P w) = front :: q ->
  exists v E', E = v :: E' /\ holds (cells P w) front v /\
    forall w', cells P w' = cells P w -> source P w' = source P w ->
      queue_ (iter P w') = q ->
      producer_thread_ (iter P w') = producer_thread_ (iter P w) ->
      produce_end_ (iter P w') = produce_end_ (iter P w) ->
      supply w' E'.
Proof.
  unfold supply. intros (qv & rest & Hst & Hs) Hq. rewrite Hq in *.
  apply Forall2_cons_inv_l in Hst as (v & qv' & Hv & Hst & ->).
  destruct (producer_thread_ (iter P w)) as [[| |cell|cell|]|] eqn:Hth; try done.
  - by destruct Hs as ([=] & _).
  - destruct Hs as [-> Hy]. exists v, (qv' ++ rest). do 2 (split; [done|]).
    intros w' -> -> -> -> ->. eauto.
  - destruct Hs as [-> Hy]. exists v, (qv' ++ rest). do 2 (split; [done|]).
    intros w' -> -> -> -> ->. eauto.
  - destruct (produce_end_ (iter P w)) eqn:He.
    + destruct Hs as [-> ->]. exists v, qv'. do 2 (split; [done|]).
      intros w' -> -> -> -> ->. exists qv', []. done.
    + destruct Hs as (u & Hu & -> & Hy). exists v, (qv' ++ u :: rest).
      do 2 (split; [done|]). intros w' -> -> -> -> ->. exists qv', rest. eauto.
Qed.

(** An empty ready queue after the end of the production. *)
Lemma supply_end w E :
  supply w E -> queue_ (iter P w) = [] -> produce_end_ (iter P w) = true -> E = [].
Proof.
  unfold supply. intros (qv & rest & Hst & Hs) Hq He. rewrite Hq, He in *.
  apply Forall2_nil_inv_l in Hst as ->.
  destruct (producer_thread_ (iter P w)) as [[| |cell|cell|]|]; try done.
  - by destruct Hs as (_ & [=] & _).
  - by destruct Hs as [-> ->].
  - by destruct Hs as [-> ->].
  - by destruct Hs as [_ ->].
Qed.

Lemma producer_fun_sig w w' :
  producer_fun P w = Ok w' -> producer_sig_ (iter P w) = kProduce ->
  producer_sig_ (iter P w') = kProduce.
Proof.
  destruct w as [[o sg pr th e cap od q f] h src d]. unfold producer_fun; simpl.
  intros H ->. repeat case_match; simplify_eq; done.
Qed.

(** Under the invariant the producer thread never fails. *)
Lemma producer_fun_safe c s :
  inv P c s ->
  producer_fun P (world P s) = Blocked \/ exists w', producer_fun P (world P s) = Ok w'.
Proof using Hdet.
  destruct s as [[[o sg pr th e cap od q f] h src d] cp ln sn pk].
  intros [Io It Is Ib Ic Ip Ibd]. unfold producer_fun. simpl in *.
  destruct th as [[| |cell|cell|]|]; try done; eauto.
  - destruct (Hdet src) as (s' & -> & _). eauto.
  - destruct (producer_may_run _); [|eauto]. destruct sg; [| |done].
    + destruct f; eauto.
    + destruct (Hdet src) as (s' & -> & _). eauto.
  - unfold Producer_Next. destruct (p_next P src) as [[v|] s']; simpl.
    + destruct cell; simpl; eauto.
    + rewrite orb_true_r. eauto.
Qed.

Lemma producer_fun_delivers c s w' :
  inv P c s -> delivers s -> producer_fun P (world P s) = Ok w' ->
  delivers (settle P w' (cpc P s) (loans P s) (seen P s) (peak P s)).
Proof using Hdet.
  intros Hinv Hdel Hstep.
  destruct (producer_sig_ (iter P (world P s))) eqn:Hsig.
  - (* kProduce *)
    pose proof (producer_fun_sig _ _ Hstep Hsig) as Hsig'.
    unfold delivers in *; simpl. rewrite Hsig in Hdel. rewrite Hsig'.
    destruct (cpc P s).
    + destruct Hdel as (E & Hs & Hc). eauto using producer_fun_supply.
    + destruct Hdel as (E & Hs & Hc). eauto using producer_fun_supply.
    + destruct Hdel as (Hs & Hc). eauto using producer_fun_supply.
  - (* kBeforeFirst *)
    destruct s as [[[o sg pr th e cap od q f] h src d] cp ln sn pk].
    destruct Hinv as [Io It Is Ib Ic Ip Ibd]. simpl in *. subst sg.
    destruct Is as [-> ->]. unfold delivers in *; simpl in *.
    unfold producer_fun in Hstep; simpl in Hstep.
    destruct th as [[| |cell|cell|]|]; try done.
    + destruct (p_before_first P src); [|done]. by injection Hstep as <-.
    + destruct (Hdet src) as (s' & Hs' & Hy). rewrite Hs' in Hstep.
      injection Hstep as <-. simpl. split; [|done].
      exists [], items. simpl. split; [constructor|done].
    + destruct (Producer_Next P cell src h) as [[[more cell'] s'] h'].
      destruct (orb _ _); [|done]. by injection Hstep as <-.
    + injection Hstep as <-. by destruct e, cell.
  - (* kDestroy *)
    destruct Hinv as [_ _ Is _ _ _ _]. by rewrite Hsig in Is.
Qed.

(** Under the invariant a section either has to wait or runs without
    failure and keeps what the pipe delivers. *)
Lemma step_delivers c m s :
  inv P c s -> delivers s ->
  step P m s = Blocked \/ exists s', step P m s = Ok s' /\ delivers s'.
Proof using Hdet.
  intros Hinv Hdel. destruct m; simpl.
  - (* Produce *)
    destruct (producer_fun_safe c s Hinv) as [->|[w' Hw]]; [by left|right].
    rewrite Hw; simpl. eexists; split; [done|]. by eapply producer_fun_delivers.
  - (* Advance *)
    destruct s as [[[o sg pr th e cap od q f] h src d] cp ln sn pk].
    destruct Hinv as [_ _ Is Ib _ _ _]. unfold delivers in *. simpl in *.
    destruct cp; simpl; [| |by left].
    + right. eexists; split; [done|]. simpl.
      destruct sg; [|by destruct Is|done].
      destruct Hdel as (E & Hs & Hc). exists E. split; [|done].
      revert Hs. apply supply_ext; unfold Next_recycle; simpl; by destruct od.
    + rewrite (Ib ltac:(done)) in *. unfold Next_pull, Next; simpl.
      destruct sg; [|by destruct Is|done]. simpl. destruct Hdel as (E & Hs & Hc).
      destruct q as [|front q]; simpl.
      * destruct e; simpl; [right|by left]. eexists; split; [done|]. simpl.
        pose proof (supply_end _ _ Hs eq_refl eq_refl) as ->.
        exists []. split; [|by constructor]. revert Hs. by apply supply_ext.
      * right. destruct (supply_front _ _ _ _ Hs eq_refl)
          as (v & E' & -> & (a & -> & Hv) & Hs').
        unfold Value; simpl in *. rewrite Hv; simpl.
        eexists; split; [done|]. simpl. exists E'. split; [by apply Hs'|by constructor].
  - (* Rewind *)
    destruct s as [[[o sg pr th e cap od q f] h src d] cp ln sn pk].
    destruct Hinv as [_ _ Is Ib _ _ _]. unfold delivers in *. simpl in *.
    destruct cp; simpl; [|by left|].
    + right. unfold BeforeFirst_request; simpl.
      destruct sg; [|by destruct Is|done].
      destruct pr; [by specialize (Is eq_refl)|].
      destruct Hdel as (E & Hs & Hc).
      destruct od; simpl; eexists; (split; [done|]); simpl; eauto.
    + unfold BeforeFirst_ack; simpl. destruct pr; simpl; [right|by left].
      destruct sg; [|by destruct Is|done]. destruct Hdel as (Hs & rest & Hc).
      eexists; split; [done|]. simpl. exists items.
      split; [|by econstructor]. revert Hs. by apply supply_ext.
  - (* Pull *)
    destruct s as [[[o sg pr th e cap od q f] h src d] cp ln sn pk].
    destruct Hinv as [_ _ Is Ib _ _ _]. unfold delivers in *. simpl in *.
    destruct cp; simpl; [|by left..].
    unfold Next; simpl.
    destruct sg; [|by destruct Is|done]. simpl. destruct Hdel as (E & Hs & Hc).
    destruct q as [|front q]; simpl.
    + destruct e; simpl; [right|by left]. eexists; split; [done|]. simpl.
      pose proof (supply_end _ _ Hs eq_refl eq_refl) as ->.
      exists []. split; [done|by constructor].
    + right. destruct (supply_front _ _ _ _ Hs eq_refl)
        as (v & E' & -> & (a & -> & Hv) & Hs').
      unfold deref; simpl in *. rewrite Hv; simpl.
      eexists; split; [done|]. simpl. exists E'. split; [by apply Hs'|by constructor].
  - (* Give *)
    destruct s as [[[o sg pr th e cap od q f] h src d] cp ln sn pk].
    destruct Hinv as [_ _ Is Ib _ _ _]. unfold delivers in *. simpl in *.
    destruct cp; simpl; [|by left..].
    destruct (ln !! i) as [p|]; simpl; [right|by left].
    eexists; split; [done|]. simpl.
    destruct sg; [|by destruct Is|done].
    destruct Hdel as (E & Hs & Hc). exists E. split; [|done].
    revert Hs. by apply supply_ext.
Qed.

(** Every schedule runs without failure, and keeps the invariant and
    what the pipe delivers. *)
Lemma run_delivers c sched s :
  inv P c s -> delivers s ->
  exists s', run P sched s = Ok s' /\ inv P c s' /\ delivers s'.
Proof using Hdet.
  revert s. induction sched as [|m sched IH]; intros s Hinv Hdel; simpl.
  - eauto.
  - destruct (step_delivers c m s Hinv Hdel) as [->|(s1 & Hs1 & Hdel1)].
    + by apply IH.
    + rewrite Hs1. apply IH; [|done]. by eapply step_inv.
Qed.

Lemma delivers_boot c (p0 : PState P) : delivers (boot P c p0).
Proof.
  exists items. split; [|constructor]. exists [], items. simpl. split; [constructor|done].
Qed.

Lemma delivers_cursor s : delivers s -> exists rest, cursor items (seen P s) rest.
Proof.
  unfold delivers. destruct (cpc P s), (producer_sig_ (iter P (world P s)));
    intros H; try (destruct H as (E & _ & H)); try (destruct H as (_ & H)); eauto.
Qed.

(** *** The producer thread gets there

    Left to run, the producer thread makes a record ready, or reports
    the end, within four sections; it serves a rewind within three. *)

(** How many sections the producer thread is away from a state where
    [Next] does not have to wait. *)
Definition to_ready t : nat :=
  if negb (length (queue_ t) =? 0) || produce_end_ t then 0
  else match producer_thread_ t with
       | Some PcStart => 4
       | Some PcWait => 3
       | Some (PcCall _) => 2
       | _ => 1
       end.

(** How many sections the producer thread is away from the
    acknowledgement of a rewind. *)
Definition to_served t : nat :=
  if producer_sig_processed_ t then 0
  else match producer_thread_ t with
       | Some (PcCall _) => 3
       | Some PcWait => 1
       | _ => 2
       end.

Lemma produce_frame s s' :
  step P Produce s = Ok s' ->
  cpc P s' = cpc P s /\ seen P s' = seen P s /\ loans P s' = loans P s.
Proof. simpl. by intros (w' & _ & [= <-])%obind_Ok. Qed.

Lemma run_cons_Ok m sched s s' :
  run P (m :: sched) s = Ok s' ->
  exists s1, run P [m] s = Ok s1 /\ run P sched s1 = Ok s'.
Proof. simpl. destruct (step P m s); try done; eauto. Qed.

Lemma run_one m s s1 :
  run P [m] s = Ok s1 -> step P m s = Ok s1 \/ (step P m s = Blocked /\ s1 = s).
Proof. simpl. destruct (step P m s); try done; intros [= <-]; eauto. Qed.

Lemma run_single m s s1 : step P m s = Ok s1 -> run P [m] s = Ok s1.
Proof. simpl. by intros ->. Qed.

Lemma run_app sched1 sched2 s s1 :
  run P sched1 s = Ok s1 -> run P (sched1 ++ sched2) s = run P sched2 s1.
Proof.
  revert s. induction sched1 as [|m sched1 IH]; intros s; simpl.
  - by intros [= ->].
  - destruct (step P m s); try done; apply IH.
Qed.

Lemma produce_to_ready c s s' :
  inv P c s -> 0 < c -> producer_sig_ (iter P (world P s)) = kProduce ->
  run P [Produce] s = Ok s' ->
  to_ready (iter P (world P s')) <= pred (to_ready (iter P (world P s))).
Proof.
  destruct s as [[[o sg pr th e cap od q f] h src d] cp ln sn pk].
  intros [Io It Is Ib Ic Ip Ibd] Hc Hsig. simpl in *. subst sg cap.
  unfold producer_fun, to_ready; simpl.
  destruct th as [[| |cell|cell|]|]; try done; simpl.
  - destruct (p_before_first P src); [|done]. intros [= <-]. simpl.
    destruct (negb _ || e); simpl; lia.
  - unfold producer_may_run; simpl.
    destruct q as [|front q]; simpl.
    + destruct e; simpl; [by intros [= <-]|].
      destruct c as [|c]; [lia|]. simpl. destruct f; intros [= <-]; simpl; lia.
    + destruct (negb e && _); [destruct f|]; intros [= <-]; simpl; lia.
  - subst e. unfold Producer_Next. destruct (p_next P src) as [[v|] p']; simpl.
    + destruct cell; simpl; intros [= <-]; simpl; rewrite orb_false_r;
        destruct (negb _); simpl; lia.
    + rewrite !orb_true_r. intros [= <-]. simpl. rewrite orb_true_r. lia.
  - intros [= <-]. destruct e; simpl.
    + destruct cell; simpl; rewrite orb_true_r; lia.
    + rewrite length_app. simpl. replace (length q + 1 =? 0) with false; [simpl; lia|].
      symmetry. apply Nat.eqb_neq. lia.
Qed.

Lemma produce_to_served c s s' :
  inv P c s ->
  producer_sig_ (iter P (world P s)) = kBeforeFirst \/
    producer_sig_processed_ (iter P (world P s)) = true ->
  run P [Produce] s = Ok s' ->
  (producer_sig_ (iter P (world P s')) = kBeforeFirst \/
    producer_sig_processed_ (iter P (world P s')) = true) /\
  to_served (iter P (world P s')) <= pred (to_served (iter P (world P s))).
Proof.
  destruct s as [[[o sg pr th e cap od q f] h src d] cp ln sn pk].
  intros [Io It Is Ib Ic Ip Ibd] Hsig. simpl in *.
  unfold producer_fun, to_served; simpl.
  destruct th as [[| |cell|cell|]|]; try done; simpl.
  - destruct (p_before_first P src); [|done]. intros [= <-]. simpl.
    split; [done|]. destruct pr; lia.
  - unfold producer_may_run; simpl. destruct sg; simpl; [| |done].
    + destruct Hsig as [Hk| ->]; [done|]. destruct (negb e && _); [destruct f|];
        intros [= <-]; simpl; (split; [by right|lia]).
    + destruct (p_before_first P src); [|done]. intros [= <-]. simpl.
      split; [by right|lia].
  - destruct (Producer_Next P cell src h) as [[[more cell'] p'] h'].
    destruct (orb _ _); [|done]. intros [= <-]. simpl. split; [done|]. destruct pr; lia.
  - intros [= <-]. destruct e, cell; simpl; (split; [done|]); destruct pr; lia.
Qed.

Lemma run_produce_frame n s s' :
  run P (replicate n Produce) s = Ok s' ->
  cpc P s' = cpc P s /\ seen P s' = seen P s /\ loans P s' = loans P s.
Proof.
  revert s. induction n as [|n IH]; intros s.
  - by intros [= <-].
  - intros (s1 & H1 & (-> & -> & ->)%IH)%run_cons_Ok.
    apply run_one in H1 as [H1|[_ ->]]; [by apply produce_frame|done].
Qed.

Lemma to_ready_0 t :
  to_ready t = 0 -> queue_ t <> [] \/ produce_end_ t = true.
Proof.
  unfold to_ready. destruct (queue_ t); simpl; [|by left].
  destruct (produce_end_ t); [by right|].
  by destruct (producer_thread_ t) as [[]|].
Qed.

Lemma produce_n c n s E :
  inv P c s -> 0 < c -> producer_sig_ (iter P (world P s)) = kProduce ->
  supply (world P s) E ->
  exists s', run P (replicate n Produce) s = Ok s' /\ inv P c s' /\
    producer_sig_ (iter P (world P s')) = kProduce /\ supply (world P s') E /\
    to_ready (iter P (world P s')) <= to_ready (iter P (world P s)) - n.
Proof using Hdet.
  revert s. induction n as [|n IH]; intros s Hinv Hc Hsig Hs.
  - exists s. split_and!; try done. lia.
  - assert (exists s1, run P [Produce] s = Ok s1 /\ inv P c s1 /\
              producer_sig_ (iter P (world P s1)) = kProduce /\ supply (world P s1) E)
      as (s1 & H1 & Hinv1 & Hsig1 & Hs1).
    { simpl. destruct (producer_fun_safe c s Hinv) as [->|[w' Hw]]; simpl; [eauto|].
      rewrite Hw; simpl. eexists; split; [done|]. split; [by apply producer_fun_inv|].
      simpl. split; [by eapply producer_fun_sig|by eapply producer_fun_supply]. }
    pose proof (produce_to_ready c s s1 Hinv Hc Hsig H1) as Hd.
    destruct (IH s1 Hinv1 Hc Hsig1 Hs1) as (s' & H' & Hinv' & Hsig' & Hs' & Hd').
    exists s'. split; [|split_and!; try done; lia].
    rewrite <- H'. exact (run_app [Produce] (replicate n Produce) s s1 H1).
Qed.

Lemma serve_n c n s :
  inv P c s -> delivers s ->
  producer_sig_ (iter P (world P s)) = kBeforeFirst \/
    producer_sig_processed_ (iter P (world P s)) = true ->
  exists s', run P (replicate n Produce) s = Ok s' /\ inv P c s' /\ delivers s' /\
    to_served (iter P (world P s')) <= to_served (iter P (world P s)) - n.
Proof using Hdet.
  revert s. induction n as [|n IH]; intros s Hinv Hdel Hsig.
  - exists s. split_and!; try done. lia.
  - destruct (run_delivers c [Produce] s Hinv Hdel) as (s1 & H1 & Hinv1 & Hdel1).
    destruct (produce_to_served c s s1 Hinv Hsig H1) as [Hsig1 Hd].
    destruct (IH s1 Hinv1 Hdel1 Hsig1) as (s' & H' & Hinv' & Hdel' & Hd').
    exists s'. split; [|split_and!; try done; lia].
    rewrite <- H'. exact (run_app [Produce] (replicate n Produce) s s1 H1).
Qed.

(** What [n] calls of [Next()] show of a pipe that is going to deliver
    [E]. *)
Definition shown (n : nat) (E : list T) : list Obs :=
  (Got <$> take n E) ++ replicate (n - length E) End.

(** One call of [Next()] after four sections of the producer thread. *)
Lemma pull_round c s E :
  inv P c s -> 0 < c -> cpc P s = Idle ->
  producer_sig_ (iter P (world P s)) = kProduce -> supply (world P s) E ->
  exists s', run P (pulls 1) s = Ok s' /\ inv P c s' /\ cpc P s' = Idle /\
    producer_sig_ (iter P (world P s')) = kProduce /\
    supply (world P s') (tail E) /\
    seen P s' = seen P s ++ shown 1 E /\ loans P s' = loans P s.
Proof using Hdet.
  intros Hinv Hc Hidle Hsig Hs.
  destruct (produce_n c 4 s E Hinv Hc Hsig Hs) as (s4 & H4 & Hinv4 & Hsig4 & Hs4 & Hd).
  destruct (run_produce_frame _ _ _ H4) as (Hcpc & Hseen & Hloans).
  change (pulls 1) with (replicate 4 Produce ++ [Advance; Advance]).
  rewrite (run_app _ _ _ _ H4). rewrite <- Hseen, <- Hloans. rewrite Hidle in Hcpc.
  assert (to_ready (iter P (world P s4)) = 0) as Hready.
  { assert (to_ready (iter P (world P s)) <= 4); [|lia].
    unfold to_ready. repeat case_match; lia. }
  apply to_ready_0 in Hready. clear H4 Hd Hseen Hloans Hinv Hs Hsig.
  (* the recycling *)
  set (s5 := settle P (Next_recycle P (world P s4)) InNext (loans P s4) (seen P s4)
               (peak P s4)).
  assert (step P Advance s4 = Ok s5) as H5 by (simpl; by rewrite Hcpc).
  assert (inv P c s5) as Hinv5 by (by eapply step_inv).
  assert (supply (world P s5) E) as Hs5.
  { revert Hs4. apply supply_ext; simpl; unfold Next_recycle;
      by destruct (out_data_ (iter P (world P s4))). }
  assert (queue_ (iter P (world P s5)) = queue_ (iter P (world P s4)) /\
          produce_end_ (iter P (world P s5)) = produce_end_ (iter P (world P s4)) /\
          producer_sig_ (iter P (world P s5)) = kProduce) as (Hq5 & He5 & Hsig5).
  { simpl; unfold Next_recycle; by destruct (out_data_ (iter P (world P s4))). }
  rewrite <- Hq5, <- He5 in Hready.
  assert (run P [Advance; Advance] s4 = run P [Advance] s5) as -> by (simpl; by rewrite Hcpc).
  assert (seen P s5 = seen P s4 /\ loans P s5 = loans P s4 /\ cpc P s5 = InNext)
    as (<- & <- & Hcpc5) by done.
  clearbody s5. clear H5 Hq5 He5 Hs4 Hinv4 Hsig4 Hcpc s4.
  (* the pull *)
  pose proof (inv_busy P c s5 Hinv5) as Hod. rewrite Hcpc5 in Hod.
  specialize (Hod ltac:(done)).
  destruct (step P Advance s5) as [s6| |flt|] eqn:H6.
  - assert (inv P c s6) as Hinv6 by (by eapply step_inv).
    exists s6. split; [by apply run_single|]. split; [done|].
    destruct s5 as [[[o sg pr th e cap od q f] h src d] cp ln sn pk].
    simpl in *. subst cp sg od. unfold Next_pull, Next in H6. simpl in H6.
    destruct q as [|front q]; simpl in H6.
    + destruct e; simpl in H6; [|done]. injection H6 as <-. simpl.
      pose proof (supply_end _ _ Hs5 eq_refl eq_refl) as ->.
      split_and!; try done; revert Hs5; by apply supply_ext.
    + destruct (supply_front _ _ _ _ Hs5 eq_refl) as (v & E' & -> & (a & -> & Hv) & Hs').
      unfold Value in H6; simpl in *. rewrite Hv in H6; simpl in H6.
      injection H6 as <-. simpl. split_and!; try done; by apply Hs'.
  - exfalso. destruct s5 as [[[o sg pr th e cap od q f] h src d] cp ln sn pk].
    simpl in *. subst cp sg od. unfold Next_pull, Next in H6. simpl in H6.
    destruct q as [|front q]; simpl in H6; [by destruct e|].
    destruct (supply_front _ _ _ _ Hs5 eq_refl) as (v & E' & -> & (a & -> & Hv) & Hs').
    unfold Value in H6; simpl in *. by rewrite Hv in H6.
  - exfalso. destruct s5 as [[[o sg pr th e cap od q f] h src d] cp ln sn pk].
    simpl in *. subst cp sg od. unfold Next_pull, Next in H6. simpl in H6.
    destruct q as [|front q]; simpl in H6; [by destruct e|].
    destruct (supply_front _ _ _ _ Hs5 eq_refl) as (v & E' & -> & (a & -> & Hv) & Hs').
    unfold Value in H6; simpl in *. by rewrite Hv in H6.
  - exfalso. destruct s5 as [[[o sg pr th e cap od q f] h src d] cp ln sn pk].
    simpl in *. subst cp sg od. unfold Next_pull, Next in H6. simpl in H6.
    destruct q as [|front q]; simpl in H6.
    + destruct e; [done|]. by destruct Hready.
    + destruct (supply_front _ _ _ _ Hs5 eq_refl) as (v & E' & -> & (a & -> & Hv) & Hs').
      unfold Value in H6; simpl in *. by rewrite Hv in H6.
Qed.

Lemma shown_S n v E : shown (S n) (v :: E) = Got v :: shown n E.
Proof. reflexivity. Qed.

Lemma shown_S_nil n : shown (S n) [] = End :: shown n [].
Proof. unfold shown. rewrite !take_nil. simpl. by rewrite Nat.sub_0_r. Qed.

Lemma pulls_S n : pulls (S n) = pulls 1 ++ pulls n.
Proof. reflexivity. Qed.

(** [n] calls of [Next()], each after four sections of the producer
    thread. *)
Lemma pulls_run c n s E :
  inv P c s -> 0 < c -> cpc P s = Idle ->
  producer_sig_ (iter P (world P s)) = kProduce -> supply (world P s) E ->
  exists s', run P (pulls n) s = Ok s' /\ inv P c s' /\ cpc P s' = Idle /\
    producer_sig_ (iter P (world P s')) = kProduce /\
    supply (world P s') (drop n E) /\
    seen P s' = seen P s ++ shown n E /\ loans P s' = loans P s.
Proof using Hdet.
  revert s E. induction n as [|n IH]; intros s E Hinv Hc Hidle Hsig Hs.
  - exists s. unfold shown. simpl. rewrite app_nil_r. by split_and!.
  - destruct (pull_round c s E Hinv Hc Hidle Hsig Hs)
      as (s1 & H1 & Hinv1 & Hidle1 & Hsig1 & Hs1 & Hseen1 & Hloans1).
    destruct (IH s1 (tail E) Hinv1 Hc Hidle1 Hsig1 Hs1)
      as (s' & H' & Hinv' & Hidle' & Hsig' & Hs' & Hseen' & Hloans').
    exists s'. rewrite pulls_S, (run_app _ _ _ _ H1). split_and!; try done.
    + destruct E; simpl in *; [by rewrite drop_nil in Hs'|done].
    + rewrite Hseen', Hseen1, <- app_assoc. f_equal.
      destruct E as [|v E]; simpl; [by rewrite shown_S_nil|done].
    + congruence.
Qed.

(** One call of [BeforeFirst()], with four sections of the producer
    thread while it waits. *)
Lemma rewind_round c s :
  inv P c s -> delivers s -> cpc P s = Idle ->
  exists s', run P rewinds s = Ok s' /\ inv P c s' /\ cpc P s' = Idle /\
    producer_sig_ (iter P (world P s')) = kProduce /\
    supply (world P s') items /\
    seen P s' = seen P s ++ [Rewound] /\ loans P s' = loans P s.
Proof using Hdet.
  intros Hinv Hdel Hidle.
  (* the request *)
  assert (exists s1, step P Rewind s = Ok s1 /\ cpc P s1 = InBeforeFirst /\
            producer_sig_ (iter P (world P s1)) = kBeforeFirst /\
            seen P s1 = seen P s /\ loans P s1 = loans P s)
    as (s1 & H1 & Hcpc1 & Hsig1 & Hseen1 & Hloans1).
  { destruct s as [[[o sg pr th e cap od q f] h src d] cp ln sn pk].
    destruct Hinv as [_ _ Is _ _ _ _]. simpl in *. subst cp.
    unfold BeforeFirst_request; simpl.
    destruct sg; [|by destruct Is|done].
    destruct pr; [by specialize (Is eq_refl)|].
    destruct od; simpl; eexists; split_and!; done. }
  assert (inv P c s1) as Hinv1 by (by eapply step_inv).
  assert (delivers s1) as Hdel1.
  { destruct (step_delivers c Rewind s Hinv Hdel) as [Hb|(s1' & H1' & Hd)]; congruence. }
  change rewinds with ([Rewind] ++ replicate 4 Produce ++ [Rewind]).
  rewrite (run_app _ _ _ _ (run_single _ _ _ H1)).
  (* the producer thread serves it *)
  destruct (serve_n c 4 s1 Hinv1 Hdel1 (or_introl Hsig1))
    as (s4 & H4 & Hinv4 & Hdel4 & Hd).
  destruct (run_produce_frame _ _ _ H4) as (Hcpc4 & Hseen4 & Hloans4).
  rewrite (run_app _ _ _ _ H4).
  assert (producer_sig_processed_ (iter P (world P s4)) = true) as Hpr.
  { assert (to_served (iter P (world P s1)) <= 3) as Hle
      by (unfold to_served; repeat case_match; lia).
    assert (to_served (iter P (world P s4)) = 0) as H0 by lia.
    unfold to_served in H0. destruct (producer_sig_processed_ _); [done|].
    repeat case_match; lia. }
  (* the acknowledgement is taken *)
  rewrite Hcpc1 in Hcpc4. rewrite <- Hseen1, <- Hloans1, <- Hseen4, <- Hloans4.
  clear H1 H4 Hd Hinv Hdel Hinv1 Hdel1 Hsig1 Hseen1 Hloans1 Hseen4 Hloans4.
  destruct (step P Rewind s4) as [s5| |flt|] eqn:H5.
  - assert (inv P c s5) as Hinv5 by (by eapply step_inv).
    exists s5. split; [by apply run_single|]. split; [done|].
    destruct s4 as [[[o sg pr th e cap od q f] h src d] cp ln sn pk].
    destruct Hinv4 as [_ _ Is _ _ _ _]. unfold delivers in Hdel4.
    simpl in *. subst cp pr. unfold BeforeFirst_ack in H5; simpl in H5.
    injection H5 as <-. simpl.
    destruct sg; [|by destruct Is|done]. destruct Hdel4 as [Hs _].
    split_and!; try done; revert Hs; by apply supply_ext.
  - destruct s4 as [w4 cp ln sn pk]. simpl in *. subst cp.
    unfold BeforeFirst_ack in H5. by rewrite Hpr in H5.
  - destruct s4 as [w4 cp ln sn pk]. simpl in *. subst cp.
    unfold BeforeFirst_ack in H5. by rewrite Hpr in H5.
  - destruct s4 as [w4 cp ln sn pk]. simpl in *. subst cp.
    unfold BeforeFirst_ack in H5. by rewrite Hpr in H5.
Qed.

(** *** What a cursor shows *)

Lemma snoc_eq_middle {A} (l pre post : list A) (x y : A) :
  l ++ [x] = pre ++ y :: post ->
  (post = [] /\ l = pre /\ x = y) \/
  (exists post', post = post' ++ [x] /\ l = pre ++ y :: post').
Proof.
  destruct post as [|z post _] using rev_ind.
  - intros [-> ->]%app_inj_tail. by left.
  - rewrite app_comm_cons, app_assoc. intros [-> ->]%app_inj_tail. right. eauto.
Qed.

(** The calls seen determine what the cursor has left. *)
Lemma cursor_fun sn rest1 rest2 :
  cursor items sn rest1 -> cursor items sn rest2 -> rest1 = rest2.
Proof.
  intros H1. revert rest2.
  induction H1 as [|sn v rest Hc IH|sn Hc IH|sn rest Hc IH]; intros rest2 H2.
  - inversion H2 as [|? ? ? ? He|? ? He|? ? ? He]; [done|..];
      by apply app_nil in He as [_ [=]].
  - inversion H2 as [He|? ? ? H He|? H He|? ? H He].
    + symmetry in He. by apply app_nil in He as [_ [=]].
    + apply app_inj_tail in He as [-> [= ->]]. by injection (IH _ H).
    + by apply app_inj_tail in He as [_ [=]].
    + by apply app_inj_tail in He as [_ [=]].
  - inversion H2 as [He|? ? ? H He|? H He|? ? H He].
    + symmetry in He. by apply app_nil in He as [_ [=]].
    + by apply app_inj_tail in He as [_ [=]].
    + done.
    + by apply app_inj_tail in He as [_ [=]].
  - inversion H2 as [He|? ? ? H He|? H He|? ? H He].
    + symmetry in He. by apply app_nil in He as [_ [=]].
    + by apply app_inj_tail in He as [_ [=]].
    + by apply app_inj_tail in He as [_ [=]].
    + done.
Qed.

(** Without a rewind the calls show a prefix of [items] and then the
    end. *)
Lemma cursor_no_rewind seen rest :
  cursor items seen rest -> Rewound ∉ seen ->
  exists k e, seen = (Got <$> take k items) ++ replicate e End /\
    k <= length items /\ rest = drop k items /\ (0 < e -> k = length items).
Proof.
  induction 1 as [|seen v rest Hc IH|seen Hc IH|seen rest Hc IH]; intros Hno.
  - exists 0, 0. split_and!; try done; lia.
  - rewrite not_elem_of_app in Hno. destruct Hno as [Hno _].
    destruct (IH Hno) as (k & e & -> & Hk & Hrest & He).
    assert (k < length items) as Hlt.
    { destruct (decide (k < length items)); [done|].
      rewrite drop_ge in Hrest by lia. done. }
    destruct e as [|e]; [|rewrite He in Hlt by lia; lia].
    exists (S k), 0. simpl. rewrite app_nil_r.
    assert (items !! k = Some v) as Hv.
    { rewrite <- (take_drop k items) at 1. rewrite <- Hrest.
      rewrite lookup_app_r by (rewrite length_take; lia).
      rewrite length_take. by replace (k - k `min` length items) with 0 by lia. }
    split_and!; try lia.
    + by rewrite (take_S_r _ _ _ Hv), fmap_app, app_nil_r.
    + rewrite (drop_S _ _ _ Hv) in Hrest. by injection Hrest.
  - rewrite not_elem_of_app in Hno. destruct Hno as [Hno _].
    destruct (IH Hno) as (k & e & -> & Hk & Hrest & He).
    exists k, (S e). split_and!; try done.
    + rewrite <- app_assoc. f_equal. by rewrite replicate_S_end.
    + intros _. destruct (decide (k < length items)) as [Hlt|]; [|lia].
      apply (f_equal length) in Hrest. rewrite length_drop in Hrest. simpl in Hrest. lia.
  - exfalso. apply Hno. rewrite elem_of_app, list_elem_of_singleton. by right.
Qed.

(** After a rewind the cursor starts over. *)
Lemma cursor_after_rewind pre post rest :
  cursor items (pre ++ Rewound :: post) rest -> Rewound ∉ post ->
  cursor items post rest.
Proof.
  intros Hc. remember (pre ++ Rewound :: post) as seen eqn:Hseen.
  revert post Hseen.
  induction Hc as [|seen v rest Hc IH|seen Hc IH|seen rest Hc IH]; intros post Hseen Hno.
  - by destruct pre.
  - apply snoc_eq_middle in Hseen as [(_ & _ & [=])|(post' & -> & ->)].
    rewrite not_elem_of_app in Hno. constructor. apply IH; tauto.
  - apply snoc_eq_middle in Hseen as [(_ & _ & [=])|(post' & -> & ->)].
    rewrite not_elem_of_app in Hno. constructor. apply IH; tauto.
  - apply snoc_eq_middle in Hseen as [(-> & _ & _)|(post' & -> & ->)]; [constructor|].
    exfalso. apply Hno. rewrite elem_of_app, list_elem_of_singleton. by right.
Qed.

Lemma step_no_rewind m s s' :
  m <> Rewind -> Rewound ∉ seen P s -> step P m s = Ok s' -> Rewound ∉ seen P s'.
Proof.
  intros Hm Hno. destruct s as [w cp ln sn pk]. simpl in *.
  destruct m; simpl; try done.
  - by intros (w' & _ & [= <-])%obind_Ok.
  - destruct cp; simpl; try done; [by intros [= <-]|].
    intros ([more w'] & _ & H)%obind_Ok. destruct more.
    + apply obind_Ok in H as (v & _ & [= <-]). simpl.
      rewrite not_elem_of_app, list_elem_of_singleton. split; [done|congruence].
    + injection H as <-. simpl.
      rewrite not_elem_of_app, list_elem_of_singleton. split; [done|congruence].
  - destruct cp; simpl; try done.
    intros ([[more p] w'] & _ & H)%obind_Ok. destruct more.
    + apply obind_Ok in H as (v & _ & [= <-]). simpl.
      rewrite not_elem_of_app, list_elem_of_singleton. split; [done|congruence].
    + injection H as <-. simpl.
      rewrite not_elem_of_app, list_elem_of_singleton. split; [done|congruence].
  - destruct cp; simpl; try done. destruct (ln !! i); [|done]. by intros [= <-].
Qed.

Lemma run_no_rewind sched s s' :
  Rewind ∉ sched -> Rewound ∉ seen P s -> run P sched s = Ok s' -> Rewound ∉ seen P s'.
Proof.
  revert s. induction sched as [|m sched IH]; intros s Hm Hno; simpl.
  - by intros [= <-].
  - apply not_elem_of_cons in Hm as [Hm Hsched].
    destruct (step P m s) as [s1| | |] eqn:Hstep; try done.
    + apply IH; [done|]. by eapply step_no_rewind.
    + by apply IH.
Qed.

(** [Next] reports the end only once the production has ended and the
    ready queue is empty. *)
Lemma Next_false_only_at_end c s out r w' :
  inv P c s -> Next P out (world P s) = Ok (false, r, w') ->
  produce_end_ (iter P (world P s)) = true /\ queue_ (iter P (world P s)) = [].
Proof.
  intros [_ _ Is _ _ _ _]. unfold Next.
  destruct (producer_sig_ (iter P (world P s))); [|done..].
  destruct (queue_ (iter P (world P s))); [|done].
  by destruct (produce_end_ (iter P (world P s))).
Qed.

(** C1: over a deterministic producer of [items], one whose
    [BeforeFirst] succeeds from every state and is followed by [items]
    and then the end, whatever the interleaving of the producer thread
    with a consumer that only pulls, the calls show a prefix of [items],
    in order, and then the end; the end is shown only after all of
    [items]; [Next] returns false only with [produce_end_] set and the
    ready queue empty; and in a pipe of positive capacity, with the
    consumer between two calls, the next [n] calls return, each within
    four sections of the producer thread, and show what comes next. *)
Theorem Next_fifo (c : nat) (p0 : PState P) (sched : list Move) :
  Rewind ∉ sched ->
  exists s k e,
    run P sched (boot P c p0) = Ok s /\
    seen P s = (Got <$> take k items) ++ replicate e End /\
    k <= length items /\ (0 < e -> k = length items) /\
    (forall out r w', Next P out (world P s) = Ok (false, r, w') ->
       produce_end_ (iter P (world P s)) = true /\ queue_ (iter P (world P s)) = []) /\
    (0 < c -> cpc P s = Idle -> forall n,
       exists s', run P (pulls n) s = Ok s' /\
         seen P s' = seen P s ++ shown n (drop k items)).
Proof using Hdet.
  intros Hno.
  destruct (run_delivers c sched _ (inv_boot P c p0) (delivers_boot c p0))
    as (s & Hrun & Hinv & Hdel).
  pose proof (run_no_rewind sched (boot P c p0) s Hno (not_elem_of_nil _) Hrun) as Hseen.
  destruct (delivers_cursor s Hdel) as (rest & Hc).
  destruct (cursor_no_rewind _ _ Hc Hseen) as (k & e & Hshape & Hk & Hrest & He).
  exists s, k, e. split_and!; try done.
  - intros out r w'. by apply (Next_false_only_at_end c).
  - intros Hcap Hidle n.
    assert (producer_sig_ (iter P (world P s)) = kProduce) as Hsig.
    { destruct Hinv as [_ _ Is _ _ _ _]. rewrite Hidle in Is.
      destruct (producer_sig_ (iter P (world P s))); [done|by destruct Is|done]. }
    unfold delivers in Hdel. rewrite Hidle in Hdel. destruct Hdel as (E & Hs & Hc').
    rewrite (cursor_fun _ _ _ Hc' Hc), Hrest in Hs.
    destruct (pulls_run c n s _ Hinv Hcap Hidle Hsig Hs) as (s' & H' & _ & _ & _ & _ & Hs' & _).
    eauto.
Qed.

(** C5: over a deterministic producer of [items], whatever the
    interleaving, the calls are those of a cursor over [items] that each
    rewind sets back to the start: what is shown after a rewind is again
    a prefix of [items] and then the end.  In a pipe of positive
    capacity, with the consumer between two calls and whatever it has
    consumed, a rewind followed by [n] calls, another rewind and [m]
    calls shows the first [n] and then the first [m] of [items]. *)
Theorem BeforeFirst_replays (c : nat) (p0 : PState P) (sched : list Move) :
  exists s,
    run P sched (boot P c p0) = Ok s /\
    (exists rest, cursor items (seen P s) rest) /\
    (forall pre post, seen P s = pre ++ Rewound :: post -> Rewound ∉ post ->
       exists k e, post = (Got <$> take k items) ++ replicate e End /\
         k <= length items /\ (0 < e -> k = length items)) /\
    (0 < c -> cpc P s = Idle -> forall n m,
       exists s', run P (rewinds ++ pulls n ++ rewinds ++ pulls m) s = Ok s' /\
         seen P s' = seen P s ++ Rewound :: shown n items ++ Rewound :: shown m items).
Proof using Hdet.
  destruct (run_delivers c sched _ (inv_boot P c p0) (delivers_boot c p0))
    as (s & Hrun & Hinv & Hdel).
  destruct (delivers_cursor s Hdel) as (rest & Hc).
  exists s. split_and!; eauto.
  - intros pre post Hseen Hno. rewrite Hseen in Hc.
    apply cursor_after_rewind in Hc; [|done].
    destruct (cursor_no_rewind _ _ Hc Hno) as (k & e & ? & ? & ? & ?). eauto.
  - intros Hcap Hidle n m.
    destruct (rewind_round c s Hinv Hdel Hidle)
      as (s1 & H1 & Hinv1 & Hidle1 & Hsig1 & Hs1 & Hseen1 & _).
    destruct (pulls_run c n s1 _ Hinv1 Hcap Hidle1 Hsig1 Hs1)
      as (s2 & H2 & Hinv2 & Hidle2 & Hsig2 & Hs2 & Hseen2 & _).
    assert (delivers s2) as Hdel2.
    { destruct (run_delivers c (sched ++ rewinds ++ pulls n) _
                  (inv_boot P c p0) (delivers_boot c p0)) as (s2' & Hr & _ & Hd).
      rewrite (run_app _ _ _ _ Hrun), (run_app _ _ _ _ H1), H2 in Hr. congruence. }
    destruct (rewind_round c s2 Hinv2 Hdel2 Hidle2)
      as (s3 & H3 & Hinv3 & Hidle3 & Hsig3 & Hs3 & Hseen3 & _).
    destruct (pulls_run c m s3 _ Hinv3 Hcap Hidle3 Hsig3 Hs3)
      as (s4 & H4 & _ & _ & _ & _ & Hseen4 & _).
    exists s4. split.
    + by rewrite (run_app _ _ _ _ H1), (run_app _ _ _ _ H2), (run_app _ _ _ _ H3).
    + rewrite Hseen4, Hseen3, Hseen2, Hseen1. by rewrite <- !app_assoc.
Qed.

End Delivery.

(** ** The claims at concrete pipes *)

(** A pipe over the producer of [1; 2; 3], after [Destroy]. *)
Lemma Next_after_shutdown_witness :
  Next (list_producer [1; 2; 3]) None
       (mkWorld (list_producer [1; 2; 3]) (construct 2 kDestroy false false) [] [] []) =
  Ok (false, None,
      mkWorld (list_producer [1; 2; 3]) (construct 2 kDestroy false false) [] [] []).
Proof. apply Next_after_shutdown. reflexivity. Defined.

(** C2 as stated fails: a booted pipe is destroyed, the signal is
    [kDestroy], and [Next] returns false instead of failing. *)
Lemma Next_after_Destroy_returns :
  exists w,
    Destroy (list_producer [1; 2; 3]) (world _ (boot (list_producer [1; 2; 3]) 2 [])) = Ok w /\
    producer_sig_ (iter _ w) = kDestroy /\
    Next (list_producer [1; 2; 3]) None w = Ok (false, None, w) /\
    Next (list_producer [1; 2; 3]) None w <> Fatal.
Proof.
  eexists. split; [vm_compute; reflexivity|].
  split; [reflexivity|]. split; [reflexivity|done].
Qed.

Lemma BeforeFirst_after_shutdown_witness :
  exists w',
    BeforeFirst_request (list_producer [1; 2; 3])
      (mkWorld (list_producer [1; 2; 3])
         (set_out_data (Some 0) (construct 2 kDestroy false false)) [Some 1] [] []) =
    Ok (true, w') /\
    out_data_ (iter _ w') = None /\ free_cells_ (iter _ w') = [Some 0].
Proof.
  destruct (BeforeFirst_after_shutdown (list_producer [1; 2; 3])
              (mkWorld (list_producer [1; 2; 3])
                 (set_out_data (Some 0) (construct 2 kDestroy false false)) [Some 1] [] []))
    as (w' & H1 & _ & H2 & H3 & _); [reflexivity|].
  exists w'. split; [exact H1|]. split; [exact H2|exact H3].
Defined.



(** A pipe that [Init(&p, true)] has made the owner of its producer. *)
Definition owning_pipe : World (list_producer [1; 2; 3]) :=
  mkWorld (list_producer [1; 2; 3])
    (mkThreadedIter (Some 7) kProduce false (Some PcStart) false 2 None [] []) [] [] [].

(** C3 at a pipe that owns its producer. *)
Lemma Destroy_twice_witness :
  Init (list_producer [1; 2; 3]) 7 true
    (mkWorld (list_producer [1; 2; 3]) (construct 2 kProduce false false) [] [] []) =
    Ok owning_pipe /\
  exists w', Destroy (list_producer [1; 2; 3]) owning_pipe = Ok w' /\
    Destroy (list_producer [1; 2; 3]) w' = Undefined DoubleDelete.
Proof.
  split; [reflexivity|]. eexists. split; [vm_compute; reflexivity|].
  exact (Destroy_twice (list_producer [1; 2; 3]) owning_pipe _ eq_refl).
Defined.

(** C4 at a pipe fresh from the constructor. *)
Lemma Init_twice_witness :
  exists w1 w2,
    Init (list_producer [1; 2; 3]) 7 false
      (mkWorld (list_producer [1; 2; 3]) (construct 2 kProduce false false) [] [] []) = Ok w1 /\
    Init (list_producer [1; 2; 3]) 8 false w1 = Ok w2 /\
    producer_thread_ (iter _ w2) = Some PcStart.
Proof.
  destruct (Init_twice (list_producer [1; 2; 3])
              (mkWorld (list_producer [1; 2; 3]) (construct 2 kProduce false false) [] [] [])
              7 8 false) as (_ & H & _); [reflexivity|exact H].
Defined.

(** The schedule of the counterexample to the bound of capacity plus
    one: the consumer takes two cells with [Next(&p)] and keeps them. *)
Definition hoard : list Move :=
  replicate 4 Produce ++ [Pull] ++ replicate 3 Produce ++ [Pull] ++ replicate 3 Produce.

(** C6 as stated fails: capacity 1, and three cells are allocated. *)
Lemma allocated_exceeds_capacity_plus_one :
  exists s,
    run (list_producer [1; 2; 3; 4; 5]) hoard (boot (list_producer [1; 2; 3; 4; 5]) 1 []) = Ok s /\
    allocated (cells _ (world _ s)) = 3 /\
    length (loans _ s) = 2 /\
    ~ allocated (cells _ (world _ s)) <= 1 + 1.
Proof.
  eexists. split; [vm_compute; reflexivity|].
  split; [reflexivity|]. split; [reflexivity|]. vm_compute. lia.
Qed.

Lemma allocated_bound_witness :
  exists s,
    run (list_producer [1; 2; 3; 4; 5]) hoard (boot (list_producer [1; 2; 3; 4; 5]) 1 []) = Ok s /\
    allocated (cells _ (world _ s)) <= 1 + peak _ s.
Proof.
  eexists. split; [vm_compute; reflexivity|].
  refine (proj1 (proj2 (allocated_bound (list_producer [1; 2; 3; 4; 5]) 1 [] hoard _ _))).
  vm_compute. reflexivity.
Defined.

(** C1 at the producer of [1; 2; 3], capacity 2: two calls show 1 and
    2, and from there the next two calls return, with 3 and the end. *)
Lemma Next_fifo_witness :
  exists s k e,
    run (list_producer [1; 2; 3]) (pulls 2) (boot (list_producer [1; 2; 3]) 2 []) = Ok s /\
    seen _ s = (Got <$> take k [1; 2; 3]) ++ replicate e End /\ k <= 3 /\
    seen _ s = [Got 1; Got 2] /\ cpc _ s = Idle /\
    exists s',
      run (list_producer [1; 2; 3]) (pulls 2) s = Ok s' /\
      seen _ s' = seen _ s ++ shown 2 (drop k [1; 2; 3]) /\
      seen _ s' = [Got 1; Got 2; Got 3; End].
Proof.
  destruct (Next_fifo (list_producer [1; 2; 3]) [1; 2; 3]) with (c := 2) (p0 := @nil nat)
    (sched := pulls 2) as (s & k & e & H1 & H2 & H3 & _ & _ & H6).
  - intros s. exists [1; 2; 3]. split; [reflexivity|]. simpl. repeat split; reflexivity.
  - apply (bool_decide_unpack _). vm_compute. exact I.
  - assert (exists s0,
        run (list_producer [1; 2; 3]) (pulls 2)
          (boot (list_producer [1; 2; 3]) 2 []) = Ok s0 /\
        cpc _ s0 = Idle /\ seen _ s0 = [Got 1; Got 2] /\
        exists s1, run (list_producer [1; 2; 3]) (pulls 2) s0 = Ok s1 /\
          seen _ s1 = [Got 1; Got 2; Got 3; End])
      as (s0 & R0 & C0 & S0 & s1 & R1 & S1)
      by (eexists; split; [vm_compute; reflexivity|]; split; [reflexivity|];
          split; [reflexivity|]; eexists; split; [vm_compute; reflexivity|reflexivity]).
    assert (s = s0) as -> by congruence.
    destruct (H6 ltac:(lia) C0 2) as (s' & R' & S').
    assert (s' = s1) as -> by congruence.
    exists s0, k, e. split; [exact H1|]. split; [exact H2|]. split; [exact H3|].
    split; [exact S0|]. split; [exact C0|].
    exists s1. split; [exact R'|]. split; [exact S'|exact S1].
Defined.

(** C5 at the producer of [1; 2; 3], capacity 2. *)
Lemma BeforeFirst_replays_witness :
  exists s,
    run (list_producer [1; 2; 3]) (pulls 2 ++ rewinds ++ pulls 1)
      (boot (list_producer [1; 2; 3]) 2 []) = Ok s /\
    exists rest, cursor [1; 2; 3] (seen _ s) rest.
Proof.
  destruct (BeforeFirst_replays (list_producer [1; 2; 3]) [1; 2; 3]) with (c := 2)
    (p0 := @nil nat) (sched := pulls 2 ++ rewinds ++ pulls 1) as (s & H1 & H2 & _).
  - intros s. exists [1; 2; 3]. split; [reflexivity|]. simpl. repeat split; reflexivity.
  - exists s. split; [exact H1|exact H2].
Defined.

End ThreadedIterProofs.

(** * Properties of the multi-producer pipe *)

Module MultiThreadedIterProofs.
Import MultiThreadedIter.
Module TI := ThreadedIter.
Module TP := ThreadedIterProofs.

Arguments out_data_ {Src P} m.
Arguments loader_ {Src P} m.
Arguments thread_num_ {Src P} m.
Arguments force_stopped_ {Src P} m.
Arguments null_cell_num_ {Src P} m.
Arguments producer_threads_ {Src P} m.
Arguments queue_ {Src P} m.
Arguments queue_capacity_ {Src P} m.
Arguments free_cells_ {Src P} m.
Arguments iter {Src T P} w.
Arguments cells {Src T P} w.
Arguments resets {Src T P} w.
Arguments world {Src T P} s.
Arguments cpc {Src T P} s.
Arguments seen {Src T P} s.

(** ** Counting over the threads and the queue *)

Section Counting.
Context {A : Type}.
Implicit Types (w : A -> nat) (l : list A).

(** The sum of the weights of the elements of a list. *)
Fixpoint tot w l : nat :=
  match l with
  | [] => 0
  | x :: l' => w x + tot w l'
  end.

Lemma tot_nil w : tot w [] = 0.
Proof. reflexivity. Qed.

Lemma tot_cons w x l : tot w (x :: l) = w x + tot w l.
Proof. reflexivity. Qed.

Lemma tot_app w l1 l2 : tot w (l1 ++ l2) = tot w l1 + tot w l2.
Proof. induction l1 as [|x l1 IH]; simpl; [done|]. rewrite IH. lia. Qed.

Lemma tot_insert w l i x y :
  l !! i = Some x -> tot w (<[i := y]> l) + w x = tot w l + w y.
Proof.
  revert i. induction l as [|z l IH]; intros [|i] H; simplify_eq/=.
  - lia.
  - specialize (IH i H). lia.
Qed.

Lemma tot_replicate w k x : tot w (replicate k x) = k * w x.
Proof. induction k as [|k IH]; simpl; [done|]. rewrite IH. lia. Qed.

Lemma tot_le w l b : (forall x, w x <= b) -> tot w l <= length l * b.
Proof.
  intros Hb. induction l as [|x l IH]; simpl; [done|].
  specialize (Hb x). lia.
Qed.

(** If every weight is at most one and the sum is the length, every
    element has weight one. *)
Lemma tot_full w l x :
  (forall y, w y <= 1) -> tot w l = length l -> x ∈ l -> w x = 1.
Proof.
  intros Hb. induction l as [|z l IH]; simpl; [by intros _ ?%elem_of_nil|].
  intros Hsum Hin.
  pose proof (tot_le w l 1 Hb). pose proof (Hb z).
  apply elem_of_cons in Hin as [->|Hin]; [lia|]. apply IH; [lia|done].
Qed.

Lemma tot_lt w l i x :
  (forall y, w y <= 1) -> l !! i = Some x -> w x = 0 -> tot w l < length l.
Proof.
  intros Hb. revert i. induction l as [|z l IH]; intros [|i] H Hx; simplify_eq/=.
  - pose proof (tot_le w l 1 Hb). lia.
  - specialize (IH i H Hx). pose proof (Hb z). lia.
Qed.

(** Replacing one element of a list under a bind. *)
Lemma bind_insert {B} (f : A -> list B) l i x :
  l !! i = Some x ->
  exists R, l ≫= f ≡ₚ f x ++ R /\ forall y, <[i := y]> l ≫= f ≡ₚ f y ++ R.
Proof.
  revert i. induction l as [|z l IH]; intros [|i] H; simplify_eq/=.
  - exists (l ≫= f). done.
  - destruct (IH i H) as (R & H1 & H2). exists (f z ++ R). split.
    + rewrite H1. solve_Permutation.
    + intros y. rewrite (H2 y). solve_Permutation.
Qed.

(** Popping the front keeps the last entry. *)
Lemma last_after_pop (Q : A -> Prop) x l :
  (x :: l = [] \/ exists q y, x :: l = q ++ [y] /\ Q y) ->
  l = [] \/ exists q y, l = q ++ [y] /\ Q y.
Proof.
  intros [?|(q & y & H & HQ)]; [done|].
  destruct q as [|z q]; simplify_eq/=; [by left|right; eauto].
Qed.

End Counting.

(** ** The invariant of a running pipe *)

Section Invariant.
Context {Src T : Type} (P : Producer Src) (F : Src -> nat -> T) (items : list Src).
Context (n qc c : nat).
Local Abbreviation Sys := (System (T:=T) P).
Implicit Types (s : Sys) (g : TI.System P) (m : MultiThreadedIter P).
Implicit Types (h : option WorkerPc) (x : CellType) (q : list CellType).

(** Entries of the queue: the sentinel of a worker, or a record. *)
Definition sentinel x : nat := if x.1 is None then 1 else 0.
Definition record x : nat := if x.1 is Some _ then 1 else 0.

(** Threads: ended, that is, past the push of the sentinel; holding a
    source record on its way to the queue; past the end of the upstream
    pipe. *)
Definition ended h : nat :=
  match h with Some WReturn | Some WExit => 1 | _ => 0 end.
Definition carrying h : nat :=
  match h with
  | Some (WCheck _) | Some (WTake _) | Some (WCall _ _) | Some (WPush _ _) => 1
  | _ => 0
  end.
Definition finishing h : nat :=
  match h with Some WPushNull | Some WReturn | Some WExit => 1 | _ => 0 end.

(** The source cell and the output cell in the hands of a thread. *)
Definition source_of h : list cellptr :=
  match h with
  | Some (WCheck src) | Some (WTake src) | Some (WCall _ src) | Some (WPush _ src) => [src]
  | _ => []
  end.
Definition cell_of h : list cellptr :=
  match h with
  | Some (WCall (Some a) _) => [Some a]
  | Some (WPush cell _) => [cell]
  | _ => []
  end.

Definition queue_sources q : list cellptr :=
  q ≫= (fun x => if x.1 is Some _ then [x.2] else []).
Definition queue_cells q : list cellptr :=
  q ≫= (fun x => if x.1 is Some _ then [x.1] else []).

Definition the_fifo m : list CellType :=
  match queue_ m with Some bq => fifo bq | None => [] end.

(** The source cells on loan from the upstream pipe, and the output
    cells of the pipe. *)
Definition held_sources m : list cellptr :=
  (producer_threads_ m ≫= source_of) ++ queue_sources (the_fifo m).
Definition out_cells m : list cellptr :=
  free_cells_ m ++ (if out_data_ m is Some a then [Some a] else [])
    ++ (producer_threads_ m ≫= cell_of) ++ queue_cells (the_fifo m).

(** The number of calls of [Next()] that returned true since the threads
    were last started. *)
Definition tally (o : list (@Obs T)) : nat :=
  fold_left (fun k e => match e with Got _ => S k | Relaunched => 0 | _ => k end) o 0.

(** Every thread of the vector is there. *)
Definition alive m : Prop :=
  length (producer_threads_ m) = n /\ Forall is_Some (producer_threads_ m).

(** Each thread that has ended has left one sentinel, popped or still
    queued; once all have ended, a queue that is not empty ends with a
    sentinel. *)
Definition balanced m : Prop :=
  null_cell_num_ m + tot sentinel (the_fifo m) = tot ended (producer_threads_ m) /\
  (tot ended (producer_threads_ m) = n ->
     the_fifo m = [] \/ exists q x, the_fifo m = q ++ [x] /\ x.1 = None).

(** Every source record is accounted for: returned to the consumer,
    queued, in the hands of a thread, or still to come from the upstream
    pipe; and no thread has seen the end of the upstream pipe before it
    came. *)
Definition accounted s g : Prop :=
  exists E, TI.cursor items (TI.seen P g) E /\
    tally (seen s) + tot record (the_fifo (iter (world s)))
      + tot carrying (producer_threads_ (iter (world s))) + length E
    = length items /\
    (E = [] \/ tot finishing (producer_threads_ (iter (world s))) = 0).

(** The threads are joined and the queue is drained. *)
Definition joined m : Prop :=
  force_stopped_ m = true /\ producer_threads_ m = replicate n None /\
  the_fifo m = [] /\ null_cell_num_ m = n.

(** The stretch of its life the consumer is in: between two rewinds,
    draining the queue in [BeforeFirst], or past the joins. *)
Inductive Phase := Running | Draining | Halted | Never.

Definition phase_of (cp : ConsumerPc) : Phase :=
  match cp with
  | Idle | InNext ByUser => Running
  | AtDrain1 | InNext ByDrain1 | AtJoin => Draining
  | InNext ByDrain2 => Never
  | _ => Halted
  end.

(** The invariant: [g] is the upstream pipe, seen as a single-producer
    pipe whose consumer is this pipe. *)
Record minv s g : Prop := mkMinv {
  mi_loader : TI.world P g = loader_ (iter (world s));
  mi_upstream : TP.inv P c g;
  mi_delivers : TP.delivers P items g;
  mi_upstream_pc :
    TI.cpc P g = if cpc s is AtUpstreamAck then TI.InBeforeFirst else TI.Idle;
  mi_loans : held_sources (iter (world s)) ⊆+ TI.loans P g;
  mi_num : thread_num_ (iter (world s)) = n;
  mi_queue :
    exists bq, queue_ (iter (world s)) = Some bq /\ killed bq = false /\
               capacity bq = qc;
  mi_cells : Forall (TP.live (cells (world s))) (out_cells (iter (world s)));
  mi_null : null_cell_num_ (iter (world s)) <= n;
  mi_turn :
    match cpc s with
    | InNext _ => null_cell_num_ (iter (world s)) < n
    | AtJoin => null_cell_num_ (iter (world s)) = n
    | _ => True
    end;
  mi_phase :
    match phase_of (cpc s) with
    | Running =>
        force_stopped_ (iter (world s)) = false /\ alive (iter (world s)) /\
        balanced (iter (world s)) /\ accounted s g
    | Draining =>
        force_stopped_ (iter (world s)) = true /\ alive (iter (world s)) /\
        balanced (iter (world s))
    | Halted => joined (iter (world s))
    | Never => False
    end;
  mi_rewound : cpc s = AtRelaunch -> TI.cursor items (TI.seen P g) items
}.

(** The upstream pipe at the start, as a single-producer system. *)
Definition upstream_boot (p0 : PState P) : TI.System P := TI.boot P c p0.

Lemma minv_boot (p0 : PState P) : minv (boot P n qc c p0) (upstream_boot p0).
Proof.
  constructor; simpl; try done.
  - apply TP.inv_boot.
  - apply TP.delivers_boot.
  - unfold held_sources, the_fifo; simpl.
    induction n as [|k IH]; simpl; [done|]. exact IH.
  - eauto.
  - unfold out_cells, the_fifo; simpl.
    induction n as [|k IH]; simpl; [constructor|]. exact IH.
  - lia.
  - unfold alive, balanced, accounted, the_fifo; simpl.
    rewrite length_replicate, !tot_replicate. simpl. split_and!; try done; try lia.
    + apply Forall_replicate. eauto.
    + intros; by left.
    + exists items. split_and!; [constructor|lia|right; lia].
Qed.

(** *** Small facts *)

Lemma cursor_snoc_got sn v E :
  TI.cursor items (sn ++ [TI.Got v]) E -> TI.cursor items sn (v :: E).
Proof.
  intros H. inversion H as [He|? ? ? H' He|? H' He|? ? H' He].
  - symmetry in He. by apply app_nil in He as [_ [=]].
  - by apply app_inj_tail in He as [-> [= ->]].
  - by apply app_inj_tail in He as [_ [=]].
  - by apply app_inj_tail in He as [_ [=]].
Qed.

Lemma cursor_snoc_end sn E :
  TI.cursor items (sn ++ [TI.End]) E -> TI.cursor items sn [] /\ E = [].
Proof.
  intros H. inversion H as [He|? ? ? H' He|? H' He|? ? H' He].
  - symmetry in He. by apply app_nil in He as [_ [=]].
  - by apply app_inj_tail in He as [_ [=]].
  - by apply app_inj_tail in He as [-> _].
  - by apply app_inj_tail in He as [_ [=]].
Qed.

Lemma cursor_snoc_rewound sn E :
  TI.cursor items (sn ++ [TI.Rewound]) E -> E = items.
Proof.
  intros H. inversion H as [He|? ? ? H' He|? H' He|? ? H' He].
  - symmetry in He. by apply app_nil in He as [_ [=]].
  - by apply app_inj_tail in He as [_ [=]].
  - by apply app_inj_tail in He as [_ [=]].
  - done.
Qed.

Lemma live_write {B} (hp : heap B) a v cl :
  TP.live hp cl -> TP.live (heap_write a v hp) cl.
Proof.
  intros (u & a' & -> & Hu). destruct (decide (a = a')) as [<-|Hne].
  - exists v, a. split; [done|]. apply TP.cell_value_write. by eapply TP.cell_value_lt.
  - exists u, a'. split; [done|]. by rewrite TP.cell_value_write_ne.
Qed.

Lemma live_new_old {B} (hp : heap B) v cl :
  TP.live hp cl -> TP.live (hp ++ [Some v]) cl.
Proof. intros (u & Hu). exists u. by apply TP.holds_new_old. Qed.

Lemma live_new {B} (hp : heap B) v : TP.live (hp ++ [Some v]) (Some (length hp)).
Proof. exists v, (length hp). split; [done|]. apply TP.cell_value_new. Qed.

Lemma tally_snoc (o : list (@Obs T)) e :
  tally (o ++ [e]) = match e with Got _ => S (tally o) | Relaunched => 0 | _ => tally o end.
Proof. unfold tally. by rewrite fold_left_app. Qed.

Lemma queue_sources_snoc q x :
  queue_sources (q ++ [x]) = queue_sources q ++ (if x.1 is Some _ then [x.2] else []).
Proof. unfold queue_sources. rewrite bind_app. simpl. by rewrite app_nil_r. Qed.

Lemma queue_cells_snoc q x :
  queue_cells (q ++ [x]) = queue_cells q ++ (if x.1 is Some _ then [x.1] else []).
Proof. unfold queue_cells. rewrite bind_app. simpl. by rewrite app_nil_r. Qed.

(** A source cell on loan is live in the store of the upstream pipe. *)
Lemma loan_live g src :
  TP.inv P c g -> src ∈ TI.loans P g -> TP.live (TI.cells P (TI.world P g)) src.
Proof.
  intros [(_ & Hlive & _) _ _ _ _ _ _] Hin. rewrite Forall_forall in Hlive.
  apply Hlive. unfold TP.homes. rewrite !elem_of_app. tauto.
Qed.

Hypothesis Hdet : TI.produces P items.

Ltac open_state s :=
  destruct s as [[[od l tn fs nu ths bq qcap fc] ht rs] cp sn].
Ltac forall_perm H :=
  match type of H with
  | Forall _ ?l1 =>
      match goal with
      | |- Forall _ ?l2 =>
          let Hp := fresh in
          assert (l2 ≡ₚ l1) as Hp by solve_Permutation; rewrite Hp; exact H
      end
  end.
Ltac forall_sub H :=
  let x := fresh "x" in let Hx := fresh "Hx" in
  rewrite Forall_forall in H |- *; intros x Hx; apply H; revert Hx;
  repeat (rewrite ?elem_of_app, ?elem_of_cons, ?elem_of_nil); tauto.
Ltac same_counts Hphase Hph :=
  let Hp := fresh "Hp" in
  let Hlen' := fresh "Hlen'" in let Hsome' := fresh "Hsome'" in
  let Hbal := fresh "Hbal" in let Hlast := fresh "Hlast" in
  let E := fresh "E" in let Hcur := fresh "Hcur" in
  let Hacc := fresh "Hacc" in let Hfin := fresh "Hfin" in
  destruct Hphase as [Hp|Hp]; rewrite Hp in *;
  [ destruct Hph as (-> & [Hlen' Hsome'] & [Hbal Hlast] & (E & Hcur & Hacc & Hfin))
  | destruct Hph as (-> & [Hlen' Hsome'] & [Hbal Hlast]) ];
  simpl in *; split_and!; try done; try lia; eauto;
  try (intros; apply Hlast; lia);
  try (exists E; split_and!; [done|lia|]; destruct Hfin; [by left|right; lia]).
Ltac submseteq_perm H :=
  match type of H with
  | ?l1 ⊆+ _ =>
      match goal with
      | |- ?l2 ⊆+ _ =>
          let Hp := fresh in
          assert (l2 ≡ₚ l1) as Hp by solve_Permutation; rewrite Hp; exact H
      end
  end.
Ltac unfold_minv :=
  unfold held_sources, out_cells, alive, balanced, accounted, joined, the_fifo,
    TI.settle in *;
  simpl in *.

(** The producer thread of the upstream pipe. *)
Lemma feed_minv s g :
  minv s g ->
  (step P F Feed s = Blocked /\ TI.step P TI.Produce g = Blocked) \/
  exists s' g', step P F Feed s = Ok s' /\ minv s' g' /\
    TI.step P TI.Produce g = Ok g' /\
    s' = mkSystem P (on_iter P (set_loader P (TI.world P g')) (world s)) (cpc s) (seen s).
Proof using Hdet.
  intros [Hl Hinv Hdel Hpc Hloans Hn Hq Hc Hnull Hturn Hph Hrew].
  destruct (TP.step_delivers P items Hdet c TI.Produce g Hinv Hdel)
    as [Hb|(g' & Hg & Hdel')].
  - left. split; [|done]. simpl in *. unfold loader_thread. rewrite <- Hl.
    by destruct (TI.producer_fun P (TI.world P g)).
  - right. pose proof (TP.step_inv P c _ _ _ Hinv Hg) as Hinv'.
    destruct (TP.produce_frame P _ _ Hg) as (Hcpc' & Hseen' & Hloans').
    simpl in Hg. apply TP.obind_Ok in Hg as (w' & Hw & Hg).
    exists (mkSystem P (on_iter P (set_loader P (TI.world P g')) (world s)) (cpc s) (seen s)), g'.
    split_and!; try done.
    + simpl. unfold loader_thread. rewrite <- Hl, Hw. simpl. by injection Hg as <-.
    + open_state s. unfold_minv. rewrite <- Hseen', <- Hloans', <- Hcpc' in *.
      constructor; unfold_minv; done.
    + simpl. rewrite Hw. simpl. done.
Qed.

(** A thread that can run exists only before the joins. *)
Lemma thread_phase s g tid pc :
  minv s g -> producer_threads_ (iter (world s)) !! tid = Some (Some pc) ->
  (phase_of (cpc s) = Running \/ phase_of (cpc s) = Draining) /\
  TI.cpc P g = TI.Idle.
Proof.
  intros [_ _ _ Hpc _ _ _ _ _ _ Hph _] Hlook.
  destruct (cpc s) as [|[]| | | | | | |]; simpl in *; try tauto.
  all: destruct Hph as (_ & Hths & _); rewrite Hths in Hlook;
    apply lookup_replicate in Hlook as [[=] _].
Qed.

(** The threads after the section of one of them. *)
Lemma threads_update ths tid pc pc' :
  ths !! tid = Some (Some pc) ->
  length (<[tid := Some pc']> ths) = length ths /\
  (Forall is_Some ths -> Forall is_Some (<[tid := Some pc']> ths)) /\
  (forall w, tot w (<[tid := Some pc']> ths) + w (Some pc) = tot w ths + w (Some pc')) /\
  (exists R, ths ≫= source_of ≡ₚ source_of (Some pc) ++ R /\
             <[tid := Some pc']> ths ≫= source_of ≡ₚ source_of (Some pc') ++ R) /\
  (exists R, ths ≫= cell_of ≡ₚ cell_of (Some pc) ++ R /\
             <[tid := Some pc']> ths ≫= cell_of ≡ₚ cell_of (Some pc') ++ R).
Proof.
  intros Hlook. split_and!.
  - apply length_insert.
  - intros H. apply Forall_insert; eauto.
  - intros w. by apply tot_insert.
  - destruct (bind_insert source_of ths tid _ Hlook) as (R & H1 & H2). eauto.
  - destruct (bind_insert cell_of ths tid _ Hlook) as (R & H1 & H2). eauto.
Qed.

Lemma work_minv tid s g :
  minv s g ->
  step P F (Work tid) s = Blocked \/
  exists s' g', step P F (Work tid) s = Ok s' /\ minv s' g'.
Proof using Hdet.
  intros Hminv. simpl. unfold producer_thread_body_.
  destruct (producer_threads_ (iter (world s)) !! tid) as [[pc|]|] eqn:Hlook;
    [|by left..].
  destruct (thread_phase s g tid pc Hminv Hlook) as [Hphase Hgpc].
  open_state s.
  destruct Hminv as [Hl Hinv Hdel Hpc Hloans Hn Hq Hc Hnull Hturn Hph Hrew].
  unfold_minv. destruct Hq as ([ff bcap kd] & -> & Hkd & Hcap). simpl in *. subst kd bcap tn.
  destruct pc as [|src|src|cell src|cell src| | |]; [| | | | | | |by left].
  - (* loader_->Next(&source_data) *)
    destruct (TP.step_delivers P items Hdet c TI.Pull g Hinv Hdel)
      as [Hb|(g' & Hg & Hdel')].
    + left. simpl in Hb. rewrite Hgpc, Hl in Hb.
      destruct (TI.Next P None l) as [[[more src] l']| | |]; try done.
      simpl in Hb. destruct more; [|done].
      unfold TI.deref in Hb. by repeat case_match.
    + right. pose proof (TP.step_inv P c _ _ _ Hinv Hg) as Hinv'.
      simpl in Hg. rewrite Hgpc, Hl in Hg.
      destruct (TI.Next P None l) as [[[more src] l']| | |]; try done.
      simpl in *. destruct more.
      * (* a record *)
        apply TP.obind_Ok in Hg as (v & Hv & [= <-]).
        destruct (threads_update ths tid WNext (WCheck src) Hlook)
          as (Hlen & Hsome & Htot & (Rs & Hs1 & Hs2) & (Rc & Hc1 & Hc2)).
        pose proof (Htot ended) as Hte. pose proof (Htot carrying) as Htc.
        pose proof (Htot finishing) as Htf. clear Htot.
        rewrite Hs1 in Hloans. rewrite Hc1 in Hc. simpl in *.
        eexists _, _. split; [done|].
        constructor; unfold_minv; try done; eauto.
        -- simpl. congruence.
        -- rewrite Hs2. simpl.
           assert (src :: Rs ++ queue_sources ff ≡ₚ (Rs ++ queue_sources ff) ++ [src])
             as -> by solve_Permutation.
           by apply submseteq_skips_r.
        -- by rewrite Hc2.
        -- destruct (TP.delivers_cursor P items _ Hdel') as [E' Hcur']. simpl in Hcur'.
           apply cursor_snoc_got in Hcur'.
           destruct Hphase as [Hp|Hp]; rewrite Hp in *.
           ++ destruct Hph as (-> & [Hlen' Hsome'] & [Hbal Hlast] & (E & Hcur & Hacc & Hfin)).
              pose proof (TP.cursor_fun _ _ _ _ Hcur Hcur') as ->.
              simpl in *. split_and!; try done; try lia; eauto.
              ** intros. apply Hlast. lia.
              ** exists E'. split_and!; [by constructor|lia|].
                 destruct Hfin as [|Hfin]; [done|right; lia].
           ++ destruct Hph as (-> & [Hlen' Hsome'] & [Hbal Hlast]).
              simpl in *. split_and!; try done; try lia; eauto.
              intros. apply Hlast. lia.
        -- intros ->. by destruct Hphase.
      * (* the end *)
        injection Hg as <-.
        destruct (threads_update ths tid WNext WPushNull Hlook)
          as (Hlen & Hsome & Htot & (Rs & Hs1 & Hs2) & (Rc & Hc1 & Hc2)).
        pose proof (Htot ended) as Hte. pose proof (Htot carrying) as Htc.
        pose proof (Htot finishing) as Htf. clear Htot.
        rewrite Hs1 in Hloans. rewrite Hc1 in Hc. simpl in *.
        eexists _, _. split; [done|].
        constructor; unfold_minv; try done; eauto.
        -- simpl. congruence.
        -- by rewrite Hs2.
        -- by rewrite Hc2.
        -- destruct (TP.delivers_cursor P items _ Hdel') as [E' Hcur']. simpl in Hcur'.
           apply cursor_snoc_end in Hcur' as [Hcur' ->].
           destruct Hphase as [Hp|Hp]; rewrite Hp in *.
           ++ destruct Hph as (-> & [Hlen' Hsome'] & [Hbal Hlast] & (E & Hcur & Hacc & Hfin)).
              pose proof (TP.cursor_fun _ _ _ _ Hcur Hcur') as ->.
              simpl in *. split_and!; try done; try lia; eauto.
              ** intros. apply Hlast. lia.
              ** exists []. split_and!; [by apply TI.cursor_end|simpl; lia|by left].
           ++ destruct Hph as (-> & [Hlen' Hsome'] & [Hbal Hlast]).
              simpl in *. split_and!; try done; try lia; eauto.
              intros. apply Hlast. lia.
        -- intros ->. by destruct Hphase.
  - (* the test of force_stopped_ *)
    right.
    destruct (threads_update ths tid (WCheck src)
                (if fs then WPushNull else WTake src) Hlook)
      as (Hlen & Hsome & Htot & (Rs & Hs1 & Hs2) & (Rc & Hc1 & Hc2)).
    pose proof (Htot ended) as Hte. pose proof (Htot carrying) as Htc.
    pose proof (Htot finishing) as Htf. clear Htot.
    eexists _, g. split; [done|].
    constructor; unfold_minv; try done; eauto.
    + rewrite Hs2. rewrite Hs1 in Hloans.
      destruct fs; simpl in *; [|done].
      etrans; [|exact Hloans]. by apply submseteq_cons.
    + rewrite Hc2. rewrite Hc1 in Hc. by destruct fs.
    + destruct Hphase as [Hp|Hp]; rewrite Hp in *.
      * destruct Hph as (-> & [Hlen' Hsome'] & [Hbal Hlast] & (E & Hcur & Hacc & Hfin)).
        simpl in *. split_and!; try done; try lia; eauto.
        -- intros. apply Hlast. lia.
        -- exists E. split_and!; [done|lia|]. destruct Hfin; [by left|right; lia].
      * destruct Hph as (-> & [Hlen' Hsome'] & [Hbal Hlast]).
        simpl in *. split_and!; try done; try lia; eauto.
        intros. apply Hlast. lia.
  - (* the free cell *)
    right. destruct fc as [|cell fc].
    + destruct (threads_update ths tid (WTake src) (WCall None src) Hlook)
        as (Hlen & Hsome & Htot & (Rs & Hs1 & Hs2) & (Rc & Hc1 & Hc2)).
      pose proof (Htot ended) as Hte. pose proof (Htot carrying) as Htc.
      pose proof (Htot finishing) as Htf. clear Htot.
      eexists _, g. split; [done|].
      constructor; unfold_minv; try done; eauto.
      * rewrite Hs2. by rewrite Hs1 in Hloans.
      * rewrite Hc2. by rewrite Hc1 in Hc.
      * destruct Hphase as [Hp|Hp]; rewrite Hp in *.
        -- destruct Hph as (-> & [Hlen' Hsome'] & [Hbal Hlast] & (E & Hcur & Hacc & Hfin)).
           simpl in *. split_and!; try done; try lia; eauto.
           ++ intros. apply Hlast. lia.
           ++ exists E. split_and!; [done|lia|]. destruct Hfin; [by left|right; lia].
        -- destruct Hph as (-> & [Hlen' Hsome'] & [Hbal Hlast]).
           simpl in *. split_and!; try done; try lia; eauto.
           intros. apply Hlast. lia.
    + destruct (threads_update ths tid (WTake src) (WCall cell src) Hlook)
        as (Hlen & Hsome & Htot & (Rs & Hs1 & Hs2) & (Rc & Hc1 & Hc2)).
      pose proof (Htot ended) as Hte. pose proof (Htot carrying) as Htc.
      pose proof (Htot finishing) as Htf. clear Htot.
      eexists _, g. split; [done|].
      assert (exists a, cell = Some a) as [a ->].
      { apply Forall_cons_1 in Hc as [(v & a & -> & _) _]. eauto. }
      constructor; unfold_minv; try done; eauto.
      * rewrite Hs2. by rewrite Hs1 in Hloans.
      * rewrite Hc2. rewrite Hc1 in Hc. simpl in *.
        forall_perm Hc.
      * destruct Hphase as [Hp|Hp]; rewrite Hp in *.
        -- destruct Hph as (-> & [Hlen' Hsome'] & [Hbal Hlast] & (E & Hcur & Hacc & Hfin)).
           simpl in *. split_and!; try done; try lia; eauto.
           ++ intros. apply Hlast. lia.
           ++ exists E. split_and!; [done|lia|]. destruct Hfin; [by left|right; lia].
        -- destruct Hph as (-> & [Hlen' Hsome'] & [Hbal Hlast]).
           simpl in *. split_and!; try done; try lia; eauto.
           intros. apply Hlast. lia.
  - (* next(&cell, source_data, tid) *)
    destruct (threads_update ths tid (WCall cell src) (WNext) Hlook)
      as (_ & _ & _ & (Rs0 & Hs0 & _) & _).
    assert (TP.live (TI.cells P l) src) as (v & a0 & -> & Hv).
    { rewrite <- Hl. apply loan_live; [done|].
      eapply elem_of_submseteq; [|exact Hloans].
      rewrite elem_of_app. left. rewrite Hs0. apply list_elem_of_here. }
    right. unfold transform. simpl. rewrite Hv.
    destruct cell as [a|]; simpl.
    + destruct (threads_update ths tid (WCall (Some a) (Some a0))
                  (WPush (Some a) (Some a0)) Hlook)
        as (Hlen & Hsome & Htot & (Rs & Hs1 & Hs2) & (Rc & Hc1 & Hc2)).
      pose proof (Htot ended) as Hte. pose proof (Htot carrying) as Htc.
      pose proof (Htot finishing) as Htf. clear Htot.
      eexists _, g. split; [done|].
      constructor; unfold_minv; try done; eauto.
      * rewrite Hs2. by rewrite Hs1 in Hloans.
      * rewrite Hc2. rewrite Hc1 in Hc. simpl in *.
        eapply Forall_impl; [exact Hc|]. intros cl. apply live_write.
      * same_counts Hphase Hph.
    + destruct (threads_update ths tid (WCall None (Some a0))
                  (WPush (@Some ptr (length ht)) (Some a0)) Hlook)
        as (Hlen & Hsome & Htot & (Rs & Hs1 & Hs2) & (Rc & Hc1 & Hc2)).
      pose proof (Htot ended) as Hte. pose proof (Htot carrying) as Htc.
      pose proof (Htot finishing) as Htf. clear Htot.
      eexists _, g. split; [done|].
      constructor; unfold_minv; try done; eauto.
      * rewrite Hs2. by rewrite Hs1 in Hloans.
      * rewrite Hc2. rewrite Hc1 in Hc. simpl in *.
        assert (Forall (TP.live (ht ++ [Some (F v tid)]))
                  (Some (length ht) :: fc ++ (if od is Some a then [Some a] else [])
                     ++ Rc ++ queue_cells ff)) as Hc'.
        { constructor; [apply live_new|].
          eapply Forall_impl; [exact Hc|]. intros cl. apply live_new_old. }
        forall_perm Hc'.
      * same_counts Hphase Hph.
  - (* queue_->Push(CellType(cell, source_data)) *)
    unfold push_cell, Push. simpl.
    destruct (length ff <? qc) eqn:Hroom; simpl; [right|by left].
    destruct (threads_update ths tid (WPush cell src) WNext Hlook)
      as (Hlen & Hsome & Htot & (Rs & Hs1 & Hs2) & (Rc & Hc1 & Hc2)).
    pose proof (Htot ended) as Hte. pose proof (Htot carrying) as Htc.
    pose proof (Htot finishing) as Htf. clear Htot.
    rewrite Hs1 in Hloans. rewrite Hc1 in Hc. simpl in *.
    assert (exists a, cell = Some a) as [a ->].
    { rewrite Forall_forall in Hc. destruct (Hc cell) as (v & a & -> & _); [|by eauto].
      rewrite !elem_of_app, elem_of_cons. tauto. }
    assert (tot ended (<[tid := Some WNext]> ths) < length (<[tid := Some WNext]> ths))
      as Hnot.
    { apply (tot_lt ended _ tid (Some WNext)); [by intros [[]|]; simpl; lia| |done].
      apply list_lookup_insert_eq. by eapply lookup_lt_Some. }
    eexists _, g. split; [done|].
    constructor; unfold_minv; try done; eauto.
    + rewrite Hs2, queue_sources_snoc. simpl. submseteq_perm Hloans.
    + rewrite Hc2, queue_cells_snoc. simpl. forall_perm Hc.
    + destruct Hphase as [Hp|Hp]; rewrite Hp in *.
      * destruct Hph as (-> & [Hlen' Hsome'] & [Hbal Hlast] & (E & Hcur & Hacc & Hfin)).
        rewrite !tot_app. simpl in *. split_and!; try done; try lia; eauto.
        exists E. split_and!; [done|lia|]. destruct Hfin; [by left|right; lia].
      * destruct Hph as (-> & [Hlen' Hsome'] & [Hbal Hlast]).
        rewrite !tot_app. simpl in *. split_and!; try done; try lia; eauto.
  - (* queue_->Push(CellType(nullptr, nullptr)) *)
    unfold push_cell, Push. simpl.
    destruct (length ff <? qc) eqn:Hroom; simpl; [right|by left].
    destruct (threads_update ths tid WPushNull WReturn Hlook)
      as (Hlen & Hsome & Htot & (Rs & Hs1 & Hs2) & (Rc & Hc1 & Hc2)).
    pose proof (Htot ended) as Hte. pose proof (Htot carrying) as Htc.
    pose proof (Htot finishing) as Htf. clear Htot.
    rewrite Hs1 in Hloans. rewrite Hc1 in Hc. simpl in *.
    eexists _, g. split; [done|].
    constructor; unfold_minv; try done; eauto.
    + rewrite Hs2, queue_sources_snoc. simpl. by rewrite app_nil_r.
    + rewrite Hc2, queue_cells_snoc. simpl. by rewrite app_nil_r.
    + destruct Hphase as [Hp|Hp]; rewrite Hp in *.
      * destruct Hph as (-> & [Hlen' Hsome'] & [Hbal Hlast] & (E & Hcur & Hacc & Hfin)).
        rewrite !tot_app. simpl in *. split_and!; try done; try lia; eauto.
        exists E. split_and!; [done|lia|]. destruct Hfin; [by left|right; lia].
      * destruct Hph as (-> & [Hlen' Hsome'] & [Hbal Hlast]).
        rewrite !tot_app. simpl in *. split_and!; try done; try lia; eauto.
  - (* the return of the thread function *)
    right.
    destruct (threads_update ths tid WReturn WExit Hlook)
      as (Hlen & Hsome & Htot & (Rs & Hs1 & Hs2) & (Rc & Hc1 & Hc2)).
    pose proof (Htot ended) as Hte. pose proof (Htot carrying) as Htc.
    pose proof (Htot finishing) as Htf. clear Htot.
    eexists _, g. split; [done|].
    constructor; unfold_minv; try done; eauto.
    + rewrite Hs2. by rewrite Hs1 in Hloans.
    + rewrite Hc2. by rewrite Hc1 in Hc.
    + same_counts Hphase Hph.
Qed.

(** A loan that is given back. *)
Lemma loan_index (ls : list cellptr) src rest :
  src :: rest ⊆+ ls -> exists i, ls !! i = Some src /\ rest ⊆+ delete i ls.
Proof.
  intros (k & Hk & Hrest)%submseteq_cons_l.
  assert (src ∈ ls) as [i Hi]%list_elem_of_lookup.
  { rewrite Hk. apply list_elem_of_here. }
  exists i. split; [done|].
  pose proof (delete_Permutation _ _ _ Hi) as Hd.
  assert (src :: delete i ls ≡ₚ src :: k) as Hp by (by rewrite <- Hd, <- Hk).
  apply Permutation_cons_inv in Hp. by rewrite Hp.
Qed.

(** Where a call of [Next()] made by [by_] starts. *)
Definition call_site (by_ : Caller) : ConsumerPc :=
  match by_ with ByUser => Idle | ByDrain1 => AtDrain1 | ByDrain2 => AtDrain2 end.

(** The first section of [Next()] never waits. *)
Lemma enter_minv by_ s g :
  minv s g -> cpc s = call_site by_ ->
  exists s', enter P by_ s = Ok s' /\ minv s' g.
Proof.
  intros Hminv Hcp. open_state s.
  destruct Hminv as [Hl Hinv Hdel Hpc Hloans Hn Hq Hc Hnull Hturn Hph Hrew].
  unfold_minv. subst cp tn. unfold enter, Next_enter. simpl.
  destruct od as [a|]; simpl; destruct (Nat.leb_spec n nu) as [Hnu|Hnu]; simpl;
    destruct by_; simpl in *.
  all: eexists; split; [done|].
  all: constructor; unfold_minv; try done; try lia.
  all: try (by forall_perm Hc).
  all: try (rewrite tally_snoc; done).
Qed.

(** A turn of the loop of [Next(&out_data_)]. *)
Lemma turn_minv by_ s g :
  minv s g -> cpc s = InNext by_ ->
  turn P by_ s = Blocked \/ exists s' g', turn P by_ s = Ok s' /\ minv s' g'.
Proof using Hdet.
  intros Hminv Hcp. open_state s.
  destruct Hminv as [Hl Hinv Hdel Hpc Hloans Hn Hq Hc Hnull Hturn Hph Hrew].
  unfold_minv. destruct Hq as ([ff bcap kd] & -> & Hkd & Hcap). simpl in *.
  subst cp kd bcap tn. unfold turn, Next_turn, Pop. simpl.
  destruct by_; simpl in *; [| |done].
  all: destruct ff as [|[[c0|] src] rest]; simpl in *; [by left|right..].
  - (* a record for the user *)
    destruct (loan_index (TI.loans P g) src ((ths ≫= source_of) ++ queue_sources rest))
      as (i & Hi & Hloans').
    { submseteq_perm Hloans. }
    assert (exists g', TI.step P (TI.Give i) g = Ok g') as [g' Hg].
    { simpl. rewrite Hpc, Hi. eauto. }
    pose proof (TP.step_inv P c _ _ _ Hinv Hg) as Hinv'.
    destruct (TP.step_delivers P items Hdet c (TI.Give i) g Hinv Hdel)
      as [Hb|(g2 & Hg2 & Hdel')]; [congruence|].
    assert (g2 = g') as -> by congruence.
    simpl in Hg. rewrite Hpc, Hi in Hg. injection Hg as <-.
    assert (TP.live ht (Some c0)) as (v & a0 & [= <-] & Hv).
    { rewrite Forall_forall in Hc. apply Hc.
      rewrite !elem_of_app, elem_of_cons. auto 8. }
    unfold Value. simpl. rewrite Hv. simpl. clear Hg2.
    eexists _, _. split; [done|].
    constructor; unfold_minv; try done; eauto.
    + by rewrite Hl.
    + forall_sub Hc.
    + destruct Hph as (-> & [Hlen' Hsome'] & [Hbal Hlast] & (E & Hcur & Hacc & Hfin)).
      rewrite tally_snoc. split_and!; try done; try lia; eauto.
      * intros Hall. by apply (last_after_pop _ _ _ (Hlast Hall)).
      * exists E. simpl. split_and!; [done|lia|done].
  - (* a sentinel for the user *)
    destruct Hph as (-> & [Hlen' Hsome'] & [Hbal Hlast] & (E & Hcur & Hacc & Hfin)).
    change (match n with 0 => false | S m' => nu =? m' end) with (S nu =? n).
    destruct (Nat.eqb_spec (S nu) n) as [Heq|Hne]; simpl.
    + eexists _, g. split; [done|].
      constructor; unfold_minv; try done; try lia; eauto.
      rewrite tally_snoc. split_and!; try done; try lia; eauto.
      intros Hall. by apply (last_after_pop _ _ _ (Hlast Hall)).
    + eexists _, g. split; [done|].
      constructor; unfold_minv; try done; try lia; eauto.
      split_and!; try done; try lia; eauto.
      intros Hall. by apply (last_after_pop _ _ _ (Hlast Hall)).
  - (* a record while draining *)
    destruct (loan_index (TI.loans P g) src ((ths ≫= source_of) ++ queue_sources rest))
      as (i & Hi & Hloans').
    { submseteq_perm Hloans. }
    assert (exists g', TI.step P (TI.Give i) g = Ok g') as [g' Hg].
    { simpl. rewrite Hpc, Hi. eauto. }
    pose proof (TP.step_inv P c _ _ _ Hinv Hg) as Hinv'.
    destruct (TP.step_delivers P items Hdet c (TI.Give i) g Hinv Hdel)
      as [Hb|(g2 & Hg2 & Hdel')]; [congruence|].
    assert (g2 = g') as -> by congruence.
    simpl in Hg. rewrite Hpc, Hi in Hg. injection Hg as <-. clear Hg2.
    eexists _, _. split; [done|].
    constructor; unfold_minv; try done; eauto.
    + by rewrite Hl.
    + forall_sub Hc.
    + destruct Hph as (-> & [Hlen' Hsome'] & [Hbal Hlast]).
      split_and!; try done; try lia; eauto.
      intros Hall. by apply (last_after_pop _ _ _ (Hlast Hall)).
  - (* a sentinel while draining *)
    destruct Hph as (-> & [Hlen' Hsome'] & [Hbal Hlast]).
    change (match n with 0 => false | S m' => nu =? m' end) with (S nu =? n).
    destruct (Nat.eqb_spec (S nu) n) as [Heq|Hne]; simpl.
    + eexists _, g. split; [done|].
      constructor; unfold_minv; try done; try lia; eauto.
      split_and!; try done; try lia; eauto.
      intros Hall. by apply (last_after_pop _ _ _ (Hlast Hall)).
    + eexists _, g. split; [done|].
      constructor; unfold_minv; try done; try lia; eauto.
      split_and!; try done; try lia; eauto.
      intros Hall. by apply (last_after_pop _ _ _ (Hlast Hall)).
Qed.

(** The consumer in [Next()], whoever called. *)
Lemma advance_minv s g :
  minv s g ->
  step P F Advance s = Blocked \/
  exists s' g', step P F Advance s = Ok s' /\ minv s' g'.
Proof using Hdet.
  intros Hminv. simpl.
  destruct (cpc s) as [|[]| | | | | | |] eqn:Hcp; try by left.
  - right. destruct (enter_minv ByUser s g Hminv Hcp) as (s' & Hs & Hm). eauto.
  - by apply (turn_minv ByUser s g).
Qed.

Lemma no_thread_sources k : replicate k (@None WorkerPc) ≫= source_of = [].
Proof. induction k as [|k IH]; [done|exact IH]. Qed.

Lemma no_thread_cells k : replicate k (@None WorkerPc) ≫= cell_of = [].
Proof. induction k as [|k IH]; [done|exact IH]. Qed.

Lemma new_thread_sources k : replicate k (Some WNext) ≫= source_of = [].
Proof. induction k as [|k IH]; [done|exact IH]. Qed.

Lemma new_thread_cells k : replicate k (Some WNext) ≫= cell_of = [].
Proof. induction k as [|k IH]; [done|exact IH]. Qed.

(** When the counter has reached the number of threads, every thread
    has ended and the queue is empty. *)
Lemma all_sentinels_in m :
  alive m -> balanced m -> null_cell_num_ m = n ->
  the_fifo m = [] /\ tot ended (producer_threads_ m) = n.
Proof.
  intros [Hlen _] [Hbal Hlast] Hnull.
  assert (forall h, ended h <= 1) as Hb by (intros [[]|]; simpl; lia).
  pose proof (tot_le ended (producer_threads_ m) 1 Hb) as Hle.
  assert (tot ended (producer_threads_ m) = n) as Hall by lia.
  split; [|done].
  destruct (Hlast Hall) as [?|(q & x & Hq & Hx)]; [done|].
  rewrite Hq, tot_app in Hbal. simpl in Hbal. unfold sentinel in Hbal at 2.
  rewrite Hx in Hbal. lia.
Qed.

(** Then every thread is past the push of its sentinel: about to return,
    or returned. *)
Definition returning h : Prop := h = Some WReturn \/ h = Some WExit.

Lemma ended_returning (ths : list (option WorkerPc)) :
  tot ended ths = length ths -> Forall returning ths.
Proof.
  intros Hall. apply Forall_forall. intros h Hh.
  assert (forall h', ended h' <= 1) as Hb by (intros [[]|]; simpl; lia).
  pose proof (tot_full ended ths h Hb Hall Hh) as Hone.
  destruct h as [[]|]; try done; [by left|by right].
Qed.

(** The consumer in [BeforeFirst()]. *)
Lemma rewind_minv s g :
  minv s g ->
  step P F Rewind s = Blocked \/
  exists s' g', step P F Rewind s = Ok s' /\ minv s' g'.
Proof using Hdet.
  intros Hminv. simpl.
  destruct (cpc s) as [|[]| | | | | | |] eqn:Hcp; try by left.
  - (* force_stopped_ = true *)
    right. open_state s.
    destruct Hminv as [Hl Hinv Hdel Hpc Hloans Hn Hq Hc Hnull Hturn Hph Hrew].
    unfold_minv. subst cp. eexists _, g. split; [done|].
    constructor; unfold_minv; try done. tauto.
  - by apply (turn_minv ByDrain1 s g).
  - by apply (turn_minv ByDrain2 s g).
  - right. destruct (enter_minv ByDrain1 s g Hminv Hcp) as (s' & Hs & Hm). eauto.
  - (* the joins *)
    pose proof Hminv as [Hl Hinv Hdel Hpc Hloans Hn Hq Hc Hnull Hturn Hph Hrew].
    rewrite Hcp in Hph, Hturn. simpl in Hph.
    destruct Hph as (Hfs & Halive & Hbal).
    destruct (all_sentinels_in _ Halive Hbal Hturn) as [Hempty Hall].
    destruct Halive as [Hlen Hsome]. unfold join_all.
    destruct (all_ended _) eqn:Hjoin; [|by left].
    rewrite Hn, Hlen, Nat.ltb_irrefl. simpl. right.
    open_state s. unfold_minv. subst cp.
    eexists _, g. split; [done|].
    constructor; unfold_minv; try done.
    + rewrite no_thread_sources. simpl. etrans; [|exact Hloans].
      apply submseteq_inserts_l. done.
    + rewrite no_thread_cells. forall_sub Hc.
  - right. destruct (enter_minv ByDrain2 s g Hminv Hcp) as (s' & Hs & Hm). eauto.
  - (* before_first_() *)
    right. open_state s.
    destruct Hminv as [Hl Hinv Hdel Hpc Hloans Hn Hq Hc Hnull Hturn Hph Hrew].
    unfold_minv. subst cp. eexists _, g. split; [done|].
    constructor; unfold_minv; done.
  - (* loader_->BeforeFirst(), up to the wait *)
    pose proof Hminv as [Hl Hinv Hdel Hpc Hloans Hn Hq Hc Hnull Hturn Hph Hrew].
    rewrite Hcp in Hpc, Hph. simpl in Hph.
    destruct (TP.step_delivers P items Hdet c TI.Rewind g Hinv Hdel)
      as [Hb|(g' & Hg & Hdel')].
    + left. simpl in Hb. rewrite Hpc, Hl in Hb.
      by destruct (TI.BeforeFirst_request P _) as [[[] l']| | |].
    + right. pose proof (TP.step_inv P c _ _ _ Hinv Hg) as Hinv'.
      simpl in Hg. rewrite Hpc, Hl in Hg.
      destruct (TI.BeforeFirst_request P _) as [[back l']| | |]; try done.
      simpl in *. destruct back; injection Hg as <-.
      * open_state s. unfold_minv. subst cp. eexists _, _. split; [done|].
        constructor; unfold_minv; try done; try reflexivity.
        intros _. destruct (TP.delivers_cursor P items _ Hdel') as [E' Hcur'].
        simpl in Hcur'. by pose proof (cursor_snoc_rewound _ _ Hcur') as ->.
      * open_state s. unfold_minv. subst cp. eexists _, _. split; [done|].
        constructor; unfold_minv; try done; try reflexivity.
  - (* loader_->BeforeFirst(), the acknowledgement *)
    pose proof Hminv as [Hl Hinv Hdel Hpc Hloans Hn Hq Hc Hnull Hturn Hph Hrew].
    rewrite Hcp in Hpc, Hph. simpl in Hph.
    destruct (TP.step_delivers P items Hdet c TI.Rewind g Hinv Hdel)
      as [Hb|(g' & Hg & Hdel')].
    + left. simpl in Hb. rewrite Hpc, Hl in Hb.
      by destruct (TI.BeforeFirst_ack P _).
    + right. pose proof (TP.step_inv P c _ _ _ Hinv Hg) as Hinv'.
      simpl in Hg. rewrite Hpc, Hl in Hg.
      destruct (TI.BeforeFirst_ack P _) as [l'| | |]; try done.
      simpl in *. injection Hg as <-.
      open_state s. unfold_minv. subst cp. eexists _, _. split; [done|].
      constructor; unfold_minv; try done; try reflexivity.
      intros _. destruct (TP.delivers_cursor P items _ Hdel') as [E' Hcur'].
      simpl in Hcur'. by pose proof (cursor_snoc_rewound _ _ Hcur') as ->.
  - (* the threads are started again *)
    right. open_state s.
    destruct Hminv as [Hl Hinv Hdel Hpc Hloans Hn Hq Hc Hnull Hturn Hph Hrew].
    unfold_minv. subst cp tn. destruct Hph as (-> & -> & Hfifo & ->).
    eexists _, g. split; [done|].
    rewrite no_thread_sources in Hloans. rewrite no_thread_cells in Hc.
    unfold launch. simpl.
    constructor; unfold_minv; try done; try lia.
    + by rewrite new_thread_sources.
    + by rewrite new_thread_cells.
    + rewrite Hfifo, length_replicate, !tot_replicate, tally_snoc. simpl.
      split_and!; try done; try lia.
      * apply Forall_replicate. eauto.
      * intros; by left.
      * exists items. split_and!; [by apply Hrew|lia|right; lia].
Qed.

(** Every section keeps the invariant, and none fails. *)
Lemma step_minv mv s g :
  minv s g ->
  step P F mv s = Blocked \/ exists s' g', step P F mv s = Ok s' /\ minv s' g'.
Proof using Hdet.
  intros Hminv. destruct mv as [|tid| |].
  - destruct (feed_minv s g Hminv) as [[? _]|(s' & g' & ? & ? & _)]; eauto.
  - by apply (work_minv tid s g).
  - by apply (advance_minv s g).
  - by apply (rewind_minv s g).
Qed.

Lemma run_minv sched s g :
  minv s g -> exists s' g', run P F sched s = Ok s' /\ minv s' g'.
Proof using Hdet.
  revert s g. induction sched as [|mv sched IH]; intros s g Hminv; simpl; [eauto|].
  destruct (step_minv mv s g Hminv) as [->|(s1 & g1 & -> & Hm1)]; eauto.
Qed.

Lemma run_append sched1 sched2 s s1 :
  run P F sched1 s = Ok s1 -> run P F (sched1 ++ sched2) s = run P F sched2 s1.
Proof.
  revert s. induction sched1 as [|mv sched1 IH]; intros s; simpl.
  - by intros [= ->].
  - destruct (step P F mv s); try done; apply IH.
Qed.

Lemma run_cons mv sched s :
  run P F (mv :: sched) s =
    match step P F mv s with
    | Ok s' => run P F sched s'
    | Blocked => run P F sched s
    | Fatal => Fatal
    | Undefined flt => Undefined flt
    end.
Proof. reflexivity. Qed.

Lemma upstream_run_cons mv sched g :
  TI.run P (mv :: sched) g =
    match TI.step P mv g with
    | Ok g' => TI.run P sched g'
    | Blocked => TI.run P sched g
    | Fatal => Fatal
    | Undefined flt => Undefined flt
    end.
Proof. reflexivity. Qed.

Lemma run_step mv s s1 : step P F mv s = Ok s1 -> run P F [mv] s = Ok s1.
Proof. simpl. by intros ->. Qed.

(** *** What the threads leave alone *)

(** The part of the state that only the consumer thread writes. *)
Definition same_control s s' : Prop :=
  cpc s' = cpc s /\ seen s' = seen s /\ resets (world s') = resets (world s) /\
  out_data_ (iter (world s')) = out_data_ (iter (world s)) /\
  null_cell_num_ (iter (world s')) = null_cell_num_ (iter (world s)) /\
  force_stopped_ (iter (world s')) = force_stopped_ (iter (world s)) /\
  thread_num_ (iter (world s')) = thread_num_ (iter (world s)).

Lemma same_control_refl s : same_control s s.
Proof. by repeat split. Qed.

Lemma same_control_trans s1 s2 s3 :
  same_control s1 s2 -> same_control s2 s3 -> same_control s1 s3.
Proof.
  unfold same_control. intros (?&?&?&?&?&?&?) (?&?&?&?&?&?&?).
  split_and!; congruence.
Qed.

Lemma feed_shape s s' :
  step P F Feed s = Ok s' ->
  same_control s s' /\
  producer_threads_ (iter (world s')) = producer_threads_ (iter (world s)) /\
  the_fifo (iter (world s')) = the_fifo (iter (world s)).
Proof.
  simpl. unfold loader_thread. intros (w' & (l' & _ & [= <-])%TP.obind_Ok & [= <-])%TP.obind_Ok.
  by repeat split.
Qed.

(** One section of a worker, by the place it is at. *)
Lemma work_shape tid s s' :
  step P F (Work tid) s = Ok s' ->
  (exists bq, queue_ (iter (world s)) = Some bq /\ killed bq = false) ->
  exists pc pc',
    producer_threads_ (iter (world s)) !! tid = Some (Some pc) /\
    producer_threads_ (iter (world s')) =
      <[tid := Some pc']> (producer_threads_ (iter (world s))) /\
    same_control s s' /\
    match pc with
    | WNext =>
        the_fifo (iter (world s')) = the_fifo (iter (world s)) /\
        (pc' = WPushNull \/ exists src, pc' = WCheck src)
    | WCheck src =>
        the_fifo (iter (world s')) = the_fifo (iter (world s)) /\
        pc' = if force_stopped_ (iter (world s)) then WPushNull else WTake src
    | WTake src =>
        the_fifo (iter (world s')) = the_fifo (iter (world s)) /\
        exists cell, pc' = WCall cell src
    | WCall _ src =>
        the_fifo (iter (world s')) = the_fifo (iter (world s)) /\
        exists cell, pc' = WPush cell src
    | WPush cell src =>
        the_fifo (iter (world s')) = the_fifo (iter (world s)) ++ [(cell, src)] /\
        pc' = WNext
    | WPushNull =>
        the_fifo (iter (world s')) = the_fifo (iter (world s)) ++ [(None, None)] /\
        pc' = WReturn
    | WReturn =>
        the_fifo (iter (world s')) = the_fifo (iter (world s)) /\
        pc' = WExit
    | WExit => False
    end.
Proof.
  open_state s. intros Hs ([ff bcap kd] & Hq & Hkd). simpl in *. subst bq kd.
  apply TP.obind_Ok in Hs as (w' & Hw & [= <-]).
  unfold producer_thread_body_ in Hw. simpl in Hw.
  destruct (ths !! tid) as [[pc|]|] eqn:Hlook; try done.
  exists pc. unfold the_fifo, same_control.
  destruct pc as [|src|src|cell src|cell src| | |]; simpl in *; try done.
  - apply TP.obind_Ok in Hw as ([[more src] l'] & Hn & [= <-]).
    eexists. split_and!; try done. destruct more; eauto.
  - injection Hw as <-. eexists. by split_and!.
  - destruct fc; injection Hw as <-; eexists; split_and!; eauto.
  - apply TP.obind_Ok in Hw as ([cell' w1] & Ht & [= <-]).
    unfold transform in Ht. simpl in Ht.
    destruct src as [a|]; [|done].
    destruct (cell_value (TI.cells P l) a); [|done].
    destruct cell; simplify_eq/=; eexists; split_and!; eauto.
  - unfold push_cell, Push in Hw. simpl in Hw.
    destruct (length ff <? bcap); simplify_eq/=. eexists. by split_and!.
  - unfold push_cell, Push in Hw. simpl in Hw.
    destruct (length ff <? bcap); simplify_eq/=. eexists. by split_and!.
  - injection Hw as <-. eexists. by split_and!.
Qed.

(** *** The stages of a rewind, as logged *)

(** The events of [BeforeFirst()], as opposed to the results of the
    calls of [Next()] made by the user. *)
Definition is_stage (o : @Obs T) : bool :=
  match o with Got _ | End => false | _ => true end.

Definition stages (o : list (@Obs T)) : list (@Obs T) := List.filter is_stage o.

(** How many stages of the current rewind are behind the consumer. *)
Definition stage (cp : ConsumerPc) : nat :=
  match cp with
  | Idle | InNext ByUser => 0
  | AtDrain1 | InNext ByDrain1 => 1
  | AtJoin => 2
  | AtDrain2 | InNext ByDrain2 => 3
  | AtReset => 4
  | AtUpstream | AtUpstreamAck => 5
  | AtRelaunch => 6
  end.

(** The log holds [k] whole rewinds and the stages of the current one,
    in the order of [rewind_stages]; the reset closure has run once for
    each; and [out_data_] is NULL from the first drain on. *)
Definition logged (k : nat) s : Prop :=
  stages (seen s) = mjoin (replicate k rewind_stages) ++ take (stage (cpc s)) rewind_stages /\
  resets (world s) = k + (if 5 <=? stage (cpc s) then 1 else 0) /\
  match cpc s with
  | Idle | AtDrain1 | AtDrain2 => True
  | _ => out_data_ (iter (world s)) = None
  end.

Definition linv s : Prop := exists k, logged k s.

Lemma stages_snoc o e :
  stages (o ++ [e]) = stages o ++ (if is_stage e then [e] else []).
Proof. unfold stages. rewrite List.filter_app. simpl. by destruct (is_stage e). Qed.

Lemma rewinds_snoc k :
  mjoin (replicate (S k) (@rewind_stages T)) = mjoin (replicate k rewind_stages) ++ rewind_stages.
Proof.
  induction k as [|k IH]; [done|].
  change (mjoin (replicate (S (S k)) (@rewind_stages T)))
    with (rewind_stages ++ mjoin (replicate (S k) (@rewind_stages T))).
  rewrite IH at 1. by rewrite app_assoc.
Qed.

Lemma linv_boot (p0 : PState P) : linv (boot P n qc c p0).
Proof. exists 0. by repeat split. Qed.

Lemma logged_same k s s' : same_control s s' -> logged k s -> logged k s'.
Proof.
  intros (Hc & Hs & Hr & Ho & _) (Hlog & Hres & Hout). unfold logged.
  by rewrite Hc, Hs, Hr, Ho.
Qed.

(** [Next_enter] in one piece. *)
Lemma Next_enter_eq (w : World (T:=T) P) :
  Next_enter P w =
    (if thread_num_ (iter w) <=? null_cell_num_ (iter w) then Some false else None,
     on_iter P (fun m =>
       set_free_cells P
         (free_cells_ m ++ (if out_data_ m is Some a then [Some a] else []))
         (set_out_data P None m)) w).
Proof.
  destruct w as [[od l tn fs nu ths bq qcap fc] ht rs]. unfold Next_enter. simpl.
  destruct od; simpl; destruct (tn <=? nu);
    unfold on_iter, set_free_cells, set_out_data; simpl;
    rewrite ?app_nil_r; reflexivity.
Qed.

(** What a turn of the loop of [Next(&out_data_)] writes. *)
Lemma Next_turn_cases (w w' : World (T:=T) P) r :
  Next_turn P w = Ok (r, w') ->
  resets w' = resets w /\
  thread_num_ (iter w') = thread_num_ (iter w) /\
  force_stopped_ (iter w') = force_stopped_ (iter w) /\
  producer_threads_ (iter w') = producer_threads_ (iter w) /\
  match r with
  | Some true =>
      null_cell_num_ (iter w') = null_cell_num_ (iter w) /\
      exists a src rest, out_data_ (iter w') = Some a /\
        the_fifo (iter w) = (Some a, src) :: rest /\ the_fifo (iter w') = rest
  | Some false =>
      out_data_ (iter w') = out_data_ (iter w) /\
      ((exists bq, queue_ (iter w) = Some bq /\ killed bq = true) \/
       null_cell_num_ (iter w') = S (null_cell_num_ (iter w)) /\
       null_cell_num_ (iter w') = thread_num_ (iter w) /\
       exists src rest, the_fifo (iter w) = (None, src) :: rest /\
         the_fifo (iter w') = rest)
  | None =>
      out_data_ (iter w') = out_data_ (iter w) /\
      null_cell_num_ (iter w') = S (null_cell_num_ (iter w)) /\
      null_cell_num_ (iter w') <> thread_num_ (iter w) /\
      exists src rest, the_fifo (iter w) = (None, src) :: rest /\
        the_fifo (iter w') = rest
  end.
Proof.
  destruct w as [[od l tn fs nu ths bq qcap fc] ht rs]. unfold Next_turn, Pop, the_fifo.
  simpl. destruct bq as [[ff cap kd]|]; [|done]. simpl.
  destruct kd; simpl.
  { intros [= <- <-]. split_and!; eauto. }
  destruct ff as [|[[a|] src] rest]; simpl; [done| |].
  - intros [= <- <-]. simpl. split_and!; eauto 10.
  - change (match tn with 0 => false | S m' => nu =? m' end) with (S nu =? tn).
    destruct (Nat.eqb_spec (S nu) tn) as [Heq|Hne].
    + intros [= <- <-]. simpl. split_and!; eauto 10.
    + intros [= <- <-]. simpl. split_and!; eauto.
Qed.

Ltac close_logged Hlog :=
  unfold logged; simpl in *; rewrite ?stages_snoc; simpl;
  rewrite ?app_nil_r in *; rewrite ?Hlog, <- ?app_assoc; simpl;
  split_and!; (done || lia || congruence).

Lemma enter_logged by_ s s' k :
  cpc s = call_site by_ -> logged k s -> enter P by_ s = Ok s' -> logged k s'.
Proof.
  intros Hcp (Hlog & Hres & Hout). unfold enter. rewrite Next_enter_eq.
  rewrite Hcp in *. open_state s. simpl in *.
  destruct (tn <=? nu); destruct by_; simpl; intros [= <-]; close_logged Hlog.
Qed.

Lemma turn_logged by_ s s' k :
  cpc s = InNext by_ -> logged k s -> turn P by_ s = Ok s' -> logged k s'.
Proof.
  intros Hcp (Hlog & Hres & Hout). unfold turn.
  intros ([r w'] & Ht & Hs)%TP.obind_Ok.
  apply Next_turn_cases in Ht as (Hrs & _ & _ & _ & Hr).
  rewrite Hcp in *. open_state s. destruct w' as [m' ht' rs']. simpl in *. subst rs'.
  destruct r as [[]|]; destruct by_; simpl in Hs.
  all: try apply TP.obind_Ok in Hs as (v & _ & Hs).
  all: injection Hs as <-.
  all: try destruct Hr as (Ho & _); try rewrite Ho.
  all: close_logged Hlog.
Qed.

Lemma consumer_logged mv s s' k :
  mv = Advance \/ mv = Rewind -> logged k s -> step P F mv s = Ok s' ->
  logged (if cpc s is AtRelaunch then S k else k) s'.
Proof.
  intros Hmv Hlogged Hs.
  destruct Hmv as [-> | ->]; destruct (cpc s) as [|[]| | | | | | |] eqn:Hcp;
    simpl in Hs; rewrite Hcp in Hs; try done.
  - by apply (enter_logged ByUser s).
  - by apply (turn_logged ByUser s).
  - destruct Hlogged as (Hlog & Hres & Hout). rewrite Hcp in *. open_state s.
    injection Hs as <-. close_logged Hlog.
  - by apply (turn_logged ByDrain1 s).
  - by apply (turn_logged ByDrain2 s).
  - by apply (enter_logged ByDrain1 s).
  - destruct Hlogged as (Hlog & Hres & Hout). rewrite Hcp in *. open_state s.
    apply TP.obind_Ok in Hs as (w' & Hw & [= <-]). unfold join_all in Hw.
    simpl in Hw. repeat case_match; simplify_eq. close_logged Hlog.
  - by apply (enter_logged ByDrain2 s).
  - destruct Hlogged as (Hlog & Hres & Hout). rewrite Hcp in *. open_state s.
    injection Hs as <-. close_logged Hlog.
  - destruct Hlogged as (Hlog & Hres & Hout). rewrite Hcp in *. open_state s.
    apply TP.obind_Ok in Hs as ([back l'] & Hw & Hs).
    destruct back; injection Hs as <-; close_logged Hlog.
  - destruct Hlogged as (Hlog & Hres & Hout). rewrite Hcp in *. open_state s.
    apply TP.obind_Ok in Hs as (l' & Hw & [= <-]). close_logged Hlog.
  - destruct Hlogged as (Hlog & Hres & Hout). rewrite Hcp in *. open_state s.
    injection Hs as <-. unfold logged. rewrite rewinds_snoc. simpl in *.
    rewrite stages_snoc, Hlog. simpl. rewrite <- app_assoc, app_nil_r.
    split_and!; (done || lia).
Qed.

Lemma minv_queue s g :
  minv s g -> exists bq, queue_ (iter (world s)) = Some bq /\ killed bq = false.
Proof. intros [_ _ _ _ _ _ (bq & ? & ? & _) _ _ _ _ _]. eauto. Qed.

Lemma step_linv mv s s' g :
  minv s g -> linv s -> step P F mv s = Ok s' -> linv s'.
Proof.
  intros Hminv [k Hlog] Hs. destruct mv as [|tid| |].
  - exists k. apply feed_shape in Hs as [Hsame _]. exact (logged_same k s s' Hsame Hlog).
  - exists k. apply work_shape in Hs as (pc & pc' & _ & _ & Hsame & _);
      [|by eapply minv_queue].
    exact (logged_same k s s' Hsame Hlog).
  - eexists. eapply (consumer_logged Advance); eauto.
  - eexists. eapply (consumer_logged Rewind); eauto.
Qed.

Lemma run_invs sched s g :
  minv s g -> linv s ->
  exists s' g', run P F sched s = Ok s' /\ minv s' g' /\ linv s'.
Proof using Hdet.
  revert s g. induction sched as [|mv sched IH]; intros s g Hminv Hlinv; simpl; [eauto|].
  destruct (step_minv mv s g Hminv) as [->|(s1 & g1 & Hs & Hm1)]; [eauto|].
  rewrite Hs. apply (IH s1 g1 Hm1). exact (step_linv mv s s1 g Hminv Hlinv Hs).
Qed.

(** *** A consumer that only calls [Next()] *)

(** The log of a consumer that never rewinds: records and then ends,
    the ends only once the counter has reached the number of threads. *)
Definition uinv s : Prop :=
  (cpc s = Idle \/ cpc s = InNext ByUser) /\
  exists vs e, seen s = (Got <$> vs) ++ replicate e End /\
    (0 < e -> null_cell_num_ (iter (world s)) = n).

Lemma uinv_boot (p0 : PState P) : uinv (boot P n qc c p0).
Proof. split; [by left|]. exists [], 0. split; [done|]. simpl. lia. Qed.

Lemma tally_user (vs : list T) e : tally ((Got <$> vs) ++ replicate e End) = length vs.
Proof.
  unfold tally. rewrite fold_left_app.
  assert (forall k0, fold_left
            (fun k (o : @Obs T) => match o with Got _ => S k | Relaunched => 0 | _ => k end)
            (Got <$> vs) k0 = k0 + length vs) as ->.
  { induction vs as [|v vs IH]; intros k0; simpl; [lia|]. rewrite IH. lia. }
  induction e as [|e IH]; simpl; [lia|done].
Qed.

Lemma uinv_same s s' : same_control s s' -> uinv s -> uinv s'.
Proof.
  intros (Hc & Hs & _ & _ & Hnu & _) (Hcp & vs & e & Hseen & He). unfold uinv.
  rewrite Hc, Hs, Hnu. eauto.
Qed.

Lemma user_step mv s s' g :
  mv <> Rewind -> minv s g -> uinv s -> step P F mv s = Ok s' -> uinv s'.
Proof.
  intros Hmv Hminv Hu Hs. destruct mv as [|tid| |]; [| | |done].
  - apply feed_shape in Hs as [Hsame _]. exact (uinv_same s s' Hsame Hu).
  - apply work_shape in Hs as (pc & pc' & _ & _ & Hsame & _); [|by eapply minv_queue].
    exact (uinv_same s s' Hsame Hu).
  - destruct Hu as (Hcp & vs & e & Hseen & He).
    pose proof (minv_queue s g Hminv) as (bq & Hbq & Hkd).
    destruct Hminv as [_ _ _ _ _ Hn _ _ Hnull Hturn _ _].
    simpl in Hs. destruct Hcp as [Hcp|Hcp]; rewrite Hcp in *.
    + unfold enter in Hs. rewrite Next_enter_eq in Hs. rewrite Hn in Hs.
      destruct (Nat.leb_spec n (null_cell_num_ (iter (world s)))) as [Hle|Hlt];
        simpl in Hs; injection Hs as <-; (split; [simpl; tauto|]); simpl.
      * exists vs, (S e). split; [|lia].
        rewrite Hseen, <- app_assoc. f_equal.
        change [@End T] with (replicate 1 (@End T)). rewrite <- replicate_add.
        f_equal. lia.
      * exists vs, e. split; [done|]. intros; lia.
    + assert (e = 0) as -> by (destruct e; [done|lia]).
      simpl in Hseen. rewrite app_nil_r in Hseen.
      apply TP.obind_Ok in Hs as ([r w'] & Ht & Hs).
      apply Next_turn_cases in Ht as (_ & _ & _ & _ & Hr).
      destruct r as [[]|]; simpl in Hs.
      * apply TP.obind_Ok in Hs as (v & _ & [= <-]). split; [simpl; tauto|]. simpl.
        exists (vs ++ [v]), 0. split; [|lia].
        by rewrite Hseen, fmap_app, app_nil_r.
      * injection Hs as <-. split; [simpl; tauto|]. simpl.
        exists vs, 1. split; [by rewrite Hseen|].
        intros _. destruct Hr as (_ & [(bq' & Hbq' & Hkd')|(_ & -> & _)]); congruence.
      * injection Hs as <-. split; [simpl; tauto|]. simpl.
        exists vs, 0. split; [by rewrite Hseen, app_nil_r|lia].
Qed.

Lemma run_user sched s g :
  Rewind ∉ sched -> minv s g -> uinv s ->
  exists s' g', run P F sched s = Ok s' /\ minv s' g' /\ uinv s'.
Proof using Hdet.
  revert s g. induction sched as [|mv sched IH]; intros s g Hno Hminv Hu; simpl; [eauto|].
  apply not_elem_of_cons in Hno as [Hmv Hno].
  destruct (step_minv mv s g Hminv) as [->|(s1 & g1 & Hs & Hm1)]; [eauto|].
  rewrite Hs. apply (IH s1 g1 Hno Hm1).
  apply (user_step mv s s1 g); [congruence|done..].
Qed.

(** Threads that have all ended hold nothing. *)
Lemma all_exited (ths : list (option WorkerPc)) :
  tot ended ths = length ths ->
  tot carrying ths = 0 /\ tot finishing ths = length ths.
Proof.
  assert (forall h, ended h <= 1) as Hb by (intros [[]|]; simpl; lia).
  induction ths as [|h ths IH]; simpl; [done|]. intros Hall.
  pose proof (tot_le ended ths 1 Hb) as Hle. pose proof (Hb h) as Hh.
  destruct IH as [IH1 IH2]; [lia|].
  assert (ended h = 1) as Hone by lia.
  destruct h as [[]|]; simpl in *; try done; lia.
Qed.

(** The calls that returned true are at most the source records, and
    all of them once the counter has reached the number of threads. *)
Lemma user_count s g :
  minv s g -> cpc s = Idle \/ cpc s = InNext ByUser ->
  tally (seen s) <= length items /\
  (0 < n -> null_cell_num_ (iter (world s)) = n -> tally (seen s) = length items).
Proof.
  intros [_ _ _ _ _ _ _ _ _ _ Hph _] Hcp.
  assert (phase_of (cpc s) = Running) as Hrun by (by destruct Hcp as [-> | ->]).
  rewrite Hrun in Hph. destruct Hph as (_ & Halive & Hbal & (E & _ & Hacc & Hfin)).
  split; [lia|]. intros Hn Hnull.
  destruct (all_sentinels_in _ Halive Hbal Hnull) as [Hempty Hall].
  destruct Halive as [Hlen _]. rewrite <- Hlen in Hall.
  destruct (all_exited _ Hall) as [Hcar Hfinish].
  rewrite Hempty, Hcar in Hacc. simpl in Hacc.
  destruct Hfin as [-> | Hzero]; [simpl in Hacc; lia|lia].
Qed.

(** *** Progress *)

(** The threads and the queue are as they were. *)
Definition same_work s s' : Prop :=
  producer_threads_ (iter (world s')) = producer_threads_ (iter (world s)) /\
  the_fifo (iter (world s')) = the_fifo (iter (world s)).

(** The producer thread of the upstream pipe runs [k] sections. *)
Lemma feed_n k s g :
  minv s g ->
  exists s' g', run P F (replicate k Feed) s = Ok s' /\ minv s' g' /\
    TI.run P (replicate k TI.Produce) g = Ok g' /\
    same_control s s' /\ same_work s s'.
Proof using Hdet.
  revert s g. induction k as [|k IH]; intros s g Hminv.
  - exists s, g. split_and!; done.
  - rewrite !replicate_S, run_cons, upstream_run_cons.
    destruct (feed_minv s g Hminv) as [[-> ->]|(s1 & g1 & Hs & Hm1 & Hg & _)].
    + by apply IH.
    + rewrite Hs, Hg. destruct (IH s1 g1 Hm1) as (s' & g' & Hr & Hm & Hgr & Hc & Hw).
      apply feed_shape in Hs as (Hc1 & Hw1).
      exists s', g'. split_and!; try done.
      * by eapply same_control_trans.
      * destruct Hw, Hw1. split; congruence.
Qed.

(** After four sections of its producer thread, a call of [Next] on
    the upstream pipe does not have to wait. *)
Lemma feed_ready s g :
  minv s g -> 0 < c -> TI.cpc P g = TI.Idle ->
  exists s' g', run P F (replicate 4 Feed) s = Ok s' /\ minv s' g' /\
    same_control s s' /\ same_work s s' /\
    TI.cpc P g' = TI.Idle /\
    TP.to_ready (TI.iter P (loader_ (iter (world s')))) = 0.
Proof using Hdet.
  intros Hminv Hc Hidle.
  destruct (feed_n 4 s g Hminv) as (s' & g' & Hr & Hm & Hgr & Hsc & Hsw).
  exists s', g'. split_and!; try done.
  - apply TP.run_produce_frame in Hgr as (-> & _). done.
  - pose proof Hminv as [_ Hinv Hdel _ _ _ _ _ _ _ _ _].
    assert (TI.producer_sig_ (TI.iter P (TI.world P g)) = TI.kProduce) as Hsig.
    { destruct Hinv as [_ _ Hsig _ _ _ _].
      destruct (TI.producer_sig_ _); [done| |done]. destruct Hsig. congruence. }
    assert (exists E, TP.supply P items (TI.world P g) E) as [E Hsup].
    { unfold TP.delivers in Hdel. rewrite Hidle in Hdel.
      destruct Hdel as (E & ? & _). eauto. }
    destruct (TP.produce_n P items Hdet c 4 g E Hinv Hc Hsig Hsup)
      as (g2 & Hg2 & _ & _ & _ & Hle).
    assert (g2 = g') as -> by congruence.
    destruct Hm as [<- _ _ _ _ _ _ _ _ _ _ _].
    assert (TP.to_ready (TI.iter P (TI.world P g)) <= 4) as H4.
    { unfold TP.to_ready. repeat case_match; lia. }
    lia.
Qed.

(** When the next section of a worker at [pc] can run. *)
Definition enabled s (pc : WorkerPc) : Prop :=
  match pc with
  | WNext => TP.to_ready (TI.iter P (loader_ (iter (world s)))) = 0
  | WPush _ _ | WPushNull => length (the_fifo (iter (world s))) < qc
  | WExit => False
  | _ => True
  end.

Lemma work_progress tid s g pc :
  minv s g -> producer_threads_ (iter (world s)) !! tid = Some (Some pc) ->
  enabled s pc ->
  exists s' g', step P F (Work tid) s = Ok s' /\ minv s' g'.
Proof using Hdet.
  intros Hminv Hlook Hen.
  destruct (work_minv tid s g Hminv) as [Hb|?]; [exfalso|done].
  destruct (thread_phase s g tid pc Hminv Hlook) as [_ Hidle].
  destruct Hminv as [Hl Hinv _ _ _ _ ([ff cap kd] & Hq & Hkd & Hcap) _ _ _ _ _].
  simpl in Hb. unfold producer_thread_body_ in Hb. rewrite Hlook in Hb.
  unfold enabled, the_fifo in Hen. rewrite Hq in Hen. simpl in *. subst kd cap.
  destruct pc as [|src|src|cell src|cell src| | |]; simpl in Hb; try done.
  - apply TP.to_ready_0 in Hen.
    destruct Hinv as [_ _ Hsig _ _ _ _]. rewrite Hl in Hsig.
    unfold TI.Next in Hb.
    destruct (TI.producer_sig_ _); [|by destruct Hsig; congruence|done].
    destruct (TI.queue_ _); [|done].
    destruct (TI.produce_end_ _); [done|]. by destruct Hen.
  - by destruct (free_cells_ _).
  - unfold transform in Hb. destruct src as [a|]; [|done].
    destruct (cell_value _ a); [|done]. by destruct cell.
  - unfold push_cell, Push in Hb. rewrite Hq in Hb. simpl in Hb.
    apply Nat.ltb_lt in Hen. by rewrite Hen in Hb.
  - unfold push_cell, Push in Hb. rewrite Hq in Hb. simpl in Hb.
    apply Nat.ltb_lt in Hen. by rewrite Hen in Hb.
Qed.

(** The records that can still reach the consumer once the threads
    are told to stop: those queued, and those held by a thread that is
    past the test of [force_stopped_]. *)
Definition past h : nat :=
  match h with
  | Some (WTake _) | Some (WCall _ _) | Some (WPush _ _) => 1
  | _ => 0
  end.

Definition dpend s : nat :=
  tot record (the_fifo (iter (world s))) + tot past (producer_threads_ (iter (world s))).

Lemma same_work_dpend s s' : same_work s s' -> dpend s' = dpend s.
Proof. intros [Ht Hf]. unfold dpend. by rewrite Ht, Hf. Qed.

Lemma work_dpend tid s s' g :
  minv s g -> step P F (Work tid) s = Ok s' ->
  force_stopped_ (iter (world s)) = true -> dpend s' <= dpend s.
Proof.
  intros Hminv Hs Hfs.
  apply work_shape in Hs as (pc & pc' & Hlook & Hths & _ & Hpc); [|by eapply minv_queue].
  unfold dpend. rewrite Hths.
  pose proof (tot_insert past _ tid _ (Some pc') Hlook) as Htot.
  rewrite Hfs in Hpc.
  destruct pc as [|src|src|cell src|cell src| | |]; try done.
  - destruct Hpc as (-> & [-> | (src & ->)]); simpl in *; lia.
  - destruct Hpc as (-> & ->); simpl in *; lia.
  - destruct Hpc as (-> & (cell & ->)); simpl in *; lia.
  - destruct Hpc as (-> & (cell' & ->)); simpl in *; lia.
  - destruct Hpc as (-> & ->). rewrite tot_app. simpl in *.
    unfold record at 2. simpl. destruct cell; lia.
  - destruct Hpc as (-> & ->). rewrite tot_app. simpl in *. lia.
  - destruct Hpc as (-> & ->). simpl in *. lia.
Qed.

(** The moves of the threads other than the consumer. *)
Definition background (mv : Move) : Prop :=
  match mv with Feed | Work _ => True | _ => False end.

(** How far a worker is from its next push. *)
Definition dist (pc : WorkerPc) : nat :=
  match pc with
  | WNext => 5
  | WCheck _ => 4
  | WTake _ => 3
  | WCall _ _ => 2
  | WPush _ _ | WPushNull => 1
  | WReturn | WExit => 0
  end.

(** One section of a worker that can run, while the queue is empty:
    it pushes, or it gets nearer to its push. *)
Lemma drive_step tid s g pc :
  minv s g -> producer_threads_ (iter (world s)) !! tid = Some (Some pc) ->
  enabled s pc -> the_fifo (iter (world s)) = [] -> 0 < dist pc ->
  exists s1 g1, step P F (Work tid) s = Ok s1 /\ minv s1 g1 /\ same_control s s1 /\
    (force_stopped_ (iter (world s)) = true -> dpend s1 <= dpend s) /\
    (the_fifo (iter (world s1)) <> [] \/
     the_fifo (iter (world s1)) = [] /\
     exists pc', producer_threads_ (iter (world s1)) !! tid = Some (Some pc') /\
       0 < dist pc' < dist pc).
Proof using Hdet.
  intros Hminv Hlook Hen Hempty Hd.
  destruct (work_progress tid s g pc Hminv Hlook Hen) as (s1 & g1 & Hs & Hm1).
  exists s1, g1. split_and!; try done.
  - apply work_shape in Hs as (pc0 & pc' & _ & _ & Hsame & _); [done|by eapply minv_queue].
  - by apply (work_dpend tid s s1 g).
  - apply work_shape in Hs as (pc0 & pc' & Hlook0 & Hths & _ & Hpc);
      [|by eapply minv_queue].
    assert (pc0 = pc) as -> by congruence.
    assert (producer_threads_ (iter (world s1)) !! tid = Some (Some pc')) as Hlook1.
    { rewrite Hths. apply list_lookup_insert_eq. by eapply lookup_lt_Some. }
    rewrite Hempty in Hpc.
    destruct pc as [|src|src|cell src|cell src| | |]; try done; [..|simpl in Hd; lia].
    + destruct Hpc as (-> & [-> | (src & ->)]); right; (split; [done|]);
        eexists; (split; [done|]); simpl; lia.
    + destruct Hpc as (-> & ->). right. split; [done|]. eexists. split; [done|].
      destruct (force_stopped_ _); simpl; lia.
    + destruct Hpc as (-> & (cell & ->)). right. split; [done|]. eexists.
      split; [done|]. simpl; lia.
    + destruct Hpc as (-> & (cell' & ->)). right. split; [done|]. eexists.
      split; [done|]. simpl; lia.
    + destruct Hpc as (-> & ->). by left.
    + destruct Hpc as (-> & ->). by left.
Qed.

(** A worker that has not ended, driven until the queue holds an entry. *)
Lemma drive d tid s g pc :
  0 < qc -> 0 < c -> minv s g ->
  the_fifo (iter (world s)) = [] ->
  producer_threads_ (iter (world s)) !! tid = Some (Some pc) ->
  0 < dist pc <= d ->
  exists sched s' g',
    Forall background sched /\ run P F sched s = Ok s' /\ minv s' g' /\
    same_control s s' /\ the_fifo (iter (world s')) <> [] /\
    (force_stopped_ (iter (world s)) = true -> dpend s' <= dpend s).
Proof using Hdet.
  intros Hqc Hc. revert s g pc.
  induction d as [|d IH]; intros s g pc Hminv Hempty Hlook Hd; [lia|].
  destruct (thread_phase s g tid pc Hminv Hlook) as [_ Hidle].
  destruct (feed_ready s g Hminv Hc Hidle)
    as (s0 & g0 & Hr0 & Hm0 & Hsc0 & [Hths0 Hfifo0] & Hidle0 & Hready).
  assert (enabled s0 pc) as Hen.
  { unfold enabled. rewrite Hfifo0, Hempty. simpl.
    destruct pc; try done; simpl in Hd; lia. }
  rewrite <- Hths0 in Hlook. rewrite <- Hfifo0 in Hempty.
  destruct (drive_step tid s0 g0 pc Hm0 Hlook Hen Hempty ltac:(lia))
    as (s1 & g1 & Hs1 & Hm1 & Hsc1 & Hdp1 & Hcase).
  assert (force_stopped_ (iter (world s0)) = force_stopped_ (iter (world s))) as Hfs0
    by apply Hsc0.
  assert (force_stopped_ (iter (world s1)) = force_stopped_ (iter (world s0))) as Hfs1
    by apply Hsc1.
  assert (dpend s0 = dpend s) as Hdp0 by (by apply same_work_dpend).
  assert (Forall background (replicate 4 Feed ++ [Work tid])) as Hbg.
  { repeat constructor. }
  assert (run P F (replicate 4 Feed ++ [Work tid]) s = Ok s1) as Hrun.
  { rewrite (run_append _ _ _ _ Hr0). by apply run_step. }
  destruct Hcase as [Hfull|(Hempty1 & pc' & Hlook1 & Hd1)].
  - exists (replicate 4 Feed ++ [Work tid]), s1, g1. split_and!; try done.
    + by eapply same_control_trans.
    + intros Hfs. rewrite <- Hdp0. apply Hdp1. congruence.
  - destruct (IH s1 g1 pc' Hm1 Hempty1 Hlook1) as (sched & s' & g' & Hbg' & Hr & Hm & Hsc & Hne & Hdp);
      [lia|].
    exists ((replicate 4 Feed ++ [Work tid]) ++ sched), s', g'. split_and!; try done.
    + by apply Forall_app.
    + by rewrite (run_append _ _ _ _ Hrun).
    + eapply same_control_trans; [|done]. by eapply same_control_trans.
    + intros Hfs. etrans; [apply Hdp; congruence|].
      rewrite <- Hdp0. apply Hdp1. congruence.
Qed.

Lemma live_thread (ths : list (option WorkerPc)) :
  Forall is_Some ths -> tot ended ths < length ths ->
  exists tid pc, ths !! tid = Some (Some pc) /\ 0 < dist pc.
Proof.
  induction 1 as [|h ths [pc ->] _ IH]; simpl; [lia|]. intros Hlt.
  destruct (ended (Some pc)) as [|e] eqn:Hpc.
  - exists 0, pc. split; [done|]. destruct pc; simpl in *; (done || lia).
  - destruct IH as (tid & pc' & Hlook & Hpc'); [destruct pc; simpl in *; (done || lia)|].
    by exists (S tid), pc'.
Qed.

(** In a call of [Next()], the threads can always bring the queue to
    hold an entry. *)
Lemma fill_queue by_ s g :
  0 < qc -> 0 < c -> minv s g -> cpc s = InNext by_ ->
  exists sched s' g',
    Forall background sched /\ run P F sched s = Ok s' /\ minv s' g' /\
    same_control s s' /\ the_fifo (iter (world s')) <> [] /\
    (force_stopped_ (iter (world s)) = true -> dpend s' <= dpend s).
Proof using Hdet.
  intros Hqc Hc Hminv Hcp.
  destruct (the_fifo (iter (world s))) as [|x rest] eqn:Hfifo.
  2: { exists [], s, g. split_and!; try done. by rewrite Hfifo. }
  assert (exists tid pc, producer_threads_ (iter (world s)) !! tid = Some (Some pc) /\
            0 < dist pc) as (tid & pc & Hlook & Hpc).
  { destruct Hminv as [_ _ _ _ _ _ _ _ _ Hturn Hph _]. rewrite Hcp in Hturn, Hph.
    assert (alive (iter (world s)) /\ balanced (iter (world s))) as [[Hlen Hsome] [Hbal _]].
    { destruct by_; simpl in Hph; tauto. }
    rewrite Hfifo in Hbal. simpl in Hbal.
    apply live_thread; [done|lia]. }
  apply (drive 5 tid s g pc); try done.
  destruct pc; simpl in *; lia.
Qed.

(** The move of the consumer in a call of [Next()] made by [by_]. *)
Definition mover (by_ : Caller) : Move :=
  match by_ with ByUser => Advance | _ => Rewind end.

Definition for_call (by_ : Caller) (mv : Move) : Prop :=
  background mv \/ mv = mover by_.

Lemma background_for_call by_ sched :
  Forall background sched -> Forall (for_call by_) sched.
Proof. intros H. eapply Forall_impl; [exact H|]. intros mv ?. by left. Qed.

Lemma returned_world by_ more (w : World (T:=T) P) o s' :
  returned P by_ more w o = Ok s' -> world s' = w.
Proof.
  destruct by_, more; simpl; try (by intros [= <-]).
  by intros (v & _ & [= <-])%TP.obind_Ok.
Qed.

Lemma step_mover by_ s :
  cpc s = InNext by_ -> step P F (mover by_) s = turn P by_ s.
Proof. intros Hcp. destruct by_; simpl; by rewrite Hcp. Qed.

Lemma turn_not_blocked by_ s g :
  minv s g -> the_fifo (iter (world s)) <> [] -> turn P by_ s <> Blocked.
Proof.
  intros Hminv Hne. destruct (minv_queue s g Hminv) as ([ff cap kd] & Hq & Hkd).
  unfold the_fifo in Hne. rewrite Hq in Hne. simpl in *. subst kd.
  unfold turn, Next_turn, Pop. rewrite Hq. simpl.
  destruct ff as [|[[a|] src] rest]; [done|..]; simpl.
  - destruct by_; simpl; try done. unfold Value. simpl.
    by destruct (cell_value _ a).
  - repeat case_match; simpl; try done; by destruct by_.
Qed.

(** A call of [Next()] that has entered its loop returns: true with a
    record, or false once the counter has reached the number of
    threads. *)
Lemma next_call by_ k s g :
  0 < qc -> 0 < c -> minv s g -> cpc s = InNext by_ ->
  n - null_cell_num_ (iter (world s)) <= k ->
  exists sched s' g' more,
    Forall (for_call by_) sched /\ run P F sched s = Ok s' /\ minv s' g' /\
    returned P by_ more (world s') (seen s) = Ok s' /\
    resets (world s') = resets (world s) /\
    (more = false -> null_cell_num_ (iter (world s')) = n) /\
    (force_stopped_ (iter (world s)) = true ->
       force_stopped_ (iter (world s')) = true /\
       dpend s' + (if more then 1 else 0) <= dpend s).
Proof using Hdet.
  intros Hqc Hc. revert s g.
  induction k as [|k IH]; intros s g Hminv Hcp Hk.
  { destruct Hminv as [_ _ _ _ _ _ _ _ _ Hturn _ _]. rewrite Hcp in Hturn. lia. }
  destruct (fill_queue by_ s g Hqc Hc Hminv Hcp)
    as (sched1 & s1 & g1 & Hbg1 & Hr1 & Hm1 & Hsc1 & Hne1 & Hdp1).
  pose proof Hsc1 as (Hcp1 & Hseen1 & Hres1 & _ & Hnu1 & Hfs1 & _).
  rewrite Hcp in Hcp1.
  destruct (turn_minv by_ s1 g1 Hm1 Hcp1) as [Hb|(s2 & g2 & Hs2 & Hm2)].
  { by apply (turn_not_blocked by_ s1 g1) in Hb. }
  assert (run P F (sched1 ++ [mover by_]) s = Ok s2) as Hrun.
  { rewrite (run_append _ _ _ _ Hr1). apply run_step. by rewrite step_mover. }
  assert (Forall (for_call by_) (sched1 ++ [mover by_])) as Hfor.
  { apply Forall_app. split; [by apply background_for_call|].
    constructor; [by right|constructor]. }
  pose proof Hs2 as Hturn. unfold turn in Hturn.
  apply TP.obind_Ok in Hturn as ([r w'] & Ht & Hret).
  pose proof (minv_queue s1 g1 Hm1) as (bq & Hbq & Hkd).
  pose proof Hm1 as [_ _ _ _ _ Hn1 _ _ _ _ _ _].
  apply Next_turn_cases in Ht as (Hrs & _ & Hfs & Hths & Hr).
  destruct r as [[]|].
  - (* a record *)
    pose proof (returned_world _ _ _ _ _ Hret) as Hw. subst w'.
    exists (sched1 ++ [mover by_]), s2, g2, true. split_and!; try done.
    + by rewrite <- Hseen1.
    + congruence.
    + intros Hstop. split; [congruence|].
      destruct Hr as (_ & a & src & rest & _ & Hf1 & Hf2).
      specialize (Hdp1 Hstop). unfold dpend in *.
      rewrite Hf2, Hths. rewrite Hf1 in Hdp1. simpl in Hdp1. lia.
  - (* the last sentinel *)
    pose proof (returned_world _ _ _ _ _ Hret) as Hw. subst w'.
    destruct Hr as (_ & [(bq' & Hbq' & Hkd')|(_ & Hnull & src & rest & Hf1 & Hf2)]);
      [congruence|].
    exists (sched1 ++ [mover by_]), s2, g2, false. split_and!; try done.
    + by rewrite <- Hseen1.
    + congruence.
    + intros _. congruence.
    + intros Hstop. split; [congruence|].
      specialize (Hdp1 Hstop). unfold dpend in *.
      rewrite Hf2, Hths. rewrite Hf1 in Hdp1. simpl in Hdp1. lia.
  - (* a sentinel, and the loop goes on *)
    injection Hret as <-. simpl in *.
    destruct Hr as (_ & Hnull & _ & src & rest & Hf1 & Hf2).
    destruct (IH _ g2 Hm2 eq_refl) as (sched & s' & g' & more & Hfor' & Hr' & Hm' & Hret' & Hres' & Hfalse & Hdp');
      [simpl; lia|].
    simpl in *.
    exists ((sched1 ++ [mover by_]) ++ sched), s', g', more. split_and!; try done.
    + by apply Forall_app.
    + by rewrite (run_append _ _ _ _ Hrun).
    + by rewrite <- Hseen1.
    + congruence.
    + intros Hstop. destruct Hdp' as [Hfs' Hdp']; [congruence|]. split; [done|].
      specialize (Hdp1 Hstop). unfold dpend in *. simpl in *.
      rewrite Hf2, Hths in Hdp'. rewrite Hf1 in Hdp1. simpl in Hdp1. lia.
Qed.

Lemma for_call_user sched : Forall (for_call ByUser) sched -> Rewind ∉ sched.
Proof.
  intros Hfor Hin. rewrite Forall_forall in Hfor.
  by destruct (Hfor _ Hin) as [?|?].
Qed.

Lemma step_enter by_ s :
  cpc s = call_site by_ -> step P F (mover by_) s = enter P by_ s.
Proof. intros Hcp. destruct by_; simpl; by rewrite Hcp. Qed.

(** What the user is shown when a call of [Next()] returns. *)
Lemma returned_user more (w : World (T:=T) P) o s' :
  returned P ByUser more w o = Ok s' ->
  cpc s' = Idle /\
  if more then exists v, seen s' = o ++ [Got v] else seen s' = o ++ [End].
Proof.
  destruct more; simpl.
  - intros (v & _ & [= <-])%TP.obind_Ok. eauto.
  - by intros [= <-].
Qed.

(** The user calls [Next()] until it returns false. *)
Lemma user_drain b s g :
  0 < qc -> 0 < c -> minv s g -> cpc s = Idle ->
  length items - tally (seen s) < b ->
  exists sched s' g' more,
    (Rewind ∉ sched) /\ run P F sched s = Ok s' /\ minv s' g' /\ cpc s' = Idle /\
    seen s' = seen s ++ (Got <$> more) ++ [End] /\
    null_cell_num_ (iter (world s')) = n.
Proof using Hdet.
  intros Hqc Hc. revert s g.
  induction b as [|b IH]; intros s g Hminv Hcp Hb; [lia|].
  destruct (enter_minv ByUser s g Hminv Hcp) as (s1 & Hs1 & Hm1).
  assert (run P F [Advance] s = Ok s1) as Hr1.
  { apply run_step. by rewrite (step_enter ByUser). }
  pose proof Hs1 as Hent. unfold enter in Hent. rewrite Next_enter_eq in Hent.
  destruct (Nat.leb_spec (thread_num_ (iter (world s))) (null_cell_num_ (iter (world s))))
    as [Hle|Hlt].
  { (* the counter has reached the number of threads *)
    simpl in Hent. injection Hent as Hent.
    exists [Advance], s1, g, []. split_and!; try done; try (by rewrite <- Hent).
    - apply not_elem_of_cons. split; [done|apply not_elem_of_nil].
    - destruct Hminv as [_ _ _ _ _ Hn _ _ Hnull _ _ _]. rewrite <- Hent. simpl. lia. }
  injection Hent as Hent.
  assert (cpc s1 = InNext ByUser) as Hcp1 by (by rewrite <- Hent).
  assert (seen s1 = seen s) as Hseen1 by (by rewrite <- Hent).
  destruct (next_call ByUser n s1 g Hqc Hc Hm1 Hcp1)
    as (sched & s2 & g2 & more & Hfor & Hr2 & Hm2 & Hret & _ & Hfalse & _); [lia|].
  apply returned_user in Hret as [Hcp2 Hseen2]. rewrite Hseen1 in Hseen2.
  assert (run P F ([Advance] ++ sched) s = Ok s2) as Hrun.
  { by rewrite (run_append _ _ _ _ Hr1). }
  assert (Rewind ∉ [Advance] ++ sched) as Hno.
  { apply for_call_user in Hfor. rewrite elem_of_app, elem_of_cons, elem_of_nil.
    intros [[?|?]|?]; done. }
  destruct more.
  - destruct Hseen2 as [v Hseen2].
    destruct (user_count s2 g2 Hm2 (or_introl Hcp2)) as [Hle _].
    rewrite Hseen2, tally_snoc in Hle.
    destruct (IH s2 g2 Hm2 Hcp2)
      as (sched' & s' & g' & more' & Hno' & Hr' & Hm' & Hcp' & Hseen' & Hnull').
    { rewrite Hseen2, tally_snoc. lia. }
    exists (([Advance] ++ sched) ++ sched'), s', g', (v :: more'). split_and!; try done.
    + rewrite elem_of_app. tauto.
    + by rewrite (run_append _ _ _ _ Hrun).
    + rewrite Hseen', Hseen2, <- app_assoc. done.
  - exists ([Advance] ++ sched), s2, g2, []. split_and!; try done. by apply Hfalse.
Qed.

(** From any state of a pipe whose consumer only calls [Next()], the
    calls can be brought to the one that returns false. *)
Lemma user_finish s g :
  0 < qc -> 0 < c -> minv s g -> cpc s = Idle \/ cpc s = InNext ByUser ->
  exists sched s' g' more,
    (Rewind ∉ sched) /\ run P F sched s = Ok s' /\ minv s' g' /\ cpc s' = Idle /\
    seen s' = seen s ++ (Got <$> more) ++ [End] /\
    null_cell_num_ (iter (world s')) = n.
Proof using Hdet.
  intros Hqc Hc Hminv [Hcp|Hcp].
  { apply (user_drain (S (length items - tally (seen s))) s g); try done. lia. }
  destruct (next_call ByUser n s g Hqc Hc Hminv Hcp)
    as (sched & s2 & g2 & more & Hfor & Hr2 & Hm2 & Hret & _ & Hfalse & _); [lia|].
  apply returned_user in Hret as [Hcp2 Hseen2]. apply for_call_user in Hfor.
  destruct more.
  - destruct Hseen2 as [v Hseen2].
    destruct (user_drain (S (length items - tally (seen s2))) s2 g2 Hqc Hc Hm2 Hcp2)
      as (sched' & s' & g' & more' & Hno' & Hr' & Hm' & Hcp' & Hseen' & Hnull'); [lia|].
    exists (sched ++ sched'), s', g', (v :: more'). split_and!; try done.
    + rewrite elem_of_app. tauto.
    + by rewrite (run_append _ _ _ _ Hr2).
    + rewrite Hseen', Hseen2, <- app_assoc. done.
  - exists sched, s2, g2, []. split_and!; try done. by apply Hfalse.
Qed.

(** *** The rewind runs to its end *)

(** The stages of [BeforeFirst()] other than the two drains. *)
Lemma rewind_shape s s' :
  step P F Rewind s = Ok s' ->
  match cpc s with
  | Idle =>
      cpc s' = AtDrain1 /\ seen s' = seen s ++ [Stopped] /\
      resets (world s') = resets (world s) /\ same_work s s'
  | AtJoin =>
      cpc s' = AtDrain2 /\ seen s' = seen s ++ [Joined] /\
      resets (world s') = resets (world s)
  | AtReset =>
      cpc s' = AtUpstream /\ seen s' = seen s ++ [ResetRun] /\
      resets (world s') = S (resets (world s))
  | AtUpstream =>
      resets (world s') = resets (world s) /\
      (cpc s' = AtRelaunch /\ seen s' = seen s ++ [UpstreamRewound] \/
       cpc s' = AtUpstreamAck /\ seen s' = seen s /\
       TI.producer_sig_ (TI.iter P (loader_ (iter (world s')))) = TI.kBeforeFirst)
  | AtUpstreamAck =>
      cpc s' = AtRelaunch /\ seen s' = seen s ++ [UpstreamRewound] /\
      resets (world s') = resets (world s)
  | AtRelaunch =>
      cpc s' = Idle /\ seen s' = seen s ++ [Relaunched] /\
      resets (world s') = resets (world s) /\
      control P (iter (world s')) =
        (false, 0, replicate (thread_num_ (iter (world s))) (Some WNext),
         queue_ (iter (world s)), out_data_ (iter (world s)))
  | _ => True
  end.
Proof.
  open_state s. simpl. destruct cp as [|[]| | | | | | |]; try done; simpl.
  - by intros [= <-].
  - intros (w' & Hw & [= <-])%TP.obind_Ok. unfold join_all in Hw. simpl in Hw.
    repeat case_match; simplify_eq. done.
  - by intros [= <-].
  - intros ([back l'] & Hw & Hs)%TP.obind_Ok. unfold TI.BeforeFirst_request in Hw.
    destruct back; injection Hs as <-; simpl; (split; [done|]); [by left|right].
    split_and!; try done.
    repeat case_match; simplify_eq/=; done.
  - by intros (l' & Hw & [= <-])%TP.obind_Ok.
  - by intros [= <-].
Qed.

(** The second drain finds the counter at the number of threads. *)
Lemma drain2_shape s g :
  minv s g -> cpc s = AtDrain2 ->
  exists s', step P F Rewind s = Ok s' /\ minv s' g /\ cpc s' = AtReset /\
    seen s' = seen s ++ [Drained] /\ resets (world s') = resets (world s).
Proof.
  intros Hminv Hcp.
  destruct (enter_minv ByDrain2 s g Hminv Hcp) as (s' & Hs & Hm).
  pose proof (step_enter ByDrain2 s Hcp) as Hstep. change (mover ByDrain2) with Rewind in Hstep.
  exists s'. rewrite Hstep. split_and!; try done.
  all: destruct Hminv as [_ _ _ _ _ Hn _ _ _ _ Hph _]; rewrite Hcp in Hph;
    destruct Hph as (_ & _ & _ & Hnull);
    unfold enter in Hs; rewrite Next_enter_eq, Hn, Hnull, Nat.leb_refl in Hs;
    by injection Hs as <-.
Qed.

Lemma returned_drain1 more (w : World (T:=T) P) o s' :
  returned P ByDrain1 more w o = Ok s' ->
  if more then cpc s' = AtDrain1 /\ seen s' = o
  else cpc s' = AtJoin /\ seen s' = o ++ [Drained].
Proof. destruct more; simpl; by intros [= <-]. Qed.

(** The first loop [while (Next()) {}] of [BeforeFirst()] ends. *)
Lemma drain_loop b s g :
  0 < qc -> 0 < c -> minv s g -> cpc s = AtDrain1 -> dpend s < b ->
  exists sched s' g',
    run P F sched s = Ok s' /\ minv s' g' /\ cpc s' = AtJoin /\
    seen s' = seen s ++ [Drained] /\ resets (world s') = resets (world s).
Proof using Hdet.
  intros Hqc Hc. revert s g.
  induction b as [|b IH]; intros s g Hminv Hcp Hb; [lia|].
  destruct (enter_minv ByDrain1 s g Hminv Hcp) as (s1 & Hs1 & Hm1).
  assert (run P F [Rewind] s = Ok s1) as Hr1.
  { apply run_step. by rewrite <- (step_enter ByDrain1 s Hcp) in Hs1. }
  assert (force_stopped_ (iter (world s)) = true) as Hfs.
  { destruct Hminv as [_ _ _ _ _ _ _ _ _ _ Hph _]. rewrite Hcp in Hph. apply Hph. }
  pose proof Hs1 as Hent. unfold enter in Hent. rewrite Next_enter_eq in Hent.
  destruct (_ <=? _).
  { simpl in Hent. injection Hent as Hent.
    exists [Rewind], s1, g. split_and!; try done; by rewrite <- Hent. }
  injection Hent as Hent.
  assert (cpc s1 = InNext ByDrain1) as Hcp1 by (by rewrite <- Hent).
  assert (seen s1 = seen s) as Hseen1 by (by rewrite <- Hent).
  assert (resets (world s1) = resets (world s)) as Hres1 by (by rewrite <- Hent).
  assert (force_stopped_ (iter (world s1)) = true) as Hfs1 by (by rewrite <- Hent).
  assert (dpend s1 = dpend s) as Hdp1 by (by rewrite <- Hent).
  destruct (next_call ByDrain1 n s1 g Hqc Hc Hm1 Hcp1)
    as (sched & s2 & g2 & more & _ & Hr2 & Hm2 & Hret & Hres2 & _ & Hdp2); [lia|].
  apply returned_drain1 in Hret. specialize (Hdp2 Hfs1) as [_ Hdp2].
  assert (run P F ([Rewind] ++ sched) s = Ok s2) as Hrun.
  { by rewrite (run_append _ _ _ _ Hr1). }
  destruct more.
  - destruct Hret as [Hcp2 Hseen2].
    destruct (IH s2 g2 Hm2 Hcp2) as (sched' & s' & g' & Hr' & Hm' & Hcp' & Hseen' & Hres');
      [lia|].
    exists (([Rewind] ++ sched) ++ sched'), s', g'. split_and!; try done.
    + by rewrite (run_append _ _ _ _ Hrun).
    + congruence.
    + congruence.
  - destruct Hret as [Hcp2 Hseen2].
    exists ([Rewind] ++ sched), s2, g2. split_and!; try done; congruence.
Qed.

Lemma run_snoc sched1 sched2 s s1 s2 :
  run P F sched1 s = Ok s1 -> run P F sched2 s1 = Ok s2 ->
  run P F (sched1 ++ sched2) s = Ok s2.
Proof. intros H1 H2. by rewrite (run_append _ _ _ _ H1). Qed.

(** [BeforeFirst()] waits only in its calls of [Next()], in its joins
    and for the acknowledgement of the upstream pipe. *)
Lemma rewind_go s g :
  minv s g ->
  cpc s = Idle \/ cpc s = AtReset \/ cpc s = AtUpstream \/ cpc s = AtRelaunch ->
  exists s' g', step P F Rewind s = Ok s' /\ minv s' g'.
Proof using Hdet.
  intros Hminv Hcp.
  destruct (rewind_minv s g Hminv) as [Hb|?]; [exfalso|done].
  simpl in Hb. destruct Hcp as [Hcp|[Hcp|[Hcp|Hcp]]]; rewrite Hcp in Hb; try done.
  unfold TI.BeforeFirst_request in Hb. repeat case_match; simplify_eq/=.
Qed.

(** At the joins every thread has pushed its sentinel and the consumer
    has popped it.  The joins wait exactly as long as a thread has yet to
    return, and then leave the pipe joined. *)
Lemma join_waits s g :
  minv s g -> cpc s = AtJoin ->
  Forall returning (producer_threads_ (iter (world s))) /\
  (all_ended (producer_threads_ (iter (world s))) = false ->
     step P F Rewind s = Blocked) /\
  (all_ended (producer_threads_ (iter (world s))) = true ->
     exists s' g', step P F Rewind s = Ok s' /\ minv s' g' /\
       joined (iter (world s'))).
Proof using Hdet.
  intros Hminv Hcp.
  pose proof Hminv as [_ _ _ _ _ Hn _ _ _ Hturn Hph _].
  rewrite Hcp in Hph, Hturn. simpl in Hph. destruct Hph as (_ & Halive & Hbal).
  destruct (all_sentinels_in _ Halive Hbal Hturn) as [_ Hall].
  destruct Halive as [Hlen _].
  split_and!.
  - apply ended_returning. congruence.
  - intros Hwait. simpl. rewrite Hcp. unfold join_all. by rewrite Hwait.
  - intros Hdone.
    destruct (rewind_minv s g Hminv) as [Hb|(s' & g' & Hs & Hm)].
    { simpl in Hb. rewrite Hcp in Hb. unfold join_all in Hb.
      by rewrite Hdone, Hn, Hlen, Nat.ltb_irrefl in Hb. }
    exists s', g'. split_and!; try done.
    destruct Hm as [_ _ _ _ _ _ _ _ _ _ Hph' _].
    simpl in Hs. rewrite Hcp in Hs.
    apply TP.obind_Ok in Hs as (w' & _ & [= <-]). exact Hph'.
Qed.

(** Threads about to return. *)
Definition unreturned h : nat := match h with Some WReturn => 1 | _ => 0 end.




Lemma returning_thread (ths : list (option WorkerPc)) :
  Forall returning ths ->
  all_ended ths = true \/ exists tid, ths !! tid = Some (Some WReturn).
Proof.
  induction 1 as [|h ths [->| ->] _ IH]; simpl; [by left| |].
  - right. by exists 0.
  - destruct IH as [->|(tid & Hlook)]; [by left|right; by exists (S tid)].
Qed.

(** The threads that are about to return can all be run to their
    return. *)
Lemma exit_all k s g :
  minv s g -> cpc s = AtJoin ->
  tot unreturned (producer_threads_ (iter (world s))) <= k ->
  exists sched s' g',
    Forall background sched /\ run P F sched s = Ok s' /\ minv s' g' /\
    same_control s s' /\ all_ended (producer_threads_ (iter (world s'))) = true.
Proof using Hdet.
  revert s g. induction k as [|k IH]; intros s g Hminv Hcp Hk.
  all: destruct (join_waits s g Hminv Hcp) as (Hret & _);
    destruct (returning_thread _ Hret) as [Hall|(tid & Hlook)];
    [exists [], s, g; split_and!; try done; apply same_control_refl|].
  all: destruct (work_progress tid s g WReturn Hminv Hlook I) as (s1 & g1 & Hs1 & Hm1);
    pose proof Hs1 as Hshape;
    apply work_shape in Hshape as (pc & pc' & Hlook0 & Hths & Hsame & Hpc);
      [|by eapply minv_queue];
    assert (pc = WReturn) as -> by congruence; destruct Hpc as [_ ->];
    pose proof (tot_insert unreturned _ tid _ (Some WExit) Hlook) as Htot;
    rewrite <- Hths in Htot; simpl in Htot.
  { lia. }
  destruct (IH s1 g1 Hm1) as (sched & s' & g' & Hbg & Hr & Hm & Hsame' & Hall);
    [destruct Hsame as [-> _]; done|lia|].
  exists ([Work tid] ++ sched), s', g'. split_and!; try done.
  - by constructor.
  - eapply run_snoc; [by apply run_step|done].
  - by eapply same_control_trans.
Qed.

(** The rewind of the upstream pipe is served. *)
Lemma upstream_rewound s g :
  minv s g -> cpc s = AtUpstream ->
  exists sched s' g',
    run P F sched s = Ok s' /\ minv s' g' /\ cpc s' = AtRelaunch /\
    seen s' = seen s ++ [UpstreamRewound] /\ resets (world s') = resets (world s).
Proof using Hdet.
  intros Hminv Hcp.
  destruct (rewind_go s g Hminv) as (s1 & g1 & Hs1 & Hm1); [tauto|].
  pose proof (rewind_shape s s1 Hs1) as Hshape. rewrite Hcp in Hshape.
  destruct Hshape as (Hres1 & [(Hcp1 & Hseen1)|(Hcp1 & Hseen1 & Hsig1)]).
  { exists [Rewind], s1, g1. split_and!; try done. by apply run_step. }
  destruct (feed_n 4 s1 g1 Hm1) as (s2 & g2 & Hr2 & Hm2 & Hg2 & Hsc2 & _).
  pose proof Hsc2 as (Hcp2 & Hseen2 & Hres2 & _).
  pose proof Hm1 as [Hl1 Hinv1 Hdel1 _ _ _ _ _ _ _ _ _].
  rewrite <- Hl1 in Hsig1.
  destruct (TP.serve_n P items Hdet c 4 g1 Hinv1 Hdel1 (or_introl Hsig1))
    as (g2' & Hg2' & _ & _ & Hserved).
  assert (g2' = g2) as -> by congruence.
  assert (TI.producer_sig_processed_ (TI.iter P (loader_ (iter (world s2)))) = true)
    as Hproc.
  { destruct Hm2 as [<- _ _ _ _ _ _ _ _ _ _ _].
    unfold TP.to_served in Hserved.
    destruct (TI.producer_sig_processed_ (TI.iter P (TI.world P g2))); [done|].
    repeat case_match; lia. }
  destruct (rewind_minv s2 g2 Hm2) as [Hb|(s3 & g3 & Hs3 & Hm3)].
  { simpl in Hb. rewrite Hcp2, Hcp1 in Hb. unfold TI.BeforeFirst_ack in Hb.
    by rewrite Hproc in Hb. }
  pose proof (rewind_shape s2 s3 Hs3) as Hshape. rewrite Hcp2, Hcp1 in Hshape.
  destruct Hshape as (Hcp3 & Hseen3 & Hres3).
  exists (([Rewind] ++ replicate 4 Feed) ++ [Rewind]), s3, g3. split_and!; try done.
  - eapply run_snoc; [|by apply run_step]. eapply run_snoc; [by apply run_step|done].
  - congruence.
  - congruence.
Qed.

Lemma run_linv sched s s' g :
  minv s g -> linv s -> run P F sched s = Ok s' -> linv s'.
Proof using Hdet.
  intros Hminv Hlinv Hr.
  destruct (run_invs sched s g Hminv Hlinv) as (s2 & g2 & Hr2 & _ & Hl2). congruence.
Qed.

(** The threads are started again on a pipe that is as after [Init]. *)
Lemma relaunch_control (p0 : PState P) s g :
  minv s g -> linv s -> cpc s = AtRelaunch ->
  exists s' g', step P F Rewind s = Ok s' /\ minv s' g' /\ cpc s' = Idle /\
    seen s' = seen s ++ [Relaunched] /\ resets (world s') = resets (world s) /\
    control P (iter (world s')) = control P (iter (world (boot P n qc c p0 : Sys))).
Proof using Hdet.
  intros Hminv [k (_ & _ & Hout)] Hcp.
  destruct (rewind_go s g Hminv) as (s' & g' & Hs & Hm); [tauto|].
  pose proof (rewind_shape s s' Hs) as Hshape. rewrite Hcp in Hshape, Hout.
  destruct Hshape as (Hcp' & Hseen' & Hres' & Hctl).
  exists s', g'. split_and!; try done.
  destruct Hminv as [_ _ _ _ _ Hn ([ff cap kd] & Hq & Hkd & Hcap) _ _ _ Hph _].
  rewrite Hcp in Hph. destruct Hph as (_ & _ & Hfifo & _).
  unfold the_fifo in Hfifo. rewrite Hq in Hfifo. simpl in *. subst ff cap kd.
  by rewrite Hctl, Hn, Hq, Hout.
Qed.

(** A call of [BeforeFirst()] on an idle pipe goes through its stages
    and returns. *)
Lemma rewind_completes (p0 : PState P) s g :
  0 < qc -> 0 < c -> minv s g -> linv s -> cpc s = Idle ->
  exists sched s' g',
    run P F sched s = Ok s' /\ minv s' g' /\ cpc s' = Idle /\
    seen s' = seen s ++ rewind_stages /\
    resets (world s') = S (resets (world s)) /\
    control P (iter (world s')) = control P (iter (world (boot P n qc c p0 : Sys))).
Proof using Hdet.
  intros Hqc Hc Hminv Hlinv Hcp.
  (* force_stopped_ = true *)
  destruct (rewind_go s g Hminv) as (s1 & g1 & Hs1 & Hm1); [tauto|].
  pose proof (rewind_shape s s1 Hs1) as Hshape. rewrite Hcp in Hshape.
  destruct Hshape as (Hcp1 & Hseen1 & Hres1 & Hw1).
  pose proof (run_step _ _ _ Hs1) as Hr1.
  (* while (Next()) {} *)
  destruct (drain_loop (S (dpend s1)) s1 g1 Hqc Hc Hm1 Hcp1)
    as (sched2 & s2 & g2 & Hr2 & Hm2 & Hcp2 & Hseen2 & Hres2); [lia|].
  pose proof (run_snoc _ _ _ _ _ Hr1 Hr2) as Hrun2.
  (* the threads return, and are joined *)
  destruct (exit_all _ s2 g2 Hm2 Hcp2 (Nat.le_refl _))
    as (schedj & sj & gj & _ & Hrj & Hmj & (Hcpj & Hseenj & Hresj & _) & Hall).
  rewrite Hcp2 in Hcpj.
  destruct (join_waits sj gj Hmj Hcpj) as (_ & _ & Hjoin).
  destruct (Hjoin Hall) as (s3 & g3 & Hs3 & Hm3 & _).
  pose proof (rewind_shape sj s3 Hs3) as Hshape. rewrite Hcpj in Hshape.
  destruct Hshape as (Hcp3 & Hseen3 & Hres3).
  pose proof (run_snoc _ _ _ _ _ (run_snoc _ _ _ _ _ Hrun2 Hrj) (run_step _ _ _ Hs3))
    as Hrun3.
  (* while (Next()) {} *)
  destruct (drain2_shape s3 g3 Hm3 Hcp3) as (s4 & Hs4 & Hm4 & Hcp4 & Hseen4 & Hres4).
  pose proof (run_snoc _ _ _ _ _ Hrun3 (run_step _ _ _ Hs4)) as Hrun4.
  (* before_first_() *)
  destruct (rewind_go s4 g3 Hm4) as (s5 & g5 & Hs5 & Hm5); [tauto|].
  pose proof (rewind_shape s4 s5 Hs5) as Hshape. rewrite Hcp4 in Hshape.
  destruct Hshape as (Hcp5 & Hseen5 & Hres5).
  pose proof (run_snoc _ _ _ _ _ Hrun4 (run_step _ _ _ Hs5)) as Hrun5.
  (* loader_->BeforeFirst() *)
  destruct (upstream_rewound s5 g5 Hm5 Hcp5)
    as (sched6 & s6 & g6 & Hr6 & Hm6 & Hcp6 & Hseen6 & Hres6).
  pose proof (run_snoc _ _ _ _ _ Hrun5 Hr6) as Hrun6.
  (* the threads *)
  pose proof (run_linv _ _ _ _ Hminv Hlinv Hrun6) as Hlinv6.
  destruct (relaunch_control p0 s6 g6 Hm6 Hlinv6 Hcp6)
    as (s7 & g7 & Hs7 & Hm7 & Hcp7 & Hseen7 & Hres7 & Hctl).
  pose proof (run_snoc _ _ _ _ _ Hrun6 (run_step _ _ _ Hs7)) as Hrun7.
  eexists _, s7, g7. split_and!; try done.
  - rewrite Hseen7, Hseen6, Hseen5, Hseen4, Hseen3, Hseenj, Hseen2, Hseen1.
    by rewrite <- !app_assoc.
  - congruence.
Qed.

Lemma tally_more (o : list (@Obs T)) (more : list T) :
  tally (o ++ (Got <$> more) ++ [End]) = tally o + length more.
Proof.
  revert o. induction more as [|v more IH]; intros o; simpl.
  - rewrite tally_snoc. lia.
  - rewrite cons_middle, app_assoc, IH, tally_snoc. lia.
Qed.

(** ** The claims on the multi-producer pipe *)

(** C7.  N workers over an upstream pipe that delivers the M records of
    [items], with a closure [next] that always leaves a cell, holding
    [F] of the record and the number of the worker; the consumer only
    calls [Next()], the threads interleave as the schedule says.  No
    section fails.  What the consumer has
    been shown is some records and then ends: at most M records, and
    exactly M as soon as the counter has reached N (for N >= 1); an end
    is shown only with the counter at N.  In the state reached, the pop
    of a sentinel adds one to the counter, and the call returns false
    there exactly if that makes N; a turn of the loop returns false
    only with the counter at N; and the call returns false before any
    pop exactly if the counter is already N, leaving the queue as it
    is.  With at least one worker and room for one entry in the queue
    and in the upstream pipe, the threads can always be scheduled so
    that the calls return the remaining records, M in all, and then
    false. *)
Theorem Next_true_once_per_record (p0 : PState P) sched :
  Rewind ∉ sched ->
  exists s (vs : list T) e,
    run P F sched (boot P n qc c p0) = Ok s /\
    seen s = (Got <$> vs) ++ replicate e End /\
    length vs <= length items /\
    (0 < e -> null_cell_num_ (iter (world s)) = n) /\
    (0 < n -> null_cell_num_ (iter (world s)) = n -> length vs = length items) /\
    (forall src rest, the_fifo (iter (world s)) = (None, src) :: rest ->
       exists r w', Next_turn P (world s) = Ok (r, w') /\
         null_cell_num_ (iter w') = S (null_cell_num_ (iter (world s))) /\
         the_fifo (iter w') = rest /\
         r = if S (null_cell_num_ (iter (world s))) =? n then Some false else None) /\
    (forall w', Next_turn P (world s) = Ok (Some false, w') ->
       null_cell_num_ (iter w') = n) /\
    (Next_enter P (world s)).1 =
      (if n <=? null_cell_num_ (iter (world s)) then Some false else None) /\
    queue_ (iter (Next_enter P (world s)).2) = queue_ (iter (world s)) /\
    (0 < n -> 0 < qc -> 0 < c ->
       exists sched' s' (more : list T),
         (Rewind ∉ sched') /\ run P F sched' s = Ok s' /\
         seen s' = seen s ++ (Got <$> more) ++ [End] /\
         length vs + length more = length items).
Proof using Hdet.
  intros Hno.
  destruct (run_user sched (boot P n qc c p0) (upstream_boot p0) Hno
              (minv_boot p0) (uinv_boot p0)) as (s & g & Hr & Hminv & Hu).
  pose proof Hu as (Hcp & vs & e & Hseen & He).
  destruct (user_count s g Hminv Hcp) as [Hle Hall].
  rewrite Hseen, tally_user in Hle, Hall.
  pose proof (minv_queue s g Hminv) as ([ff cap kd] & Hq & Hkd).
  pose proof Hminv as [_ _ _ _ _ Hn _ _ _ _ _ _].
  exists s, vs, e. split_and!; try done.
  - intros src rest Hfifo. unfold the_fifo in Hfifo. rewrite Hq in Hfifo.
    simpl in *. subst ff kd. unfold Next_turn, Pop, the_fifo. rewrite Hq, Hn. simpl.
    change (match n with 0 => false | S m' => null_cell_num_ (iter (world s)) =? m' end)
      with (S (null_cell_num_ (iter (world s))) =? n).
    destruct (_ =? _); eexists _, _; split_and!; done.
  - intros w' Ht. apply Next_turn_cases in Ht as (_ & _ & _ & _ & _ & Hr').
    destruct Hr' as [(bq' & Hbq' & Hkd')|(_ & -> & _)]; [|done].
    rewrite Hq in Hbq'. injection Hbq' as <-. simpl in *. congruence.
  - rewrite Next_enter_eq. simpl. by rewrite Hn.
  - by rewrite Next_enter_eq.
  - intros Hn0 Hqc Hc.
    destruct (user_finish s g Hqc Hc Hminv Hcp)
      as (sched' & s' & g' & more & Hno' & Hr' & Hm' & Hcp' & Hseen' & Hnull').
    exists sched', s', more. split_and!; try done.
    destruct (user_count s' g' Hm' (or_introl Hcp')) as [_ Hall'].
    specialize (Hall' Hn0 Hnull'). rewrite Hseen', tally_more, Hseen, tally_user in Hall'.
    done.
Qed.


End Invariant.

(** C9.  On a multi-producer pipe that was constructed and never
    initialised, [Destroy()], and so the destructor, goes through the
    null [queue_]: the call does not return, whatever the number of
    threads asked for.  On a single-producer pipe in that state
    [Destroy()] returns and leaves the pipe as it was. *)
Theorem Destroy_never_initialised {Src T} (P : Producer Src)
    (base : ThreadedIter.World P) (N Q : nat) (h : heap T) (r : nat)
    (cap : nat) (sg : ThreadedIter.Signal) (pr e : bool)
    (hs : heap Src) (p0 : PState P) (d : list ThreadedIter.obj) :
  Destroy P (mkWorld P (construct P base N Q) h r) = Undefined NullDeref /\
  let w := ThreadedIter.mkWorld P (ThreadedIter.construct cap sg pr e) hs p0 d in
  ThreadedIter.Destroy P w = Ok w.
Proof. split; reflexivity. Qed.

(** ** The claims at a concrete pipe *)

#[local] Instance MultiMove_eq_dec : EqDecision Move.
Proof. solve_decision. Defined.

(** A schedule without rewind: the upstream producer, two workers and
    the consumer in turn, long enough for the three records and the
    end. *)
Definition relay : list Move :=
  mjoin (replicate 16 [Feed; Work 0; Work 1; Advance]).

(** C7 with two workers over the producer of [1; 2; 3]: the calls show
    the three records, and then the end, with the sentinels of both
    workers counted. *)
Lemma Next_true_once_per_record_witness :
  exists s vs e,
    run (list_producer [1; 2; 3]) (fun x tid => 10 * x + tid) relay
      (boot (list_producer [1; 2; 3]) 2 4 4 []) = Ok s /\
    seen s = (Got <$> vs) ++ replicate e End /\
    seen s = [Got 10; Got 21; Got 30; End] /\
    null_cell_num_ (iter (world s)) = 2 /\
    length vs = 3.
Proof.
  destruct (Next_true_once_per_record (list_producer [1; 2; 3])
              (fun x tid => 10 * x + tid) [1; 2; 3] 2 4 4)
    with (p0 := @nil nat) (sched := relay) as (s & vs & e & H1 & H2 & H3 & H4 & H5 & _).
  - intros s. exists [1; 2; 3]. split; [reflexivity|]. simpl. repeat split; reflexivity.
  - apply (bool_decide_unpack _). vm_compute. exact I.
  - assert (exists s0,
        run (list_producer [1; 2; 3]) (fun x tid => 10 * x + tid) relay
          (boot (list_producer [1; 2; 3]) 2 4 4 []) = Ok s0 /\
        seen s0 = [Got 10; Got 21; Got 30; End] /\
        null_cell_num_ (iter (world s0)) = 2) as (s0 & R0 & S0 & N0)
      by (eexists; split; [vm_compute; reflexivity|split; reflexivity]).
    assert (s = s0) as -> by congruence.
    exists s0, vs, e. split; [exact H1|]. split; [exact H2|]. split; [exact S0|].
    split; [exact N0|]. apply H5; [lia|exact N0].
Defined.





End MultiThreadedIterProofs.

(** * More on the single-producer pipe *)

Module ThreadedIterFacts.
Import ThreadedIter ThreadedIterProofs.

(** ** Cells that are released *)

Section Release.
Context {T : Type}.
Implicit Types (h : heap T) (a : ptr) (c : cellptr) (v : T).

Lemma cell_value_delete h a : cell_value (<[a := None]> h) a = None.
Proof.
  unfold cell_value. destruct (decide (a < length h)) as [Hlt|Hge].
  - by rewrite list_lookup_insert_eq.
  - rewrite list_insert_ge by lia. rewrite lookup_ge_None_2; [done|lia].
Qed.

Lemma cell_value_delete_ne h a a' :
  a <> a' -> cell_value (<[a := None]> h) a' = cell_value h a'.
Proof. intros H. unfold cell_value. by rewrite list_lookup_insert_ne. Qed.

Lemma allocated_delete h a v :
  cell_value h a = Some v -> S (allocated (<[a := None]> h)) = allocated h.
Proof.
  rewrite cell_value_Some. unfold allocated.
  revert a. induction h as [|x h IH]; intros [|a] H; simplify_eq/=; try done.
  specialize (IH a H). destruct x; simpl; [f_equal|]; exact IH.
Qed.

(** [delete] of the first of the cells that are allocated. *)
Lemma owns_delete h c l :
  owns h (c :: l) ->
  exists h', heap_delete c h = Ok h' /\ owns h' l /\
    forall p v, p ∈ l -> holds h p v -> holds h' p v.
Proof.
  intros (Hnd & Hlive & Hcount).
  apply NoDup_cons in Hnd as [Hnotin Hnd].
  apply Forall_cons_1 in Hlive as [(v & a & -> & Hv) Hlive].
  exists (<[a := None]> h). unfold heap_delete. rewrite Hv.
  assert (forall p u, p ∈ l -> holds h p u -> holds (<[a := None]> h) p u) as Hkeep.
  { intros p u Hin (a' & -> & Hu). exists a'. split; [done|].
    rewrite cell_value_delete_ne; [done|]. intros ->. done. }
  split; [done|]. split; [|done]. split; [done|]. split.
  - rewrite Forall_forall in Hlive |- *. intros p Hin.
    destruct (Hlive p Hin) as [u Hu]. exists u. by apply Hkeep.
  - pose proof (allocated_delete h a v Hv) as Hdel. simpl in Hcount. lia.
Qed.

(** The loop that deletes the cells of a queue. *)
Lemma owns_delete_all h q l :
  owns h (q ++ l) ->
  exists h', heap_delete_all q h = Ok h' /\ owns h' l /\
    forall p v, p ∈ l -> holds h p v -> holds h' p v.
Proof.
  revert h. induction q as [|c q IH]; intros h Ho; simpl.
  - exists h. done.
  - destruct (owns_delete h c (q ++ l) Ho) as (h1 & -> & Ho1 & Hk1). simpl.
    destruct (IH h1 Ho1) as (h' & Hd & Ho' & Hk').
    exists h'. split; [done|]. split; [done|].
    intros p v Hin Hv. apply Hk'; [done|]. apply Hk1; [|done].
    rewrite elem_of_app. by right.
Qed.

End Release.

(** ** The records in the hands of the consumer *)

Section Content.
Context {T : Type} (P : Producer T).
Implicit Types (s : System P) (w : World P) (p : cellptr) (v : T).

(** The producer thread writes only to the cell it works on: a cell
    of the free pool, of the ready queue or of the consumer keeps its
    content through a section of the thread. *)
Lemma producer_fun_holds w w' l p v :
  owns (cells P w) (homes P w l) ->
  producer_fun P w = Ok w' ->
  p ∈ free_cells_ (iter P w) ++ queue_ (iter P w) ++ in_hand (iter P w) ++ l ->
  holds (cells P w) p v -> holds (cells P w') p v.
Proof.
  destruct w as [[o sg pr th e cap od q f] h src d].
  intros (Hnd & _ & _) Hw Hin Hv. unfold producer_fun, homes, in_flight in *.
  simpl in *. destruct th as [[| |cell|cell|]|]; try done.
  - destruct (p_before_first P src); [|done]. by injection Hw as <-.
  - destruct (producer_may_run _); [|done].
    destruct sg; [destruct f| |]; try (by injection Hw as <-).
    destruct (p_before_first P src); [|done]. by injection Hw as <-.
  - unfold Producer_Next in Hw. destruct (p_next P src) as [[v0|] src']; simpl in Hw.
    + destruct cell as [a|]; simpl in Hw; injection Hw as <-; simpl.
      * apply holds_write_ne; [|done]. intros ->.
        assert (f ++ q ++ [Some a] ++ in_hand (mkThreadedIter o sg pr
                  (Some (PcCall (Some a))) e cap od q f) ++ l
                ≡ₚ Some a :: (f ++ q ++ in_hand (mkThreadedIter o sg pr
                  (Some (PcCall (Some a))) e cap od q f) ++ l)) as Hp
          by solve_Permutation.
        rewrite Hp in Hnd. apply NoDup_cons in Hnd as [Hnd _]. by apply Hnd.
      * by apply holds_new_old.
    + rewrite orb_true_r in Hw. by injection Hw as <-.
  - by injection Hw as <-.
Qed.

(** The calls of the consumer write to no cell. *)
Lemma consumer_cells m s s' :
  m <> Produce -> step P m s = Ok s' -> cells P (world P s') = cells P (world P s).
Proof.
  intros Hm. destruct s as [[[o sg pr th e cap od q f] h src d] cp ln sn pk].
  destruct m; try done; destruct cp; simpl; try done.
  - intros [= <-]. unfold Next_recycle. simpl. by destruct od.
  - unfold Next_pull, Next. simpl.
    destruct sg; [destruct q; [destruct e|]| |]; simpl; try done.
    + by intros [= <-].
    + unfold Value. simpl. intros (v & _ & [= <-])%obind_Ok. done.
    + by intros [= <-].
  - unfold BeforeFirst_request. simpl.
    destruct od; simpl; destruct sg; simpl; destruct pr; simpl; try done;
      by intros [= <-].
  - unfold BeforeFirst_ack. simpl. destruct pr; [|done]. by intros [= <-].
  - unfold Next. simpl.
    destruct sg; [destruct q; [destruct e|]| |]; simpl; try done.
    + by intros [= <-].
    + intros (v & _ & [= <-])%obind_Ok. done.
    + by intros [= <-].
  - destruct (ln !! i); [|done]. by intros [= <-].
Qed.

(** A record in the hands of the consumer stays as it is, whatever
    section runs next. *)
Lemma step_holds c m s s' p v :
  inv P c s -> step P m s = Ok s' ->
  p ∈ in_hand (iter P (world P s)) ++ loans P s ->
  holds (cells P (world P s)) p v -> holds (cells P (world P s')) p v.
Proof.
  intros Hinv Hs Hin Hv. destruct (decide (m = Produce)) as [->|Hm].
  - simpl in Hs. apply obind_Ok in Hs as (w' & Hw & [= <-]). simpl.
    apply (producer_fun_holds _ _ (loans P s) p v (inv_owns P c s Hinv) Hw); [|done].
    rewrite !elem_of_app in *. tauto.
  - by rewrite (consumer_cells m s s' Hm Hs).
Qed.

(** The record behind [out_data_] between two calls: the one of the
    last [Next()] when it returned true, none otherwise. *)
Definition shows s : Prop :=
  cpc P s = Idle ->
  match last (seen P s) with
  | Some (Got v) => holds (cells P (world P s)) (out_data_ (iter P (world P s))) v
  | _ => out_data_ (iter P (world P s)) = None
  end.

Lemma shows_boot c (p0 : PState P) : shows (boot P c p0).
Proof. by intros _. Qed.

Lemma step_shows c m s s' :
  m <> Pull -> inv P c s -> shows s -> step P m s = Ok s' -> shows s'.
Proof.
  intros Hm Hinv Hsh Hs. destruct (decide (m = Produce)) as [->|Hp].
  - pose proof Hs as Hs'. simpl in Hs'. apply obind_Ok in Hs' as (w' & Hw & [= <-]).
    intros Hidle. simpl in *. specialize (Hsh Hidle).
    assert (out_data_ (iter P w') = out_data_ (iter P (world P s))) as Hout.
    { clear -Hw. destruct s as [[[o sg pr th e cap od q f] h src d] cp ln sn pk].
      unfold producer_fun in Hw. simpl in *. repeat case_match; simplify_eq; done. }
    rewrite Hout. destruct (last (seen P s)) as [[v| |]|]; try done.
    apply (step_holds c Produce s (settle P w' (cpc P s) (loans P s) (seen P s) (peak P s))
             _ v Hinv Hs); [|done].
    destruct Hsh as (a & Ha & _). unfold in_hand. rewrite Ha, elem_of_app, elem_of_cons. tauto.
  - pose proof (consumer_cells m s s' Hp Hs) as Hcells.
    destruct s as [[[o sg pr th e cap od q f] h src d] cp ln sn pk].
    destruct Hinv as [_ _ Is Ib _ _ _]. unfold shows in *. simpl in *.
    destruct m; try done; destruct cp; simpl in Hs; try done.
    + by injection Hs as <-.
    + rewrite (Ib ltac:(done)) in *. unfold Next_pull, Next in Hs. simpl in Hs.
      destruct sg; simpl in Hs; try done.
      destruct q as [|front q]; simpl in Hs.
      * destruct e; simpl in Hs; [|done]. injection Hs as <-. simpl.
        intros _. by rewrite last_snoc.
      * unfold Value in Hs. simpl in Hs. destruct front as [a|]; simpl in Hs; [|done].
        destruct (cell_value h a) as [v|] eqn:Hv; simpl in Hs; [|done].
        injection Hs as <-. simpl. intros _. rewrite last_snoc. by exists a.
    + apply obind_Ok in Hs as ([back w'] & Hw & Hs). unfold BeforeFirst_request in Hw.
      simpl in Hw. destruct od; simpl in Hw; destruct sg; simpl in Hw;
        try (by destruct Is); destruct pr; simpl in Hw; try done;
        injection Hw as <- <-; by injection Hs as <-.
    + apply obind_Ok in Hs as (w' & Hw & [= <-]). unfold BeforeFirst_ack in Hw.
      simpl in Hw. destruct pr; [|done]. injection Hw as <-. simpl.
      intros _. rewrite last_snoc. by apply Ib.
    + destruct (ln !! i); [|done]. injection Hs as <-. simpl. intros Hidle.
      specialize (Hsh Hidle). by destruct (last sn) as [[v| |]|].
Qed.

Lemma Value_shows s :
  shows s -> cpc P s = Idle ->
  Value P (world P s) = match last (seen P s) with Some (Got v) => Ok v | _ => Fatal end.
Proof.
  intros Hsh Hidle. specialize (Hsh Hidle). unfold Value.
  destruct (last (seen P s)) as [[v| |]|]; try (by rewrite Hsh).
  destruct Hsh as (a & -> & ->). done.
Qed.

End Content.

(** ** The cells that [Next(&p)] has handed out *)

Section Loans.
Context {T : Type} (P : Producer T).
Implicit Types (s : System P) (w : World P) (p : cellptr) (v : T).

(** The records among what the calls have shown. *)
Definition gots (o : list (Obs (T:=T))) : list T :=
  omap (fun x => match x with Got v => Some v | _ => None end) o.

Lemma gots_snoc_Got o v : gots (o ++ [Got v]) = gots o ++ [v].
Proof. unfold gots. by rewrite omap_app. Qed.

Lemma gots_snoc_End o : gots (o ++ [End]) = gots o.
Proof. unfold gots. rewrite omap_app. simpl. by rewrite app_nil_r. Qed.

Lemma gots_snoc_Rewound o : gots (o ++ [Rewound]) = gots o.
Proof. unfold gots. rewrite omap_app. simpl. by rewrite app_nil_r. Qed.

(** The consumer's loans hold [vs]; [exact] says that the consumer has
    so far neither recycled a loan nor called [Next()]. *)
Definition lent (exact : bool) s (vs : list T) : Prop :=
  Forall2 (holds (cells P (world P s))) (loans P s) vs /\
  vs `sublist_of` gots (seen P s) /\
  (exact = true -> vs = gots (seen P s)).

(** A section that leaves every loan as it is. *)
Definition plain (m : Move) : bool :=
  match m with Produce | Pull | Rewind => true | _ => false end.

Lemma Forall2_holds_keep (h h' : heap T) l vs :
  (forall p v, p ∈ l -> holds h p v -> holds h' p v) ->
  Forall2 (holds h) l vs -> Forall2 (holds h') l vs.
Proof.
  intros Hk H. induction H as [|p v l vs Hp H IH]; [constructor|].
  constructor.
  - apply Hk; [apply list_elem_of_here|done].
  - apply IH. intros q u Hq. apply Hk. by apply list_elem_of_further.
Qed.

Lemma lent_boot c (p0 : PState P) : lent true (boot P c p0) [].
Proof. split; [constructor|]. split; [by apply sublist_nil_l|done]. Qed.

Lemma step_lent c b m s s' vs :
  inv P c s -> lent b s vs -> step P m s = Ok s' ->
  exists vs', lent (b && plain m) s' vs'.
Proof.
  intros Hinv (Hl & Hsub & Hex) Hs. destruct (decide (m = Produce)) as [->|Hp].
  - exists vs. pose proof Hs as Hs'. simpl in Hs'.
    apply obind_Ok in Hs' as (w' & Hw & [= <-]). rewrite andb_true_r. simpl.
    split; [|done]. revert Hl. apply Forall2_holds_keep. intros p v Hin.
    apply (step_holds P c Produce s
             (settle P w' (cpc P s) (loans P s) (seen P s) (peak P s)) p v Hinv Hs).
    rewrite elem_of_app. tauto.
  - pose proof (consumer_cells P m s s' Hp Hs) as Hcells.
    destruct s as [[[o sg pr th e cap od q f] h src d] cp ln sn pk].
    unfold lent in *. simpl in *.
    destruct m; try done; destruct cp; simpl in Hs; try done.
    + injection Hs as <-. exists vs. rewrite andb_false_r. simpl in *. by rewrite Hcells.
    + apply obind_Ok in Hs as ([more w'] & _ & Hs). rewrite andb_false_r.
      destruct more.
      * apply obind_Ok in Hs as (v & _ & [= <-]). exists vs. simpl in *.
        rewrite Hcells, gots_snoc_Got. split; [done|]. split; [|done].
        by apply sublist_inserts_r.
      * injection Hs as <-. exists vs. simpl in *. by rewrite Hcells, gots_snoc_End.
    + apply obind_Ok in Hs as ([back w'] & _ & Hs). rewrite andb_true_r. exists vs.
      destruct back; injection Hs as <-; simpl in *; rewrite Hcells, ?gots_snoc_Rewound; done.
    + apply obind_Ok in Hs as (w' & _ & [= <-]). rewrite andb_true_r. exists vs.
      simpl in *. by rewrite Hcells, gots_snoc_Rewound.
    + apply obind_Ok in Hs as ([[more p] w'] & Hn & Hs). rewrite andb_true_r.
      destruct more.
      * apply obind_Ok in Hs as (v & Hv & [= <-]). exists (vs ++ [v]). simpl in *.
        rewrite Hcells, gots_snoc_Got. split; [|split].
        -- apply Forall2_app; [done|]. constructor; [|constructor].
           unfold deref in Hv. rewrite Hcells in Hv. destruct p as [a|]; [|done].
           exists a. split; [done|]. by destruct (cell_value h a); simplify_eq.
        -- by apply sublist_app.
        -- intros Hb. by rewrite (Hex Hb).
      * injection Hs as <-. exists vs. simpl in *. by rewrite Hcells, gots_snoc_End.
    + destruct (ln !! i) as [p|] eqn:Hi; [|done]. injection Hs as <-.
      rewrite andb_false_r. exists (delete i vs). simpl in *.
      split; [by apply Forall2_delete|]. split; [|done].
      etrans; [apply sublist_delete|done].
Qed.

Lemma run_lent c b sched s s' vs :
  inv P c s -> lent b s vs -> run P sched s = Ok s' ->
  exists vs', lent (b && forallb plain sched) s' vs'.
Proof.
  revert s b vs. induction sched as [|m sched IH]; intros s b vs Hinv Hl; simpl.
  - intros [= <-]. exists vs. by rewrite andb_true_r.
  - destruct (step P m s) as [s1| | |] eqn:Hstep; try done.
    + destruct (step_lent c b m s s1 vs Hinv Hl Hstep) as (vs1 & Hl1).
      intros Hrun. rewrite andb_assoc.
      apply (IH s1 _ vs1); [by eapply step_inv|done|done].
    + intros Hrun. destruct (IH s b vs Hinv Hl Hrun) as (vs' & H1 & H2 & H3).
      exists vs'. split; [done|]. split; [done|].
      intros Hb. apply H3. apply andb_prop in Hb as [-> Hb].
      by apply andb_prop in Hb as [_ ->].
Qed.

End Loans.

(** ** What the consumer holds, along a schedule *)

Section Adapter.
Context {T : Type} (P : Producer T) (items : list T).
Hypothesis Hdet : produces P items.
Implicit Types (s : System P) (w : World P) (p : cellptr) (v : T).

Lemma run_shows c sched s s' :
  Pull ∉ sched -> inv P c s -> shows P s -> run P sched s = Ok s' -> shows P s'.
Proof.
  revert s. induction sched as [|m sched IH]; intros s Hno Hinv Hsh; simpl.
  - by intros [= <-].
  - apply not_elem_of_cons in Hno as [Hm Hno].
    destruct (step P m s) as [s1| | |] eqn:Hstep; try done.
    + apply IH; [done|by eapply step_inv|]. by eapply step_shows.
    + by apply IH.
Qed.

(** X1: over a deterministic producer and a consumer that uses only
    [Next()], [BeforeFirst()] and [Recycle], whatever the interleaving
    with the producer thread: between two calls [Value()] gives the
    record that the last [Next()] showed, and fails its CHECK when the
    last call was a [Next()] that returned false or a [BeforeFirst()],
    or when there was no call yet.  The producer thread never writes to
    the cell behind [Value()]. *)
Theorem Value_after_Next (c : nat) (p0 : PState P) (sched : list Move) :
  Pull ∉ sched ->
  exists s,
    run P sched (boot P c p0) = Ok s /\
    (cpc P s = Idle ->
       Value P (world P s) =
         match last (seen P s) with Some (Got v) => Ok v | _ => Fatal end).
Proof using Hdet.
  intros Hno.
  destruct (run_delivers P items Hdet c sched _ (inv_boot P c p0) (delivers_boot P items c p0))
    as (s & Hrun & Hinv & _).
  exists s. split; [done|]. apply Value_shows.
  by apply (run_shows c sched _ s Hno (inv_boot P c p0) (shows_boot P c p0)).
Qed.

(** X2: over a deterministic producer, whatever the calls of the
    consumer and the interleaving: the cells that [Next(&p)] has handed
    out and that are not recycled are distinct live cells, none of them
    is in the free pool, in the ready queue, with the producer thread
    or behind [out_data_], and each still holds a record that a call of
    [Next] has shown, in the order of the calls.  For a consumer that
    has called neither [Next()] nor [Recycle] they hold exactly the
    records shown so far. *)
Theorem loans_keep_their_records (c : nat) (p0 : PState P) (sched : list Move) :
  exists s vs,
    run P sched (boot P c p0) = Ok s /\
    Forall2 (holds (cells P (world P s))) (loans P s) vs /\
    vs `sublist_of` gots (seen P s) /\
    NoDup (loans P s) /\
    (forall p, p ∈ loans P s ->
       p ∉ free_cells_ (iter P (world P s)) ++ queue_ (iter P (world P s)) ++
           in_flight (iter P (world P s)) ++ in_hand (iter P (world P s))) /\
    (forallb plain sched = true -> vs = gots (seen P s)).
Proof using Hdet.
  destruct (run_delivers P items Hdet c sched _ (inv_boot P c p0) (delivers_boot P items c p0))
    as (s & Hrun & Hinv & _).
  destruct (run_lent P c true sched _ s [] (inv_boot P c p0) (lent_boot P c p0) Hrun)
    as (vs & Hl & Hsub & Hex).
  exists s, vs. split_and!; try done.
  - destruct (inv_owns P c s Hinv) as (Hnd & _ & _). unfold homes in Hnd.
    rewrite !app_assoc in Hnd. by apply NoDup_app in Hnd as (_ & _ & Hnd).
  - intros p Hp Hin. destruct (inv_owns P c s Hinv) as (Hnd & _ & _). unfold homes in Hnd.
    rewrite !app_assoc in Hnd. apply NoDup_app in Hnd as (_ & Hnd & _).
    apply (Hnd p); [|done]. by rewrite <- !app_assoc.
Qed.

End Adapter.

(** ** A producer without [BeforeFirst] *)

Section ForwardOnly.
Context {T : Type} (P : Producer T).
Implicit Types (s : System P) (w : World P).

(** The pipe before the first section of the producer thread. *)
Definition unstarted (p0 : PState P) s : Prop :=
  producer_thread_ (iter P (world P s)) = Some PcStart /\
  source P (world P s) = p0 /\
  queue_ (iter P (world P s)) = [] /\
  produce_end_ (iter P (world P s)) = false /\
  producer_sig_processed_ (iter P (world P s)) = false /\
  out_data_ (iter P (world P s)) = None /\
  loans P s = [] /\ seen P s = [] /\
  producer_sig_ (iter P (world P s)) =
    (if cpc P s is InBeforeFirst then kBeforeFirst else kProduce).

Lemma unstarted_boot c (p0 : PState P) : unstarted p0 (boot P c p0).
Proof. by repeat split. Qed.

Lemma unstarted_step p0 m s :
  unstarted p0 s -> m <> Produce ->
  step P m s = Blocked \/ exists s', step P m s = Ok s' /\ unstarted p0 s'.
Proof.
  destruct s as [[[o sg pr th e cap od q f] h src d] cp ln sn pk].
  intros (Hth & Hsrc & Hq & He & Hpr & Hod & Hln & Hsn & Hsg) Hm.
  simpl in *. subst. destruct m; try done; destruct cp; simpl; auto.
  - right. eexists. split; [done|]. by repeat split.
  - right. eexists. split; [done|]. by repeat split.
Qed.

Lemma unstarted_Produce p0 s :
  unstarted p0 s -> p_before_first P p0 = None -> step P Produce s = Fatal.
Proof.
  intros (Hth & Hsrc & _) Hnone. simpl. unfold producer_fun.
  by rewrite Hth, Hsrc, Hnone.
Qed.

(** X3: a pipe whose producer has no [BeforeFirst] (the default
    [NotImplemented], also the default second argument of [Init]) never
    delivers a record.  The producer thread calls [beforefirst] before
    it enters its loop, so its first section is fatal; until then no
    call of [Next] returns, whatever the consumer does. *)
Theorem Init_without_BeforeFirst (c : nat) (p0 : PState P) (sched : list Move) :
  p_before_first P p0 = None ->
  (Produce ∈ sched -> run P sched (boot P c p0) = Fatal) /\
  (Produce ∉ sched ->
     exists s, run P sched (boot P c p0) = Ok s /\ seen P s = [] /\
       producer_thread_ (iter P (world P s)) = Some PcStart).
Proof.
  intros Hnone. pose proof (unstarted_boot c p0) as Hun.
  generalize dependent (boot P c p0). induction sched as [|m sched IH]; intros s Hun.
  - split; [by intros ?%elem_of_nil|]. intros _. exists s. split; [done|].
    destruct Hun as (? & _ & _ & _ & _ & _ & _ & ? & _). done.
  - simpl. destruct (decide (m = Produce)) as [->|Hm].
    + split; [|intros Hno; exfalso; apply Hno, list_elem_of_here].
      intros _. by rewrite (unstarted_Produce p0 s Hun Hnone).
    + destruct (unstarted_step p0 m s Hun Hm) as [->|(s1 & -> & Hun1)].
      * destruct (IH s Hun) as [IH1 IH2]. split.
        -- intros [?|Hin]%elem_of_cons; [done|]. by apply IH1.
        -- intros [_ Hno]%not_elem_of_cons. by apply IH2.
      * destruct (IH s1 Hun1) as [IH1 IH2]. split.
        -- intros [?|Hin]%elem_of_cons; [done|]. by apply IH1.
        -- intros [_ Hno]%not_elem_of_cons. by apply IH2.
Qed.

End ForwardOnly.

(** ** [Destroy] on a running pipe *)

Section Shutdown.
Context {T : Type} (P : Producer T) (items : list T).
Hypothesis Hdet : produces P items.
Implicit Types (s : System P) (w : World P) (l : list cellptr) (p : cellptr) (v : T).

(** A pipe of capacity [c] right after [Init(producer, pass_ownership)],
    over an empty free store. *)
Definition boot_with (o : obj) (pass_ownership : bool) (c : nat) (s0 : PState P) : System P :=
  let w0 := mkWorld P (construct c kProduce false false) [] s0 [] in
  mkSystem P
    (Init_closures P
       (if pass_ownership then on_iter P (set_producer_owned (Some o)) w0 else w0))
    Idle [] [] 0.

Lemma inv_boot_with o f c (p0 : PState P) : inv P c (boot_with o f c p0).
Proof.
  destruct f; constructor; unfold homes, in_flight, in_hand, about_to_allocate, held;
    simpl; try done; try lia;
    (split; [apply NoDup_nil_2|split; [apply Forall_nil_2|done]]).
Qed.

Lemma delivers_boot_with o f c (p0 : PState P) : delivers P items (boot_with o f c p0).
Proof.
  destruct f; (exists items; split; [|constructor]; exists [], items; simpl;
    split; [constructor|done]).
Qed.

(** No section of a running pipe touches the owned producer. *)
Lemma step_owned m s s' :
  step P m s = Ok s' ->
  producer_owned_ (iter P (world P s')) = producer_owned_ (iter P (world P s)) /\
  deleted P (world P s') = deleted P (world P s).
Proof.
  destruct (decide (m = Produce)) as [->|Hm].
  - simpl. intros (w' & Hw & [= <-])%obind_Ok. by apply producer_fun_owned.
  - destruct s as [[[o sg pr th e cap od q f] h src d] cp ln sn pk].
    destruct m; try done; destruct cp; simpl; try done.
    + intros [= <-]. unfold Next_recycle. simpl. by destruct od.
    + unfold Next_pull, Next. simpl.
      destruct sg; [destruct q; [destruct e|]| |]; simpl; try done.
      * by intros [= <-].
      * unfold Value. simpl. intros (v & _ & [= <-])%obind_Ok. done.
      * by intros [= <-].
    + unfold BeforeFirst_request. simpl.
      destruct od; simpl; destruct sg; simpl; destruct pr; simpl; try done;
        by intros [= <-].
    + unfold BeforeFirst_ack. simpl. destruct pr; [|done]. by intros [= <-].
    + unfold Next. simpl.
      destruct sg; [destruct q; [destruct e|]| |]; simpl; try done.
      * by intros [= <-].
      * intros (v & _ & [= <-])%obind_Ok. done.
      * by intros [= <-].
    + destruct (ln !! i); [|done]. by intros [= <-].
Qed.

Lemma run_owned sched s s' :
  run P sched s = Ok s' ->
  producer_owned_ (iter P (world P s')) = producer_owned_ (iter P (world P s)) /\
  deleted P (world P s') = deleted P (world P s).
Proof.
  revert s. induction sched as [|m sched IH]; intros s; simpl.
  - by intros [= <-].
  - destruct (step P m s) as [s1| | |] eqn:Hstep; try done.
    + intros [-> ->]%IH. by apply (step_owned m).
    + apply IH.
Qed.

(** What the thread keeps on its way out: every cell has one home, and
    a thread about to push has a cell unless the production has ended. *)
Definition leaving w l : Prop :=
  owns (cells P w) (homes P w l) /\
  match producer_thread_ (iter P w) with
  | Some (PcCall _) => produce_end_ (iter P w) = false
  | Some (PcPush cell) => produce_end_ (iter P w) = false -> cell <> None
  | Some _ => True
  | None => False
  end.

(** Sections left until the thread function returns, once the signal is
    [kDestroy]. *)
Definition to_exit (t : ThreadedIter) : nat :=
  match producer_thread_ t with
  | Some (PcCall _) => 3
  | Some PcStart | Some (PcPush _) => 2
  | Some PcWait => 1
  | _ => 0
  end.

Lemma producer_fun_leaving w l :
  leaving w l -> producer_sig_ (iter P w) = kDestroy ->
  producer_thread_ (iter P w) <> Some PcExit ->
  exists w', producer_fun P w = Ok w' /\ leaving w' l /\
    producer_sig_ (iter P w') = kDestroy /\
    out_data_ (iter P w') = out_data_ (iter P w) /\
    S (to_exit (iter P w')) = to_exit (iter P w).
Proof using Hdet.
  destruct w as [[o sg pr th e cap od q f] h src d].
  intros [Io It] Hsig Hth. unfold leaving, producer_fun, homes, in_flight, in_hand, to_exit in *.
  simpl in *. subst sg. destruct th as [[| |cell|cell|]|]; try done.
  - destruct (Hdet src) as (s' & -> & _). eexists. split; [done|]. simpl. done.
  - eexists. split; [done|]. simpl. done.
  - unfold Producer_Next. destruct (p_next P src) as [[v|] s']; simpl.
    + destruct cell as [a|]; simpl; (eexists; split; [done|]); simpl; split_and!; try done.
      * apply owns_write; [|done]. rewrite !elem_of_app, !elem_of_cons. tauto.
      * eapply owns_perm; [|apply owns_new, Io]. solve_Permutation.
    + rewrite orb_true_r. eexists. split; [done|]. simpl. split_and!; try done.
  - eexists. split; [done|]. simpl. destruct e; simpl.
    + destruct cell as [a|]; simpl; split_and!; try done.
      eapply owns_perm; [|exact Io]. solve_Permutation.
    + destruct cell as [a|]; [|by destruct It]. simpl. split_and!; try done.
      eapply owns_perm; [|exact Io]. solve_Permutation.
Qed.

(** [join] returns, with every cell at its home and the loans and the
    cell behind [out_data_] as they were. *)
Lemma join_leaving n w l :
  to_exit (iter P w) <= n ->
  leaving w l -> producer_sig_ (iter P w) = kDestroy ->
  exists w', join P n w = Ok w' /\ leaving w' l /\
    producer_thread_ (iter P w') = Some PcExit /\
    producer_sig_ (iter P w') = kDestroy /\
    out_data_ (iter P w') = out_data_ (iter P w) /\
    producer_owned_ (iter P w') = producer_owned_ (iter P w) /\
    deleted P w' = deleted P w /\
    (forall p v, p ∈ in_hand (iter P w) ++ l -> holds (cells P w) p v -> holds (cells P w') p v).
Proof using Hdet.
  revert w. induction n as [|n IH]; intros w Hn Hl Hsig.
  - assert (producer_thread_ (iter P w) = Some PcExit) as Hth.
    { destruct Hl as [_ Hl]. unfold to_exit in Hn.
      destruct (producer_thread_ (iter P w)) as [[]|]; try done; lia. }
    exists w. simpl. rewrite Hth. done.
  - assert (producer_thread_ (iter P w) = Some PcExit \/
            producer_thread_ (iter P w) <> Some PcExit) as [Hth|Hth].
    { destruct (producer_thread_ (iter P w)) as [[]|]; auto. }
    + exists w. simpl. rewrite Hth. done.
    + destruct (producer_fun_leaving w l Hl Hsig Hth) as (w1 & Hw1 & Hl1 & Hsig1 & Hod1 & Hd1).
      destruct (IH w1 ltac:(lia) Hl1 Hsig1) as (w' & Hj & Hl' & Hth' & Hsig' & Hod' & Ho' & Hdel' & Hk').
      exists w'. split.
      { simpl. destruct (producer_thread_ (iter P w)) as [[]|]; try done;
          by rewrite Hw1. }
      destruct (producer_fun_owned P w w1 Hw1) as [Ho1 Hdel1].
      split_and!; try done; try congruence.
      intros p v Hin Hv. apply Hk'.
      * unfold in_hand in *. by rewrite Hod1.
      * apply (producer_fun_holds P w w1 l p v (proj1 Hl) Hw1); [|done].
        rewrite !elem_of_app in *. tauto.
Qed.

(** X4: [Destroy] on a running pipe, called between two calls of the
    consumer, at any point of any interleaving: it returns; the thread
    has ended and the signal stays [kDestroy]; the free pool, the ready
    queue and [out_data_] are empty and each of their cells was deleted
    once; the producer is deleted exactly when [Init] passed its
    ownership; and the only cells left allocated are those that
    [Next(&p)] handed out and the consumer has not recycled, which keep
    their records. *)
Theorem Destroy_running (o : obj) (f : bool) (c : nat) (p0 : PState P) (sched : list Move) :
  Init P o f (mkWorld P (construct c kProduce false false) [] p0 []) =
    Ok (world P (boot_with o f c p0)) /\
  exists s,
    run P sched (boot_with o f c p0) = Ok s /\
    (cpc P s = Idle ->
       exists w',
         Destroy P (world P s) = Ok w' /\
         producer_thread_ (iter P w') = None /\
         producer_sig_ (iter P w') = kDestroy /\
         free_cells_ (iter P w') = [] /\
         queue_ (iter P w') = [] /\
         out_data_ (iter P w') = None /\
         deleted P w' = (if f then [o] else []) /\
         owns (cells P w') (loans P s) /\
         (forall p v, p ∈ loans P s ->
            holds (cells P (world P s)) p v -> holds (cells P w') p v)).
Proof using Hdet.
  split; [by destruct f|].
  destruct (run_delivers P items Hdet c sched _ (inv_boot_with o f c p0)
              (delivers_boot_with o f c p0)) as (s & Hrun & Hinv & _).
  exists s. split; [done|]. intros _.
  destruct (run_owned sched _ s Hrun) as [Ho Hdel].
  destruct Hinv as [Io It _ _ _ _ _].
  set (w0 := on_iter P (set_producer_sig kDestroy) (world P s)).
  assert (leaving w0 (loans P s)) as Hl0.
  { split; [exact Io|]. simpl.
    destruct (producer_thread_ (iter P (world P s))) as [[]|]; done. }
  assert (to_exit (iter P w0) <= 4) as Hn.
  { unfold to_exit. simpl. destruct (producer_thread_ (iter P (world P s))) as [[]|]; lia. }
  destruct (join_leaving 4 w0 (loans P s) Hn Hl0 eq_refl)
    as (wj & Hj & [Ioj _] & Hthj & Hsigj & Hodj & Hoj & Hdelj & Hkj).
  unfold Destroy.
  assert (producer_thread_ (iter P (world P s)) <> None) as Hth.
  { destruct (producer_thread_ (iter P (world P s))); done. }
  destruct (producer_thread_ (iter P (world P s))) as [pc|] eqn:Epc; [|done].
  fold w0. rewrite Hj. simpl.
  unfold homes, in_flight in Ioj. rewrite Hthj in Ioj. simpl in Ioj.
  destruct (owns_delete_all _ _ _ Ioj) as (h2 & -> & Io2 & Hk2). simpl.
  destruct (owns_delete_all _ _ _ Io2) as (h3 & -> & Io3 & Hk3). simpl.
  assert (forall p v, p ∈ in_hand (iter P wj) ++ loans P s ->
            holds (cells P (world P s)) p v -> holds h3 p v) as Hk.
  { intros p v Hin Hv. apply Hk3; [done|]. apply Hk2.
    - rewrite elem_of_app. by right.
    - apply Hkj; [|done]. unfold in_hand in *. rewrite Hodj in Hin. exact Hin. }
  assert (exists w4,
            match producer_owned_ (iter P wj) with
            | Some o' =>
                delete_producer P o'
                  (on_iter P (set_queue [])
                     (set_cells P h3
                        (on_iter P (set_free_cells [])
                           (set_cells P h2 (on_iter P (set_producer_thread None) wj)))))
            | None =>
                Ok (on_iter P (set_queue [])
                     (set_cells P h3
                        (on_iter P (set_free_cells [])
                           (set_cells P h2 (on_iter P (set_producer_thread None) wj)))))
            end = Ok w4 /\
            cells P w4 = h3 /\
            iter P w4 = set_queue [] (set_free_cells [] (set_producer_thread None (iter P wj))) /\
            deleted P w4 = (if f then [o] else [])) as (w4 & -> & Hc4 & Hi4 & Hd4).
  { rewrite Hoj. simpl. rewrite Ho. unfold delete_producer. simpl.
    rewrite Hdelj. simpl. rewrite Hdel.
    destruct f; simpl; (eexists; split; [reflexivity|]);
      (split; [reflexivity|]); (split; [reflexivity|]); simpl; [reflexivity|].
    rewrite Hdelj. simpl. by rewrite Hdel. }
  simpl. rewrite Hi4, Hc4. simpl. unfold in_hand in *.
  destruct (out_data_ (iter P wj)) as [a|] eqn:Eod.
  - destruct (owns_delete _ _ _ Io3) as (h5 & H5 & Io5 & Hk5).
    rewrite H5. simpl. eexists. split; [done|]. simpl.
    rewrite Hi4. simpl. split_and!; try done.
    intros p v Hin Hv. apply Hk5; [done|]. apply Hk; [|done].
    rewrite elem_of_app. by right.
  - eexists. split; [done|]. rewrite Hi4, Hc4. simpl. split_and!; try done.
Qed.

End Shutdown.

(** ** A pipe of capacity zero *)

Section NoRoom.
Context {T : Type} (P : Producer T) (items : list T).
Hypothesis Hdet : produces P items.
Implicit Types (s : System P) (w : World P).

(** Nothing was ever produced: no cell, no record, no end. *)
Definition idle_pipe s : Prop :=
  max_capacity_ (iter P (world P s)) = 0 /\
  free_cells_ (iter P (world P s)) = [] /\
  queue_ (iter P (world P s)) = [] /\
  produce_end_ (iter P (world P s)) = false /\
  out_data_ (iter P (world P s)) = None /\
  cells P (world P s) = [] /\
  loans P s = [] /\
  (producer_thread_ (iter P (world P s)) = Some PcStart \/
   producer_thread_ (iter P (world P s)) = Some PcWait) /\
  Forall (fun o => o = Rewound) (seen P s).

Lemma idle_pipe_boot (p0 : PState P) : idle_pipe (boot P 0 p0).
Proof. unfold idle_pipe. simpl. split_and!; try done. by left. Qed.

Lemma step_idle_pipe m s s' :
  inv P 0 s -> idle_pipe s -> step P m s = Ok s' -> idle_pipe s'.
Proof.
  destruct s as [[[o sg pr th e cap od q f] h src d] cp ln sn pk].
  intros [_ _ Is _ _ _ _] (Hcap & Hf & Hq & He & Hod & Hh & Hln & Hth & Hsn).
  unfold idle_pipe. simpl in *. subst.
  destruct m; simpl.
  - (* the producer thread *)
    intros (w' & Hw & [= <-])%obind_Ok. unfold producer_fun in Hw. simpl in Hw.
    destruct Hth as [-> | ->].
    + destruct (p_before_first P src); [|done]. injection Hw as <-. simpl.
      split_and!; try done. by right.
    + unfold producer_may_run in Hw. simpl in Hw.
      destruct sg; simpl in Hw; try done.
      destruct (p_before_first P src); [|done]. injection Hw as <-. simpl.
      split_and!; try done. by right.
  - (* Next() *)
    destruct cp; simpl; try done.
    + intros [= <-]. simpl. by split_and!.
    + unfold Next_pull, Next. simpl. by destruct sg.
  - (* BeforeFirst() *)
    destruct cp; simpl; try done.
    + unfold BeforeFirst_request. simpl. destruct sg; simpl; try done;
        destruct pr; simpl; try done; intros [= <-]; simpl; by split_and!.
    + unfold BeforeFirst_ack. simpl. destruct pr; simpl; [|done].
      intros [= <-]. simpl. split_and!; try done.
      apply Forall_app. split; [done|]. by constructor.
  - (* Next(&p) *)
    destruct cp; simpl; try done. unfold Next. simpl. by destruct sg.
  - (* Recycle *)
    by destruct cp.
Qed.

(** A pipe of capacity zero stays as it was started, along every
    schedule. *)
Lemma run_idle_pipe sched s :
  inv P 0 s -> delivers P items s -> idle_pipe s ->
  exists s', run P sched s = Ok s' /\ inv P 0 s' /\ delivers P items s' /\
             idle_pipe s'.
Proof using Hdet.
  revert s. induction sched as [|m sched IH]; intros s Hinv Hdel Hz; simpl.
  - by exists s.
  - destruct (step_delivers P items Hdet 0 m s Hinv Hdel) as [->|(s1 & Hs1 & Hdel1)].
    + by apply IH.
    + rewrite Hs1. apply IH; [by eapply step_inv|done|by eapply step_idle_pipe].
Qed.

(** There a call of [Next] waits. *)
Lemma idle_pipe_waits s out r :
  inv P 0 s -> idle_pipe s -> Next P out (world P s) <> Ok r.
Proof.
  intros [_ _ Is _ _ _ _] (_ & _ & Hq & He & _). unfold Next. rewrite Hq, He.
  by destruct (producer_sig_ (iter P (world P s))).
Qed.

(** X10: a pipe of capacity zero never delivers.  Over a deterministic
    producer, whatever the calls and the interleaving, no section
    fails, but no call of [Next] ever returns, neither with a record
    nor with the end: the producer thread waits for room in the queue
    or for a free cell, and there is never either.  Calls of
    [BeforeFirst] still return.  No cell is ever allocated. *)
Theorem capacity_zero_never_delivers (p0 : PState P) (sched : list Move) :
  exists s,
    run P sched (boot P 0 p0) = Ok s /\
    Forall (fun o => o = Rewound) (seen P s) /\
    (forall out r, Next P out (world P s) <> Ok r) /\
    cells P (world P s) = [] /\
    (cpc P s = Idle ->
     exists s', run P rewinds s = Ok s' /\ seen P s' = seen P s ++ [Rewound]).
Proof using Hdet.
  destruct (run_idle_pipe sched _ (inv_boot P 0 p0) (delivers_boot P items 0 p0)
              (idle_pipe_boot p0)) as (s & Hs & Hinv & Hdel & Hz).
  exists s. pose proof Hz as (Hcap & Hf & Hq & He & Hod & Hh & Hln & Hth & Hsn).
  split_and!; try done.
  - intros out r. by apply idle_pipe_waits.
  - intros Hidle.
    destruct (rewind_round P items Hdet 0 s Hinv Hdel Hidle)
      as (s1 & H1 & _ & _ & _ & _ & Hseen1 & _).
    by exists s1.
Qed.

End NoRoom.

(** ** The properties at concrete pipes *)

Lemma Value_after_Next_witness :
  exists s,
    run (list_producer [1; 2; 3]) (pulls 2 ++ [Produce; Produce])
      (boot (list_producer [1; 2; 3]) 2 []) = Ok s /\
    cpc _ s = Idle /\
    Value _ (world _ s) =
      match last (seen _ s) with Some (Got v) => Ok v | _ => Fatal end.
Proof.
  destruct (Value_after_Next (list_producer [1; 2; 3]) [1; 2; 3])
    with (c := 2) (p0 := @nil nat) (sched := pulls 2 ++ [Produce; Produce])
    as (s & H1 & H2).
  - intros s. exists [1; 2; 3]. split; [reflexivity|]. simpl. repeat split; reflexivity.
  - apply (bool_decide_unpack _). vm_compute. exact I.
  - assert (cpc _ s = Idle) as Hidle.
    { assert (exists s0,
        run (list_producer [1; 2; 3]) (pulls 2 ++ [Produce; Produce])
          (boot (list_producer [1; 2; 3]) 2 []) = Ok s0 /\ cpc _ s0 = Idle)
        as (s0 & Hr0 & Hc0) by (eexists; split; [vm_compute; reflexivity|reflexivity]).
      congruence. }
    exists s. split; [exact H1|]. split; [exact Hidle|exact (H2 Hidle)].
Defined.

Lemma loans_keep_their_records_witness :
  exists s vs,
    run (list_producer [1; 2; 3; 4; 5]) hoard (boot (list_producer [1; 2; 3; 4; 5]) 1 []) = Ok s /\
    Forall2 (holds (cells _ (world _ s))) (loans _ s) vs /\
    vs `sublist_of` gots (seen _ s) /\
    NoDup (loans _ s).
Proof.
  destruct (loans_keep_their_records (list_producer [1; 2; 3; 4; 5]) [1; 2; 3; 4; 5])
    with (c := 1) (p0 := @nil nat) (sched := hoard) as (s & vs & H1 & H2 & H3 & H4 & _).
  - intros s. exists [1; 2; 3; 4; 5]. split; [reflexivity|]. simpl. repeat split; reflexivity.
  - exists s, vs. split; [exact H1|]. split; [exact H2|]. split; [exact H3|exact H4].
Defined.

Lemma Init_without_BeforeFirst_witness :
  run (forward_only_producer [1; 2; 3]) [Advance; Advance; Produce; Advance]
    (boot (forward_only_producer [1; 2; 3]) 2 [1; 2; 3]) = Fatal.
Proof.
  apply (Init_without_BeforeFirst (forward_only_producer [1; 2; 3]) 2 [1; 2; 3]).
  - reflexivity.
  - apply (bool_decide_unpack _). vm_compute. exact I.
Defined.

Lemma Destroy_running_witness :
  exists s w',
    run (list_producer [1; 2; 3; 4; 5]) (hoard ++ [Advance; Advance])
      (boot_with (list_producer [1; 2; 3; 4; 5]) 7 true 1 []) = Ok s /\
    cpc _ s = Idle /\
    Destroy _ (world _ s) = Ok w' /\
    deleted _ w' = [7] /\
    owns (cells _ w') (loans _ s).
Proof.
  destruct (Destroy_running (list_producer [1; 2; 3; 4; 5]) [1; 2; 3; 4; 5])
    with (o := 7) (f := true) (c := 1) (p0 := @nil nat) (sched := hoard ++ [Advance; Advance])
    as (_ & s & H1 & H2).
  - intros s. exists [1; 2; 3; 4; 5]. split; [reflexivity|]. simpl. repeat split; reflexivity.
  - assert (cpc _ s = Idle) as Hidle.
    { assert (exists s0,
        run (list_producer [1; 2; 3; 4; 5]) (hoard ++ [Advance; Advance])
          (boot_with (list_producer [1; 2; 3; 4; 5]) 7 true 1 []) = Ok s0 /\
        cpc _ s0 = Idle)
        as (s0 & Hr0 & Hc0) by (eexists; split; [vm_compute; reflexivity|reflexivity]).
      congruence. }
    destruct (H2 Hidle) as (w' & Hd & _ & _ & _ & _ & _ & Hdel & Ho & _).
    exists s, w'. split; [exact H1|]. split; [exact Hidle|].
    split; [exact Hd|]. split; [exact Hdel|exact Ho].
Defined.

Lemma capacity_zero_never_delivers_witness :
  exists s,
    run (list_producer [1; 2; 3]) (rewinds ++ pulls 2)
      (boot (list_producer [1; 2; 3]) 0 []) = Ok s /\
    Forall (fun o => o = Rewound) (seen _ s) /\
    (forall out r, Next (list_producer [1; 2; 3]) out (world _ s) <> Ok r).
Proof.
  destruct (capacity_zero_never_delivers (list_producer [1; 2; 3]) [1; 2; 3])
    with (p0 := @nil nat) (sched := rewinds ++ pulls 2)
    as (s & H1 & H2 & H3 & _).
  - intros s. exists [1; 2; 3]. split; [reflexivity|]. simpl. repeat split; reflexivity.
  - exists s. split; [exact H1|]. split; [exact H2|exact H3].
Defined.

(** C1 does not hold at every pipe that the constructor and [Init]
    accept.  With [max_capacity] 0 over the producer of [1; 2; 3],
    whatever the calls and the interleaving, no call of [Next] returns:
    neither a record nor the end is ever shown, and three calls with all
    the sections of the producer thread they could need show nothing.
    And over a producer that yields [1; 2; 3] and keeps the default
    [BeforeFirst], the producer thread fails in its first section, with
    nothing shown. *)
Lemma Next_never_returns :
  (forall sched, exists s,
     run (list_producer [1; 2; 3]) sched (boot (list_producer [1; 2; 3]) 0 []) = Ok s /\
     (forall v, Got v ∉ seen _ s) /\ (End ∉ seen _ s) /\
     (forall out r, Next (list_producer [1; 2; 3]) out (world _ s) <> Ok r)) /\
  (exists s,
     run (list_producer [1; 2; 3]) (pulls 3) (boot (list_producer [1; 2; 3]) 0 []) = Ok s /\
     seen _ s = [] /\ cpc _ s = InNext) /\
  run (forward_only_producer [1; 2; 3]) (pulls 3)
    (boot (forward_only_producer [1; 2; 3]) 2 [1; 2; 3]) = Fatal.
Proof.
  split; [|split].
  - intros sched.
    assert (produces (list_producer [1; 2; 3]) [1; 2; 3]) as Hdet.
    { intros s. exists [1; 2; 3]. split; [reflexivity|]. simpl. repeat split; reflexivity. }
    destruct (run_idle_pipe (list_producer [1; 2; 3]) [1; 2; 3] Hdet sched _
                (inv_boot (list_producer [1; 2; 3]) 0 (@nil nat))
                (delivers_boot (list_producer [1; 2; 3]) [1; 2; 3] 0 (@nil nat))
                (idle_pipe_boot (list_producer [1; 2; 3]) (@nil nat)))
      as (s & Hs & Hinv & _ & Hz).
    exists s. split; [exact Hs|].
    pose proof Hz as (_ & _ & _ & _ & _ & _ & _ & _ & Hsn).
    rewrite Forall_forall in Hsn. split_and!.
    + intros v Hin. by specialize (Hsn _ Hin).
    + intros Hin. by specialize (Hsn _ Hin).
    + intros out r. by apply idle_pipe_waits.
  - eexists. split; [vm_compute; reflexivity|]. split; reflexivity.
  - vm_compute. reflexivity.
Qed.

End ThreadedIterFacts.

(** * More on the multi-producer pipe *)

Module MultiThreadedIterFacts.
Import MultiThreadedIter MultiThreadedIterProofs.

(** ** Every pass delivers all the records *)

Section Replay.
Context {Src T : Type} (P : Producer Src) (F : Src -> nat -> T) (items : list Src).
Context (n qc c : nat).
Hypothesis Hdet : TI.produces P items.
Implicit Types (s : System (T:=T) P) (g : TI.System P).

Lemma tally_rewound (o : list (@Obs T)) : tally (o ++ rewind_stages) = 0.
Proof.
  change (@rewind_stages T)
    with ([Stopped; Drained; Joined; Drained; ResetRun; UpstreamRewound] ++ [@Relaunched T]).
  by rewrite app_assoc, tally_snoc.
Qed.

(** X5: with at least one worker and room for one entry in the queue
    and in the upstream pipe, from any state that the pipe reaches with
    the consumer between two calls, whatever it has consumed and however
    often it has rewound: the threads can be scheduled so that the calls
    of [Next()] return the records still owed since the last rewind, M
    in all, and then false; and so that a call of [BeforeFirst()]
    returns and the calls of [Next()] after it return M records again
    and then false. *)
Theorem every_pass_delivers_all (p0 : PState P) (sched : list Move) :
  0 < n -> 0 < qc -> 0 < c ->
  exists s,
    run P F sched (boot P n qc c p0) = Ok s /\
    (cpc s = Idle ->
       (exists sched' s' (more : list T),
          (Rewind ∉ sched') /\ run P F sched' s = Ok s' /\ cpc s' = Idle /\
          seen s' = seen s ++ (Got <$> more) ++ [End] /\
          tally (seen s) + length more = length items) /\
       (exists sched' s' (more : list T),
          run P F sched' s = Ok s' /\ cpc s' = Idle /\
          seen s' = seen s ++ rewind_stages ++ (Got <$> more) ++ [End] /\
          length more = length items)).
Proof using Hdet.
  intros Hn Hqc Hc.
  destruct (run_invs P F items n qc c Hdet sched _ _ (minv_boot P items n qc c p0)
              (linv_boot P n qc c p0)) as (s & g & Hrun & Hminv & Hlinv).
  exists s. split; [done|]. intros Hidle. split.
  - destruct (user_finish P F items n qc c Hdet s g Hqc Hc Hminv (or_introl Hidle))
      as (sched' & s' & g' & more & Hno & Hr & Hm' & Hcp' & Hseen' & Hnull').
    exists sched', s', more. split_and!; try done.
    destruct (user_count P items n qc c s' g' Hm' (or_introl Hcp')) as [_ Hall].
    specialize (Hall Hn Hnull'). by rewrite Hseen', tally_more in Hall.
  - destruct (rewind_completes P F items n qc c Hdet p0 s g Hqc Hc Hminv Hlinv Hidle)
      as (sched1 & s1 & g1 & Hr1 & Hm1 & Hcp1 & Hseen1 & _).
    destruct (user_finish P F items n qc c Hdet s1 g1 Hqc Hc Hm1 (or_introl Hcp1))
      as (sched2 & s2 & g2 & more & _ & Hr2 & Hm2 & Hcp2 & Hseen2 & Hnull2).
    exists (sched1 ++ sched2), s2, more. split_and!; try done.
    + by rewrite (run_append P F _ _ _ _ Hr1).
    + by rewrite Hseen2, Hseen1, <- app_assoc.
    + destruct (user_count P items n qc c s2 g2 Hm2 (or_introl Hcp2)) as [_ Hall].
      specialize (Hall Hn Hnull2).
      by rewrite Hseen2, Hseen1, tally_more, tally_rewound in Hall.
Qed.

End Replay.

(** ** The output cells *)

Section Cells.
Context {Src T : Type} (P : Producer Src) (F : Src -> nat -> T) (items : list Src).
Context (n qc c : nat).
Implicit Types (s : System (T:=T) P) (g : TI.System P) (h : option WorkerPc).
Implicit Types (q : list CellType).

(** A thread that found the free pool empty: its call of [next] will
    allocate a cell. *)
Definition allocating h : nat :=
  match h with Some (WCall None _) => 1 | _ => 0 end.

(** A thread that holds an output cell or is about to allocate one. *)
Definition busy h : nat := length (cell_of h) + allocating h.

Lemma busy_le h : busy h <= 1.
Proof. destruct h as [[| | |[]| | | |]|]; unfold busy; simpl; lia. Qed.

Lemma tot_busy (ths : list (option WorkerPc)) :
  tot busy ths = length (ths ≫= cell_of) + tot allocating ths.
Proof.
  induction ths as [|h ths IH]; [done|].
  rewrite bind_cons, !tot_cons, length_app, IH. unfold busy. lia.
Qed.

Lemma queue_cells_length q : length (queue_cells q) <= length q.
Proof.
  induction q as [|[[a|] src] q IH]; simpl; [done| |].
  - change (length (queue_cells q) <= length q) in IH. unfold queue_cells in *. simpl.
    lia.
  - unfold queue_cells in *. simpl. lia.
Qed.

(** The output cells of the pipe are the cells allocated, each at one
    place; the queue is within its capacity; and with the cells still
    to be allocated they are at most one for each entry of the queue,
    one for each thread, and one for the consumer. *)
Record binv s : Prop := mkBinv {
  bi_owns : TP.owns (cells (world s)) (out_cells P (iter (world s)));
  bi_fifo : length (the_fifo P (iter (world s))) <= qc;
  bi_bound :
    length (out_cells P (iter (world s)))
    + tot allocating (producer_threads_ (iter (world s))) <= qc + n + 1
}.

Lemma binv_boot (p0 : PState P) : binv (boot P n qc c p0).
Proof.
  assert (replicate n (Some WNext) ≫= cell_of = []) as Hnone.
  { induction n as [|k IH]; [done|]. exact IH. }
  constructor; unfold out_cells, the_fifo; simpl; rewrite ?Hnone; simpl.
  - split; [apply NoDup_nil_2|]. split; [apply Forall_nil_2|done].
  - lia.
  - rewrite tot_replicate. simpl. lia.
Qed.

Lemma minv_threads s g :
  minv P items n qc c s g -> length (producer_threads_ (iter (world s))) = n.
Proof.
  intros [_ _ _ _ _ _ _ _ _ _ Hph _].
  destruct (phase_of (cpc s)); try done.
  - by destruct Hph as (_ & [? _] & _).
  - by destruct Hph as (_ & [? _] & _).
  - destruct Hph as (_ & -> & _). apply length_replicate.
Qed.

Ltac open_state s :=
  destruct s as [[[od l tn fs nu ths bq qcap fc] ht rs] cp sn].

Lemma owns_Some (hp : heap T) p l : TP.owns hp l -> p ∈ l -> exists a, p = Some a.
Proof.
  intros (_ & Hl & _) Hin. rewrite Forall_forall in Hl.
  destruct (Hl p Hin) as (v & a & -> & _). eauto.
Qed.

(** A section of a worker. *)
Lemma work_binv tid s s' g :
  minv P items n qc c s g -> binv s -> step P F (Work tid) s = Ok s' -> binv s'.
Proof.
  intros Hminv [Ho Hf Hb] Hs.
  pose proof (minv_threads s g Hminv) as Hlen.
  destruct Hminv as [_ _ _ _ _ _ ([ff bcap kd] & Hq & Hkd & Hcap) _ _ _ _ _].
  open_state s. unfold out_cells, the_fifo in *. simpl in *. subst bq kd bcap.
  apply TP.obind_Ok in Hs as (w' & Hw & [= <-]).
  unfold producer_thread_body_ in Hw. simpl in Hw.
  destruct (ths !! tid) as [[pc|]|] eqn:Hlook; try done.
  pose proof (fun pc' => threads_update ths tid pc pc' Hlook) as Hupd.
  destruct pc as [|src|src|cell src|cell src| | |]; simpl in *; try done.
  - (* loader_->Next *)
    apply TP.obind_Ok in Hw as ([[more src] l'] & Hn & [= <-]).
    destruct more;
      [destruct (Hupd (WCheck src)) as (_ & _ & Htot & _ & (R & H1 & H2))
      |destruct (Hupd WPushNull) as (_ & _ & Htot & _ & (R & H1 & H2))];
      specialize (Htot allocating); simpl in *;
      (constructor; unfold out_cells, the_fifo; simpl;
       [eapply TP.owns_perm; [|exact Ho]; rewrite H1, H2; done
       |done
       |rewrite !length_app in *; rewrite H2; rewrite H1 in Hb; unfold ptr in *; destruct od; simpl in *; lia]).
  - (* force_stopped_ *)
    injection Hw as <-.
    destruct fs;
      [destruct (Hupd WPushNull) as (_ & _ & Htot & _ & (R & H1 & H2))
      |destruct (Hupd (WTake src)) as (_ & _ & Htot & _ & (R & H1 & H2))];
      specialize (Htot allocating); simpl in *;
      (constructor; unfold out_cells, the_fifo; simpl;
       [eapply TP.owns_perm; [|exact Ho]; rewrite H1, H2; done
       |done
       |rewrite !length_app in *; rewrite H2; rewrite H1 in Hb; unfold ptr in *; destruct od; simpl in *; lia]).
  - (* the free cell *)
    destruct fc as [|cell rest]; injection Hw as <-.
    + destruct (Hupd (WCall None src)) as (_ & _ & Htot & _ & (R & H1 & H2)).
      pose proof (Htot allocating) as Hta. pose proof (Htot busy) as Htb.
      simpl in *. unfold busy in Htb at 2 3. simpl in Htb.
      constructor; unfold out_cells, the_fifo; simpl.
      * eapply TP.owns_perm; [|exact Ho]. rewrite H1, H2. done.
      * done.
      * pose proof (tot_le busy (<[tid:=Some (WCall None src)]> ths) 1 busy_le) as Hle.
        rewrite length_insert, Hlen in Hle.
        rewrite tot_busy in Hle.
        pose proof (queue_cells_length ff).
        rewrite !length_app. destruct od; simpl; lia.
    + destruct (Hupd (WCall cell src)) as (_ & _ & Htot & _ & (R & H1 & H2)).
      specialize (Htot allocating).
      destruct (owns_Some _ cell _ Ho) as [a ->]; [apply list_elem_of_here|].
      simpl in *.
      constructor; unfold out_cells, the_fifo; simpl.
      * eapply TP.owns_perm; [|exact Ho]. rewrite H1, H2. solve_Permutation.
      * done.
      * rewrite !length_app in *. rewrite H2. rewrite H1 in Hb.
        unfold ptr in *; destruct od; simpl in *; rewrite ?length_app in *; simpl in *; lia.
  - (* next(&cell, source_data, tid) *)
    apply TP.obind_Ok in Hw as ([cell' w1] & Ht & [= <-]).
    unfold transform in Ht. simpl in Ht.
    destruct src as [a|]; [|done].
    destruct (cell_value (TI.cells P l) a) as [v|]; [|done].
    destruct cell as [b|]; simplify_eq/=.
    + destruct (Hupd (WPush (Some b) (Some a))) as (_ & _ & Htot & _ & (R & H1 & H2)).
      specialize (Htot allocating). simpl in *.
      constructor; unfold out_cells, the_fifo; simpl.
      * apply TP.owns_write.
        -- rewrite H2, !elem_of_app, elem_of_cons. tauto.
        -- eapply TP.owns_perm; [|exact Ho]. rewrite H1, H2. done.
      * done.
      * rewrite !length_app in *. rewrite H2. rewrite H1 in Hb. unfold ptr in *; destruct od; simpl in *; lia.
    + destruct (Hupd (WPush (Some (length ht)) (Some a)))
        as (_ & _ & Htot & _ & (R & H1 & H2)).
      specialize (Htot allocating). simpl in *.
      constructor; unfold out_cells, the_fifo; simpl.
      * eapply TP.owns_perm; [|apply TP.owns_new, Ho]. rewrite H1, H2.
        solve_Permutation.
      * done.
      * rewrite !length_app in *. rewrite H2. rewrite H1 in Hb. unfold ptr in *; destruct od; simpl in *; lia.
  - (* queue_->Push *)
    unfold push_cell, Push in Hw. simpl in Hw.
    destruct (length ff <? qc) eqn:Hroom; simplify_eq/=.
    apply Nat.ltb_lt in Hroom.
    destruct (Hupd WNext) as (_ & _ & Htot & _ & (R & H1 & H2)).
    specialize (Htot allocating). simpl in *.
    destruct (owns_Some _ cell _ Ho) as [b ->].
    { rewrite H1, !elem_of_app, elem_of_cons. tauto. }
    constructor; unfold out_cells, the_fifo; simpl; rewrite ?queue_cells_snoc; simpl.
    + eapply TP.owns_perm; [|exact Ho]. rewrite H1, H2. solve_Permutation.
    + rewrite length_app. simpl. lia.
    + rewrite !length_app in *. rewrite H2. rewrite H1 in Hb. unfold ptr in *; destruct od; simpl in *; lia.
  - (* the sentinel *)
    unfold push_cell, Push in Hw. simpl in Hw.
    destruct (length ff <? qc) eqn:Hroom; simplify_eq/=.
    apply Nat.ltb_lt in Hroom.
    destruct (Hupd WReturn) as (_ & _ & Htot & _ & (R & H1 & H2)).
    specialize (Htot allocating). simpl in *.
    constructor; unfold out_cells, the_fifo; simpl; rewrite ?queue_cells_snoc; simpl.
    + eapply TP.owns_perm; [|exact Ho]. rewrite H1, H2, app_nil_r. done.
    + rewrite length_app. simpl. lia.
    + rewrite app_nil_r, !length_app in *. rewrite H2. rewrite H1 in Hb.
      unfold ptr in *; destruct od; simpl in *; lia.
  - (* the return of the thread function *)
    injection Hw as <-.
    destruct (Hupd WExit) as (_ & _ & Htot & _ & (R & H1 & H2)).
    specialize (Htot allocating). simpl in *.
    constructor; unfold out_cells, the_fifo; simpl.
    + eapply TP.owns_perm; [|exact Ho]. rewrite H1, H2. done.
    + done.
    + rewrite !length_app in *. rewrite H2. rewrite H1 in Hb.
      unfold ptr in *; destruct od; simpl in *; lia.
Qed.

Lemma ended_no_cells (ths : list (option WorkerPc)) :
  all_ended ths = true -> ths ≫= cell_of = [] /\ tot allocating ths = 0.
Proof.
  induction ths as [|h ths IH]; [done|]. intros H. simpl in H.
  apply andb_prop in H as [Hh Hr].
  destruct (IH Hr) as [IH1 IH2]. rewrite bind_cons, tot_cons, IH1, IH2.
  by destruct h as [[]|].
Qed.

Lemma fresh_no_cells k (pc : option WorkerPc) :
  cell_of pc = [] -> allocating pc = 0 ->
  replicate k pc ≫= cell_of = [] /\ tot allocating (replicate k pc) = 0.
Proof.
  intros Hc Ha. induction k as [|k [IH1 IH2]]; [done|].
  change (replicate (S k) pc) with (pc :: replicate k pc).
  by rewrite bind_cons, tot_cons, IH1, IH2, Hc, Ha.
Qed.

(** The first section of [Next()]: the recycling of [out_data_]. *)
Lemma enter_binv by_ s s' :
  binv s -> enter P by_ s = Ok s' -> binv s'.
Proof.
  intros [Ho Hf Hb]. unfold enter. rewrite Next_enter_eq.
  destruct (thread_num_ (iter (world s)) <=? null_cell_num_ (iter (world s))).
  - intros Hw%returned_world. open_state s. destruct s' as [w' cp' sn']. simpl in *.
    subst w'. unfold out_cells, the_fifo in *. simpl in *.
    constructor; unfold out_cells, the_fifo; simpl.
    + eapply TP.owns_perm; [|exact Ho]. solve_Permutation.
    + done.
    + rewrite !length_app in *. unfold ptr in *. destruct od; simpl in *; lia.
  - intros [= <-]. open_state s. unfold out_cells, the_fifo in *. simpl in *.
    constructor; unfold out_cells, the_fifo; simpl.
    + eapply TP.owns_perm; [|exact Ho]. solve_Permutation.
    + done.
    + rewrite !length_app in *. unfold ptr in *. destruct od; simpl in *; lia.
Qed.

(** A turn of the loop of [Next(&out_data_)]: the pop. *)
Lemma turn_binv by_ s s' :
  out_data_ (iter (world s)) = None ->
  binv s -> turn P by_ s = Ok s' -> binv s'.
Proof.
  intros Hod [Ho Hf Hb]. unfold turn.
  intros ([r w'] & Hw & Hr)%TP.obind_Ok.
  assert (world s' = w') as Hw'.
  { destruct r as [more|]; [by apply returned_world in Hr|by injection Hr as <-]. }
  clear Hr. open_state s. destruct s' as [w1 cp' sn']. simpl in *. subst w1 od.
  unfold Next_turn, Pop in Hw. simpl in Hw. unfold out_cells, the_fifo in *.
  destruct bq as [[ff cap kd]|]; [|done]. simpl in *.
  destruct kd; simpl in Hw.
  { injection Hw as <- <-. by constructor. }
  destruct ff as [|[[a|] src] rest]; simpl in Hw; [done| |].
  - injection Hw as <- <-.
    change (queue_cells ((Some a, src) :: rest)) with (Some a :: queue_cells rest) in *.
    simpl in *.
    constructor; unfold out_cells, the_fifo; simpl.
    + eapply TP.owns_perm; [|exact Ho]. solve_Permutation.
    + lia.
    + unfold ptr in *. repeat (progress (rewrite ?length_app in *; simpl in * )). lia.
  - change (queue_cells ((None, src) :: rest)) with (queue_cells rest) in *.
    simpl in *.
    assert (w' = on_iter P (set_null_cell_num P (S nu))
                   (on_iter P (set_queue P (Some (mkQueue rest cap false)))
                      (mkWorld P (mkMulti P None l tn fs nu ths
                         (Some (mkQueue ((None, src) :: rest) cap false)) qcap fc) ht rs)))
      as -> by (repeat case_match; by simplify_eq).
    constructor; unfold out_cells, the_fifo; simpl; [done|lia|done].
Qed.

(** Every section keeps the invariant of the output cells. *)
Lemma step_binv mv s s' g :
  minv P items n qc c s g -> linv P s -> binv s ->
  step P F mv s = Ok s' -> binv s'.
Proof.
  intros Hminv [k (_ & _ & Hout)] Hbinv Hs.
  destruct mv as [|tid| |].
  - (* the upstream pipe *)
    simpl in Hs. unfold loader_thread in Hs.
    apply TP.obind_Ok in Hs as (w' & (l' & _ & [= <-])%TP.obind_Ok & [= <-]).
    destruct Hbinv as [Ho Hf Hb]. by constructor.
  - by apply (work_binv tid s s' g).
  - simpl in Hs. destruct (cpc s) as [|[]| | | | | | |] eqn:Hcp; try done.
    + by apply (enter_binv ByUser s).
    + by apply (turn_binv ByUser s).
  - simpl in Hs. destruct (cpc s) as [|[]| | | | | | |] eqn:Hcp; try done.
    + injection Hs as <-. destruct Hbinv as [Ho Hf Hb]. by constructor.
    + by apply (turn_binv ByDrain1 s).
    + by apply (turn_binv ByDrain2 s).
    + by apply (enter_binv ByDrain1 s).
    + (* the joins *)
      apply TP.obind_Ok in Hs as (w' & Hj & [= <-]). unfold join_all in Hj.
      destruct (all_ended _) eqn:Hall; [|done].
      destruct (_ <? _); [done|]. injection Hj as <-.
      destruct (ended_no_cells _ Hall) as [Hc Ha].
      destruct (fresh_no_cells (length (producer_threads_ (iter (world s)))) None
                  eq_refl eq_refl) as [Hc' Ha'].
      destruct Hbinv as [Ho Hf Hb]. open_state s. unfold out_cells, the_fifo in *.
      simpl in *. rewrite Hc, Ha in *.
      constructor; unfold out_cells, the_fifo; simpl; by rewrite ?Hc', ?Ha'.
    + by apply (enter_binv ByDrain2 s).
    + injection Hs as <-. destruct Hbinv as [Ho Hf Hb]. by constructor.
    + apply TP.obind_Ok in Hs as ([back l'] & _ & Hs).
      destruct Hbinv as [Ho Hf Hb]. by destruct back; injection Hs as <-; constructor.
    + apply TP.obind_Ok in Hs as (l' & _ & [= <-]).
      destruct Hbinv as [Ho Hf Hb]. by constructor.
    + (* the threads are started again *)
      injection Hs as <-.
      destruct Hminv as [_ _ _ _ _ Hn _ _ _ _ Hph _]. rewrite Hcp in Hph.
      destruct Hph as (_ & Hths & _).
      destruct (fresh_no_cells n (@None WorkerPc) eq_refl eq_refl) as [Hc Ha].
      destruct (fresh_no_cells n (Some WNext) eq_refl eq_refl) as [Hc' Ha'].
      destruct Hbinv as [Ho Hf Hb]. open_state s. unfold out_cells, the_fifo in *.
      simpl in *. subst tn ths. rewrite Hc, Ha in *.
      constructor; unfold out_cells, the_fifo, launch; simpl; by rewrite ?Hc', ?Ha'.
Qed.

(** *** What the cells hold *)

(** Every source cell in the hands of a thread or in the queue holds a
    record of [items]. *)
Definition sourced s : Prop :=
  Forall (fun p => exists x, x ∈ items /\
                     TP.holds (TI.cells P (loader_ (iter (world s)))) p x)
         (held_sources P (iter (world s))).

(** Every output cell holds the image of a record of [items], made by
    one of the threads. *)
Definition made s : Prop :=
  Forall (fun p => exists x tid, x ∈ items /\ tid < n /\
                     TP.holds (cells (world s)) p (F x tid))
         (out_cells P (iter (world s))).

Lemma sourced_sub s s' :
  TI.cells P (loader_ (iter (world s'))) = TI.cells P (loader_ (iter (world s))) ->
  (forall p, p ∈ held_sources P (iter (world s')) -> p ∈ held_sources P (iter (world s))) ->
  sourced s -> sourced s'.
Proof.
  unfold sourced. intros -> Hsub H. rewrite Forall_forall in H |- *. auto.
Qed.

Lemma made_sub s s' :
  cells (world s') = cells (world s) ->
  (forall p, p ∈ out_cells P (iter (world s')) -> p ∈ out_cells P (iter (world s))) ->
  made s -> made s'.
Proof.
  unfold made. intros -> Hsub H. rewrite Forall_forall in H |- *. auto.
Qed.

Lemma cursor_suffix sn (E : list Src) x :
  TI.cursor items sn E -> x ∈ E -> x ∈ items.
Proof.
  induction 1 as [|sn v rest _ IH|sn _ IH|sn rest _ IH]; try done.
  intros Hin. apply IH. by apply list_elem_of_further.
Qed.

Lemma boot_no_sources (p0 : PState P) :
  held_sources P (iter (world (boot P n qc c p0 : System (T:=T) P))) = [].
Proof.
  unfold held_sources, the_fifo. simpl. rewrite app_nil_r.
  induction n as [|k IH]; [done|]. exact IH.
Qed.

Lemma boot_no_cells (p0 : PState P) :
  out_cells P (iter (world (boot P n qc c p0 : System (T:=T) P))) = [].
Proof.
  unfold out_cells, the_fifo. simpl.
  induction n as [|k IH]; [done|]. exact IH.
Qed.

Lemma sourced_boot (p0 : PState P) : sourced (boot P n qc c p0).
Proof. unfold sourced. rewrite boot_no_sources. constructor. Qed.

Lemma made_boot (p0 : PState P) : made (boot P n qc c p0).
Proof. unfold made. rewrite boot_no_cells. constructor. Qed.

Lemma replicate_no_sources k (pc : option WorkerPc) :
  source_of pc = [] -> replicate k pc ≫= source_of = [].
Proof.
  intros Hc. induction k as [|k IH]; [done|].
  change (replicate (S k) pc) with (pc :: replicate k pc).
  by rewrite bind_cons, IH, Hc.
Qed.

Lemma upstream_request_cells (l l' : TI.World P) b :
  TI.BeforeFirst_request P l = Ok (b, l') -> TI.cells P l' = TI.cells P l.
Proof.
  destruct l as [[o sg pr th e cap od q f] h src d]. unfold TI.BeforeFirst_request.
  simpl. destruct od; simpl; destruct sg; simpl; destruct pr; simpl; try done;
    by intros [= <- <-].
Qed.

Lemma upstream_ack_cells (l l' : TI.World P) :
  TI.BeforeFirst_ack P l = Ok l' -> TI.cells P l' = TI.cells P l.
Proof.
  unfold TI.BeforeFirst_ack. destruct (TI.producer_sig_processed_ _); [|done].
  by intros [= <-].
Qed.

(** The calls of [Next()] leave the source cells of the threads and of
    the queue alone. *)
Lemma consumer_sourced_enter by_ s s' :
  sourced s -> enter P by_ s = Ok s' -> sourced s'.
Proof.
  intros Hsrc. unfold enter. rewrite Next_enter_eq.
  destruct (_ <=? _).
  - intros Hw%returned_world. revert Hsrc. apply sourced_sub; by rewrite Hw.
  - intros [= <-]. revert Hsrc. by apply sourced_sub.
Qed.

Lemma consumer_sourced_turn by_ s s' :
  sourced s -> turn P by_ s = Ok s' -> sourced s'.
Proof.
  intros Hsrc. unfold turn. intros ([r w'] & Hw & Hr)%TP.obind_Ok.
  assert (world s' = w') as Hw'.
  { destruct r as [more|]; [by apply returned_world in Hr|by injection Hr as <-]. }
  clear Hr. revert Hsrc. open_state s. destruct s' as [w1 cp' sn']. simpl in *. subst w1.
  unfold Next_turn, Pop in Hw. simpl in Hw.
  destruct bq as [[ff cap kd]|]; [|done]. simpl in *.
  destruct kd; simpl in Hw.
  { injection Hw as <- <-. by apply sourced_sub. }
  destruct ff as [|[[a|] src] rest]; simpl in Hw; [done| |].
  - injection Hw as <- <-. apply sourced_sub; [done|]. simpl.
    unfold held_sources, the_fifo. simpl.
    change (queue_sources ((Some a, src) :: rest)) with (src :: queue_sources rest).
    intros p. rewrite !elem_of_app, elem_of_cons. tauto.
  - assert (w' = on_iter P (set_null_cell_num P (S nu))
                   (on_iter P (set_queue P (Some (mkQueue rest cap false)))
                      (mkWorld P (mkMulti P od l tn fs nu ths
                         (Some (mkQueue ((None, src) :: rest) cap false)) qcap fc) ht rs)))
      as -> by (repeat case_match; by simplify_eq).
    by apply sourced_sub.
Qed.

(** The source cells keep their records. *)
Lemma step_sourced mv s s' g :
  minv P items n qc c s g -> sourced s -> step P F mv s = Ok s' -> sourced s'.
Proof.
  intros Hminv Hsrc Hs. destruct mv as [|tid| |].
  - (* the upstream pipe *)
    simpl in Hs. unfold loader_thread in Hs.
    apply TP.obind_Ok in Hs as (w' & (l' & Hl & [= <-])%TP.obind_Ok & [= <-]).
    destruct Hminv as [Hld Hup _ _ Hloans _ _ _ _ _ _ _].
    unfold sourced in *. simpl. rewrite Forall_forall in Hsrc |- *.
    intros p Hp. destruct (Hsrc p Hp) as (x & Hx & Hh). exists x. split; [done|].
    apply (ThreadedIterFacts.producer_fun_holds P (loader_ (iter (world s))) l'
             (TI.loans P g) p x); try done.
    + rewrite <- Hld. apply (TP.inv_owns P c g Hup).
    + rewrite !elem_of_app. do 3 right.
      eapply elem_of_submseteq; [|exact Hloans]. exact Hp.
  - (* a worker *)
    pose proof Hs as Hs0.
    simpl in Hs. apply TP.obind_Ok in Hs as (w' & Hw & [= <-]).
    unfold producer_thread_body_ in Hw.
    destruct (producer_threads_ (iter (world s)) !! tid) as [[pc|]|] eqn:Hlook; try done.
    destruct (thread_phase P items n qc c s g tid pc Hminv Hlook) as [_ Hgidle].
    pose proof (fun pc' => threads_update _ tid pc pc' Hlook) as Hupd.
    destruct Hminv as [Hld Hup Hdel _ Hloans _ ([ff bcap kd] & Hq & Hkd & Hcap) _ _ _ _ _].
    open_state s. unfold sourced, held_sources, the_fifo in *. simpl in *. subst bq kd bcap.
    destruct pc as [|src|src|cell src|cell src| | |]; simpl in *; try done.
    + (* loader_->Next *)
      apply TP.obind_Ok in Hw as ([[more src] l'] & Hn & [= <-]).
      unfold TI.Next in Hn.
      destruct (TI.producer_sig_ (TI.iter P l)); [| done |].
      * destruct (TI.queue_ (TI.iter P l)) as [|front rest] eqn:Hqu.
        -- destruct (TI.produce_end_ (TI.iter P l)); [|done]. injection Hn as <- <- <-.
           destruct (Hupd WPushNull) as (_ & _ & _ & (R & H1 & H2) & _). simpl in *.
           rewrite Forall_forall in Hsrc |- *. intros p Hp. apply Hsrc.
           revert Hp. rewrite !elem_of_app, H1, H2. tauto.
        -- injection Hn as <- <- <-.
           destruct (Hupd (WCheck front)) as (_ & _ & _ & (R & H1 & H2) & _). simpl in *.
           unfold TP.delivers in Hdel. rewrite Hgidle in Hdel.
           destruct Hdel as (E & Hsup & Hcur).
           assert (TI.queue_ (TI.iter P (TI.world P g)) = front :: rest) as Hqg
             by (by rewrite Hld).
           destruct (TP.supply_front P items _ E front rest Hsup Hqg)
             as (v & E' & -> & Hv & _).
           rewrite Hld in Hv.
           rewrite Forall_forall in Hsrc |- *. intros p Hp.
           rewrite !elem_of_app, H2, elem_of_cons in Hp.
           destruct Hp as [[->|Hp]|Hp].
           ++ exists v. split; [|done].
              apply (cursor_suffix _ _ _ Hcur), list_elem_of_here.
           ++ apply Hsrc. rewrite !elem_of_app, H1. tauto.
           ++ apply Hsrc. rewrite !elem_of_app. tauto.
      * injection Hn as <- <- <-.
        destruct (Hupd WPushNull) as (_ & _ & _ & (R & H1 & H2) & _). simpl in *.
        rewrite Forall_forall in Hsrc |- *. intros p Hp. apply Hsrc.
        revert Hp. rewrite !elem_of_app, H1, H2. tauto.
    + (* force_stopped_ *)
      injection Hw as <-. simpl.
      rewrite Forall_forall in Hsrc |- *. intros p Hp. apply Hsrc. revert Hp.
      destruct fs;
        [destruct (Hupd WPushNull) as (_ & _ & _ & (R & H1 & H2) & _)
        |destruct (Hupd (WTake src)) as (_ & _ & _ & (R & H1 & H2) & _)];
        simpl in *; rewrite !elem_of_app, H1, H2, ?elem_of_cons; tauto.
    + (* the free cell *)
      rewrite Forall_forall in Hsrc |- *.
      destruct fc as [|cell rest]; injection Hw as <-; simpl;
        intros p Hp; apply Hsrc; revert Hp;
        [destruct (Hupd (WCall None src)) as (_ & _ & _ & (R & H1 & H2) & _)
        |destruct (Hupd (WCall cell src)) as (_ & _ & _ & (R & H1 & H2) & _)];
        simpl in *; rewrite !elem_of_app, H1, H2; tauto.
    + (* next(&cell, source_data, tid) *)
      apply TP.obind_Ok in Hw as ([cell' w1] & Ht & [= <-]).
      unfold transform in Ht. simpl in Ht.
      destruct src as [a|]; [|done].
      destruct (cell_value (TI.cells P l) a) as [v|]; [|done].
      rewrite Forall_forall in Hsrc |- *.
      destruct cell as [b|]; simplify_eq/=; intros p Hp; apply Hsrc; revert Hp;
        [destruct (Hupd (WPush (Some b) (Some a))) as (_ & _ & _ & (R & H1 & H2) & _)
        |destruct (Hupd (WPush (Some (length ht)) (Some a)))
           as (_ & _ & _ & (R & H1 & H2) & _)];
        simpl in *; rewrite !elem_of_app, H1, H2; tauto.
    + (* queue_->Push *)
      unfold push_cell, Push in Hw. simpl in Hw.
      destruct (length ff <? qc); simplify_eq/=.
      destruct (Hupd WNext) as (_ & _ & _ & (R & H1 & H2) & _). simpl in *.
      rewrite Forall_forall in Hsrc |- *. intros p Hp. apply Hsrc. revert Hp.
      rewrite queue_sources_snoc, !elem_of_app, H1, H2. simpl.
      destruct cell; rewrite ?elem_of_cons, ?elem_of_nil; tauto.
    + (* the sentinel *)
      unfold push_cell, Push in Hw. simpl in Hw.
      destruct (length ff <? qc); simplify_eq/=.
      destruct (Hupd WReturn) as (_ & _ & _ & (R & H1 & H2) & _). simpl in *.
      rewrite Forall_forall in Hsrc |- *. intros p Hp. apply Hsrc. revert Hp.
      rewrite queue_sources_snoc, !elem_of_app, H1, H2. simpl.
      rewrite ?elem_of_nil. tauto.
    + (* the return of the thread function *)
      injection Hw as <-. simpl.
      destruct (Hupd WExit) as (_ & _ & _ & (R & H1 & H2) & _). simpl in *.
      rewrite Forall_forall in Hsrc |- *. intros p Hp. apply Hsrc. revert Hp.
      rewrite !elem_of_app, H1, H2. tauto.
  - (* Next() *)
    simpl in Hs. destruct (cpc s) as [|[]| | | | | | |] eqn:Hcp; try done.
    + revert Hs. apply consumer_sourced_enter. done.
    + revert Hs. apply consumer_sourced_turn. done.
  - simpl in Hs. destruct (cpc s) as [|[]| | | | | | |] eqn:Hcp; try done.
    + injection Hs as <-. revert Hsrc. by apply sourced_sub.
    + revert Hs. by apply consumer_sourced_turn.
    + revert Hs. by apply consumer_sourced_turn.
    + revert Hs. by apply consumer_sourced_enter.
    + apply TP.obind_Ok in Hs as (w' & Hj & [= <-]). unfold join_all in Hj.
      destruct (all_ended _); [|done]. destruct (_ <? _); [done|]. injection Hj as <-.
      revert Hsrc. apply sourced_sub; [done|]. simpl.
      unfold held_sources, the_fifo. simpl.
      rewrite (replicate_no_sources _ None eq_refl). intros p.
      rewrite !elem_of_app, elem_of_nil. tauto.
    + revert Hs. by apply consumer_sourced_enter.
    + injection Hs as <-. revert Hsrc. by apply sourced_sub.
    + apply TP.obind_Ok in Hs as ([back l'] & Hb%upstream_request_cells & Hs).
      revert Hsrc. by destruct back; injection Hs as <-; apply sourced_sub.
    + apply TP.obind_Ok in Hs as (l' & Hb%upstream_ack_cells & [= <-]).
      revert Hsrc. by apply sourced_sub.
    + injection Hs as <-. revert Hsrc. apply sourced_sub; [done|]. simpl.
      unfold held_sources, the_fifo, launch. simpl.
      rewrite (replicate_no_sources _ (Some WNext) eq_refl). intros p.
      rewrite !elem_of_app, elem_of_nil. tauto.
Qed.

(** The calls of [Next()] move the output cells and write to none. *)
Lemma consumer_made_enter by_ s s' :
  made s -> enter P by_ s = Ok s' -> made s'.
Proof.
  intros Hm. unfold enter. rewrite Next_enter_eq.
  assert (forall p,
    p ∈ out_cells P (iter (on_iter P (fun m =>
          set_free_cells P
            (free_cells_ m ++ (if out_data_ m is Some a then [Some a] else []))
            (set_out_data P None m)) (world s))) ->
    p ∈ out_cells P (iter (world s))) as Hsub.
  { intros p. unfold out_cells, the_fifo. simpl. rewrite !elem_of_app, ?elem_of_nil. tauto. }
  destruct (_ <=? _).
  - intros Hw%returned_world. revert Hm. apply made_sub; by rewrite Hw.
  - intros [= <-]. revert Hm. by apply made_sub.
Qed.

Lemma consumer_made_turn by_ s s' :
  made s -> turn P by_ s = Ok s' -> made s'.
Proof.
  intros Hm. unfold turn. intros ([r w'] & Hw & Hr)%TP.obind_Ok.
  assert (world s' = w') as Hw'.
  { destruct r as [more|]; [by apply returned_world in Hr|by injection Hr as <-]. }
  clear Hr. revert Hm. open_state s. destruct s' as [w1 cp' sn']. simpl in *. subst w1.
  unfold Next_turn, Pop in Hw. simpl in Hw.
  destruct bq as [[ff cap kd]|]; [|done]. simpl in *.
  destruct kd; simpl in Hw.
  { injection Hw as <- <-. by apply made_sub. }
  destruct ff as [|[[a|] src] rest]; simpl in Hw; [done| |].
  - injection Hw as <- <-. apply made_sub; [done|]. simpl.
    unfold out_cells, the_fifo. simpl.
    change (queue_cells ((Some a, src) :: rest)) with (Some a :: queue_cells rest).
    intros p. repeat (rewrite ?elem_of_app, ?elem_of_cons, ?elem_of_nil). tauto.
  - assert (w' = on_iter P (set_null_cell_num P (S nu))
                   (on_iter P (set_queue P (Some (mkQueue rest cap false)))
                      (mkWorld P (mkMulti P od l tn fs nu ths
                         (Some (mkQueue ((None, src) :: rest) cap false)) qcap fc) ht rs)))
      as -> by (repeat case_match; by simplify_eq).
    by apply made_sub.
Qed.

(** The output cells hold what the threads have made. *)
Lemma step_made mv s s' g :
  minv P items n qc c s g -> binv s -> sourced s -> made s ->
  step P F mv s = Ok s' -> made s'.
Proof.
  intros Hminv Hbinv Hsrc Hm Hs. destruct mv as [|tid| |].
  - (* the upstream pipe *)
    simpl in Hs. unfold loader_thread in Hs.
    apply TP.obind_Ok in Hs as (w' & (l' & Hl & [= <-])%TP.obind_Ok & [= <-]).
    revert Hm. by apply made_sub.
  - (* a worker *)
    pose proof (minv_threads s g Hminv) as Hlen.
    simpl in Hs. apply TP.obind_Ok in Hs as (w' & Hw & [= <-]).
    unfold producer_thread_body_ in Hw.
    destruct (producer_threads_ (iter (world s)) !! tid) as [[pc|]|] eqn:Hlook; try done.
    pose proof (lookup_lt_Some _ _ _ Hlook) as Htid. rewrite Hlen in Htid.
    pose proof (fun pc' => threads_update _ tid pc pc' Hlook) as Hupd.
    destruct Hminv as [_ _ _ _ _ _ ([ff bcap kd] & Hq & Hkd & Hcap) _ _ _ _ _].
    destruct Hbinv as [Ho _ _].
    open_state s. unfold made, sourced, held_sources, out_cells, the_fifo in *.
    simpl in *. subst bq kd bcap.
    destruct pc as [|src|src|cell src|cell src| | |]; simpl in *; try done.
    + (* loader_->Next *)
      apply TP.obind_Ok in Hw as ([[more src] l'] & Hn & [= <-]). simpl.
      rewrite Forall_forall in Hm |- *. intros p Hp. apply Hm. revert Hp.
      destruct more;
        [destruct (Hupd (WCheck src)) as (_ & _ & _ & _ & (R & H1 & H2))
        |destruct (Hupd WPushNull) as (_ & _ & _ & _ & (R & H1 & H2))];
        simpl in *; rewrite !elem_of_app, H1, H2; tauto.
    + (* force_stopped_ *)
      injection Hw as <-. simpl.
      rewrite Forall_forall in Hm |- *. intros p Hp. apply Hm. revert Hp.
      destruct fs;
        [destruct (Hupd WPushNull) as (_ & _ & _ & _ & (R & H1 & H2))
        |destruct (Hupd (WTake src)) as (_ & _ & _ & _ & (R & H1 & H2))];
        simpl in *; rewrite !elem_of_app, H1, H2; tauto.
    + (* the free cell *)
      rewrite Forall_forall in Hm |- *.
      destruct fc as [|cell rest]; injection Hw as <-; simpl;
        intros p Hp; apply Hm; revert Hp.
      * destruct (Hupd (WCall None src)) as (_ & _ & _ & _ & (R & H1 & H2)).
        simpl in *. rewrite !elem_of_app, H1, H2. tauto.
      * destruct (Hupd (WCall cell src)) as (_ & _ & _ & _ & (R & H1 & H2)).
        simpl in *. rewrite !elem_of_app, H1, H2, !elem_of_cons.
        destruct cell; simpl; rewrite ?elem_of_app, ?elem_of_cons, ?elem_of_nil; tauto.
    + (* next(&cell, source_data, tid) *)
      apply TP.obind_Ok in Hw as ([cell' w1] & Ht & [= <-]).
      unfold transform in Ht. simpl in Ht.
      destruct src as [a|]; [|done].
      destruct (cell_value (TI.cells P l) a) as [v|] eqn:Hv; [|done].
      assert (v ∈ items) as Hitem.
      { rewrite Forall_forall in Hsrc. destruct (Hsrc (Some a)) as (x & Hx & Hh).
        - destruct (Hupd WNext) as (_ & _ & _ & (R & H1 & _) & _). simpl in H1.
          rewrite elem_of_app, H1, elem_of_cons. tauto.
        - destruct Hh as (a' & [= <-] & Hh). congruence. }
      rewrite Forall_forall in Hm |- *.
      destruct cell as [b|]; simplify_eq/=.
      * destruct (Hupd (WPush (Some b) (Some a))) as (_ & _ & _ & _ & (R & H1 & H2)).
        simpl in *. intros p Hp.
        assert (p ∈ fc ++ (if od is Some a0 then [Some a0] else [])
                   ++ (ths ≫= cell_of) ++ queue_cells ff) as Hp'.
        { revert Hp. rewrite !elem_of_app, H1, H2. tauto. }
        destruct (decide (p = Some b)) as [->|Hne].
        -- exists v, tid. split; [done|]. split; [done|]. exists b. split; [done|].
           destruct Ho as (_ & Hlive & _). rewrite Forall_forall in Hlive.
           destruct (Hlive _ Hp') as (u & b' & [= <-] & Hu).
           apply TP.cell_value_write. by eapply TP.cell_value_lt.
        -- destruct (Hm p Hp') as (x & t & Hx & Ht & Hh). exists x, t.
           split; [done|]. split; [done|]. by apply TP.holds_write_ne.
      * destruct (Hupd (WPush (Some (length ht)) (Some a)))
          as (_ & _ & _ & _ & (R & H1 & H2)).
        simpl in *. intros p Hp.
        assert (p = Some (length ht) \/
                p ∈ fc ++ (if od is Some a0 then [Some a0] else [])
                   ++ (ths ≫= cell_of) ++ queue_cells ff) as [->|Hp'].
        { revert Hp. rewrite !elem_of_app, H1, H2, elem_of_cons. tauto. }
        -- exists v, tid. split; [done|]. split; [done|]. exists (length ht).
           split; [done|]. apply TP.cell_value_new.
        -- destruct (Hm p Hp') as (x & t & Hx & Ht & Hh). exists x, t.
           split; [done|]. split; [done|]. by apply TP.holds_new_old.
    + (* queue_->Push *)
      unfold push_cell, Push in Hw. simpl in Hw.
      destruct (length ff <? qc); simplify_eq/=.
      destruct (Hupd WNext) as (_ & _ & _ & _ & (R & H1 & H2)). simpl in *.
      rewrite Forall_forall in Hm |- *. intros p Hp. apply Hm. revert Hp.
      rewrite queue_cells_snoc, !elem_of_app, H1, H2. simpl.
      destruct cell; rewrite ?elem_of_cons, ?elem_of_nil; tauto.
    + (* the sentinel *)
      unfold push_cell, Push in Hw. simpl in Hw.
      destruct (length ff <? qc); simplify_eq/=.
      destruct (Hupd WReturn) as (_ & _ & _ & _ & (R & H1 & H2)). simpl in *.
      rewrite Forall_forall in Hm |- *. intros p Hp. apply Hm. revert Hp.
      rewrite queue_cells_snoc, !elem_of_app, H1, H2. simpl.
      rewrite ?elem_of_nil. tauto.
    + (* the return of the thread function *)
      injection Hw as <-. simpl.
      destruct (Hupd WExit) as (_ & _ & _ & _ & (R & H1 & H2)). simpl in *.
      rewrite Forall_forall in Hm |- *. intros p Hp. apply Hm. revert Hp.
      rewrite !elem_of_app, H1, H2. tauto.
  - (* Next() *)
    simpl in Hs. destruct (cpc s) as [|[]| | | | | | |] eqn:Hcp; try done.
    + revert Hs. by apply consumer_made_enter.
    + revert Hs. by apply consumer_made_turn.
  - simpl in Hs. destruct (cpc s) as [|[]| | | | | | |] eqn:Hcp; try done.
    + injection Hs as <-. revert Hm. by apply made_sub.
    + revert Hs. by apply consumer_made_turn.
    + revert Hs. by apply consumer_made_turn.
    + revert Hs. by apply consumer_made_enter.
    + apply TP.obind_Ok in Hs as (w' & Hj & [= <-]). unfold join_all in Hj.
      destruct (all_ended _); [|done]. destruct (_ <? _); [done|]. injection Hj as <-.
      revert Hm. apply made_sub; [done|]. simpl.
      unfold out_cells, the_fifo. simpl.
      rewrite (proj1 (fresh_no_cells _ None eq_refl eq_refl)). intros p.
      rewrite !elem_of_app, ?elem_of_nil. tauto.
    + revert Hs. by apply consumer_made_enter.
    + injection Hs as <-. revert Hm. by apply made_sub.
    + apply TP.obind_Ok in Hs as ([back l'] & _ & Hs).
      revert Hm. by destruct back; injection Hs as <-; apply made_sub.
    + apply TP.obind_Ok in Hs as (l' & _ & [= <-]).
      revert Hm. by apply made_sub.
    + injection Hs as <-. revert Hm. apply made_sub; [done|]. simpl.
      unfold out_cells, the_fifo, launch. simpl.
      rewrite (proj1 (fresh_no_cells _ (Some WNext) eq_refl eq_refl)). intros p.
      rewrite !elem_of_app, ?elem_of_nil. tauto.
Qed.

(** *** What the consumer is shown *)

(** The record behind [out_data_] between two calls: the one of the
    last [Next()] when it returned true, none otherwise. *)
Definition showing s : Prop :=
  cpc s = Idle ->
  match last (seen s) with
  | Some (Got v) => TP.holds (cells (world s)) (out_data_ (iter (world s))) v
  | _ => out_data_ (iter (world s)) = None
  end.

(** Every record shown is the image of a record of [items], made by
    one of the threads. *)
Definition transformed s : Prop :=
  forall v, Got v ∈ seen s -> exists x tid, x ∈ items /\ tid < n /\ v = F x tid.

Lemma showing_boot (p0 : PState P) : showing (boot P n qc c p0).
Proof. by intros _. Qed.

Lemma transformed_boot (p0 : PState P) : transformed (boot P n qc c p0).
Proof. by intros v ?%elem_of_nil. Qed.

(** A call that returns to the user. *)
Lemma returned_showing more (w : World (T:=T) P) o s' :
  (more = false -> out_data_ (iter w) = None) ->
  returned P ByUser more w o = Ok s' -> showing s'.
Proof.
  destruct more; simpl.
  - intros _ (v & Hv & [= <-])%TP.obind_Ok _. simpl. rewrite last_snoc.
    unfold Value in Hv. destruct (out_data_ (iter w)) as [a|]; [|done].
    exists a. split; [done|]. by destruct (cell_value (cells w) a); simplify_eq.
  - intros Hod [= <-] _. simpl. rewrite last_snoc. by apply Hod.
Qed.

Lemma returned_drain by_ more (w : World (T:=T) P) o s' :
  by_ <> ByUser -> returned P by_ more w o = Ok s' -> cpc s' <> Idle.
Proof. destruct by_, more; simpl; try done; by intros _ [= <-]. Qed.

Lemma step_showing mv s s' g :
  minv P items n qc c s g -> linv P s -> binv s -> showing s ->
  step P F mv s = Ok s' -> showing s'.
Proof.
  intros Hminv [k (_ & _ & Hout)] Hbinv Hsh Hs. destruct mv as [|tid| |].
  - (* the upstream pipe *)
    simpl in Hs. unfold loader_thread in Hs.
    apply TP.obind_Ok in Hs as (w' & (l' & Hl & [= <-])%TP.obind_Ok & [= <-]).
    exact Hsh.
  - (* a worker *)
    simpl in Hs. apply TP.obind_Ok in Hs as (w' & Hw & [= <-]).
    unfold producer_thread_body_ in Hw.
    destruct (producer_threads_ (iter (world s)) !! tid) as [[pc|]|] eqn:Hlook; try done.
    pose proof (fun pc' => threads_update _ tid pc pc' Hlook) as Hupd.
    destruct Hminv as [_ _ _ _ _ _ ([ff bcap kd] & Hq & Hkd & Hcap) _ _ _ _ _].
    destruct Hbinv as [(Hnd & _ & _) _ _].
    open_state s. unfold showing, out_cells, the_fifo in *.
    simpl in *. subst bq kd bcap.
    destruct pc as [|src|src|cell src|cell src| | |]; simpl in *; try done.
    + apply TP.obind_Ok in Hw as ([[more src] l'] & Hn & [= <-]). exact Hsh.
    + injection Hw as <-. exact Hsh.
    + destruct fc as [|cell rest]; injection Hw as <-; exact Hsh.
    + apply TP.obind_Ok in Hw as ([cell' w1] & Ht & [= <-]).
      unfold transform in Ht. simpl in Ht.
      destruct src as [a|]; [|done].
      destruct (cell_value (TI.cells P l) a) as [v|] eqn:Hv; [|done].
      destruct cell as [b|]; simplify_eq/=; intros Hidle; specialize (Hsh Hidle);
        destruct (last sn) as [[u| | | | | | |]|]; try done.
      * apply TP.holds_write_ne; [|done]. intros ->.
        destruct (Hupd WNext) as (_ & _ & _ & _ & (R & H1 & _)). simpl in H1.
        rewrite H1 in Hnd. apply NoDup_app in Hnd as (_ & _ & Hnd).
        simpl in Hnd. apply NoDup_cons in Hnd as [Hnd _]. apply Hnd.
        apply list_elem_of_here.
      * by apply TP.holds_new_old.
    + unfold push_cell, Push in Hw. simpl in Hw.
      destruct (length ff <? qc); simplify_eq/=. exact Hsh.
    + unfold push_cell, Push in Hw. simpl in Hw.
      destruct (length ff <? qc); simplify_eq/=. exact Hsh.
    + injection Hw as <-. exact Hsh.
  - (* Next() *)
    simpl in Hs. destruct (cpc s) as [|[]| | | | | | |] eqn:Hcp; try done.
    + unfold enter in Hs. rewrite Next_enter_eq in Hs. destruct (_ <=? _).
      * revert Hs. by apply returned_showing.
      * by injection Hs as <-.
    + unfold turn in Hs. apply TP.obind_Ok in Hs as ([r w'] & Hw & Hr).
      destruct r as [more|]; [|by injection Hr as <-].
      revert Hr. apply returned_showing. intros ->.
      apply Next_turn_cases in Hw as (_ & _ & _ & _ & Hod & _). congruence.
  - (* BeforeFirst() *)
    simpl in Hs. destruct (cpc s) as [|[]| | | | | | |] eqn:Hcp; try done.
    + by injection Hs as <-.
    + unfold turn in Hs. apply TP.obind_Ok in Hs as ([r w'] & Hw & Hr).
      destruct r as [more|]; [|by injection Hr as <-].
      intros Hidle; by destruct (returned_drain ByDrain1 _ _ _ _ ltac:(done) Hr).
    + unfold turn in Hs. apply TP.obind_Ok in Hs as ([r w'] & Hw & Hr).
      destruct r as [more|]; [|by injection Hr as <-].
      intros Hidle; by destruct (returned_drain ByDrain2 _ _ _ _ ltac:(done) Hr).
    + unfold enter in Hs. destruct (Next_enter P (world s)) as [[more|] w'].
      * intros Hidle; by destruct (returned_drain ByDrain1 _ _ _ _ ltac:(done) Hs).
      * by injection Hs as <-.
    + by apply TP.obind_Ok in Hs as (w' & Hj & [= <-]).
    + unfold enter in Hs. destruct (Next_enter P (world s)) as [[more|] w'].
      * intros Hidle; by destruct (returned_drain ByDrain2 _ _ _ _ ltac:(done) Hs).
      * by injection Hs as <-.
    + by injection Hs as <-.
    + apply TP.obind_Ok in Hs as ([back l'] & _ & Hs).
      by destruct back; injection Hs as <-.
    + by apply TP.obind_Ok in Hs as (l' & _ & [= <-]).
    + injection Hs as <-. intros _. simpl. by rewrite last_snoc.
Qed.

(** What a section adds to the log. *)
Lemma step_seen mv s s' :
  step P F mv s = Ok s' ->
  seen s' = seen s \/
  exists o, seen s' = seen s ++ [o] /\
    forall v, o = Got v -> Value P (world s') = Ok v.
Proof.
  assert (forall by_ more (w : World (T:=T) P) o s1,
            returned P by_ more w o = Ok s1 ->
            seen s1 = o \/
            exists e, seen s1 = o ++ [e] /\
              forall v, e = Got v -> Value P (world s1) = Ok v) as Hret.
  { intros by_ more w o s1. destruct by_, more; simpl.
    - intros (v & Hv & [= <-])%TP.obind_Ok. right. exists (Got v). split; [done|].
      by intros ? [= <-].
    - intros [= <-]. right. by exists End.
    - intros [= <-]. by left.
    - intros [= <-]. right. by exists Drained.
    - intros [= <-]. by left.
    - intros [= <-]. right. by exists Drained. }
  assert (forall by_, enter P by_ s = Ok s' ->
            seen s' = seen s \/
            exists e, seen s' = seen s ++ [e] /\
              forall v, e = Got v -> Value P (world s') = Ok v) as Hent.
  { intros by_. unfold enter. destruct (Next_enter P (world s)) as [[more|] w'].
    - apply Hret.
    - intros [= <-]. by left. }
  assert (forall by_, turn P by_ s = Ok s' ->
            seen s' = seen s \/
            exists e, seen s' = seen s ++ [e] /\
              forall v, e = Got v -> Value P (world s') = Ok v) as Hturn.
  { intros by_. unfold turn. intros ([r w'] & Hw & Hr)%TP.obind_Ok.
    destruct r as [more|]; [by eapply Hret|]. injection Hr as <-. by left. }
  destruct mv as [|tid| |]; simpl.
  - intros (w' & _ & [= <-])%TP.obind_Ok. by left.
  - intros (w' & _ & [= <-])%TP.obind_Ok. by left.
  - destruct (cpc s) as [|[]| | | | | | |]; try done; eauto.
  - destruct (cpc s) as [|[]| | | | | | |]; try done; eauto.
    + intros [= <-]. right. by exists Stopped.
    + intros (w' & _ & [= <-])%TP.obind_Ok. right. by exists Joined.
    + intros [= <-]. right. by exists ResetRun.
    + intros ([back l'] & _ & Hs)%TP.obind_Ok.
      destruct back; injection Hs as <-; [right; by exists UpstreamRewound|by left].
    + intros (l' & _ & [= <-])%TP.obind_Ok. right. by exists UpstreamRewound.
    + intros [= <-]. right. by exists Relaunched.
Qed.

Lemma step_transformed mv s s' :
  made s' -> transformed s -> step P F mv s = Ok s' -> transformed s'.
Proof.
  intros Hm Ht Hs. destruct (step_seen mv s s' Hs) as [Hsame|(o & Hseen & Hval)].
  { unfold transformed. by rewrite Hsame. }
  intros v. rewrite Hseen, elem_of_app, elem_of_cons, elem_of_nil.
  intros [Hin|[Hv|[]]]; [by apply Ht|]. symmetry in Hv. specialize (Hval v Hv).
  unfold Value in Hval. destruct (out_data_ (iter (world s'))) as [a|] eqn:Hod; [|done].
  destruct (cell_value (cells (world s')) a) as [u|] eqn:Hu; [|done].
  injection Hval as ->. unfold made in Hm. rewrite Forall_forall in Hm.
  destruct (Hm (Some a)) as (x & tid & Hx & Htid & (a' & [= <-] & Ha)).
  { unfold out_cells. rewrite Hod, !elem_of_app, elem_of_cons. tauto. }
  exists x, tid. split; [done|]. split; [done|]. congruence.
Qed.

(** *** All of it, along a schedule *)

Record cinv s : Prop := mkCinv {
  ci_cells : binv s;
  ci_sources : sourced s;
  ci_made : made s;
  ci_showing : showing s;
  ci_transformed : transformed s
}.

Lemma cinv_boot (p0 : PState P) : cinv (boot P n qc c p0).
Proof.
  constructor.
  - apply binv_boot.
  - apply sourced_boot.
  - apply made_boot.
  - apply showing_boot.
  - apply transformed_boot.
Qed.

Lemma step_cinv mv s s' g :
  minv P items n qc c s g -> linv P s -> cinv s -> step P F mv s = Ok s' -> cinv s'.
Proof.
  intros Hminv Hlinv [Hb Hs Hm Hsh Ht] Hstep.
  pose proof (step_made mv s s' g Hminv Hb Hs Hm Hstep) as Hm'.
  constructor; try done.
  - by apply (step_binv mv s s' g).
  - by apply (step_sourced mv s s' g).
  - by apply (step_showing mv s s' g).
  - by apply (step_transformed mv s s').
Qed.

Hypothesis Hdet : TI.produces P items.

Lemma run_cinv sched s g :
  minv P items n qc c s g -> linv P s -> cinv s ->
  exists s' g', run P F sched s = Ok s' /\
    minv P items n qc c s' g' /\ linv P s' /\ cinv s'.
Proof using Hdet.
  revert s g. induction sched as [|mv sched IH]; intros s g Hminv Hlinv Hc; simpl;
    [by exists s, g|].
  destruct (step_minv P F items n qc c Hdet mv s g Hminv) as [->|(s1 & g1 & Hs & Hm1)];
    [by apply (IH s g)|].
  rewrite Hs. apply (IH s1 g1 Hm1).
  - exact (step_linv P F items n qc c mv s s1 g Hminv Hlinv Hs).
  - exact (step_cinv mv s s1 g Hminv Hlinv Hc Hs).
Qed.

(** X6: over a deterministic upstream producer, whatever the calls of
    the consumer and the interleaving of the threads: no section fails;
    the output cells allocated are exactly those of the free pool, the
    one behind [out_data_], those in the hands of the workers and those
    in the queue, each at one place only; the queue holds at most
    [queue_capacity_] entries; and at most
    [queue_capacity_ + thread_num_ + 1] output cells are allocated. *)
Theorem output_cells_bound (p0 : PState P) (sched : list Move) :
  exists s,
    run P F sched (boot P n qc c p0) = Ok s /\
    NoDup (out_cells P (iter (world s))) /\
    Forall (TP.live (cells (world s))) (out_cells P (iter (world s))) /\
    allocated (cells (world s)) =
      length (free_cells_ (iter (world s)))
      + (if out_data_ (iter (world s)) is Some _ then 1 else 0)
      + length (producer_threads_ (iter (world s)) ≫= cell_of)
      + length (queue_cells (the_fifo P (iter (world s)))) /\
    length (the_fifo P (iter (world s))) <= qc /\
    allocated (cells (world s)) <= qc + n + 1.
Proof using Hdet.
  destruct (run_cinv sched _ _ (minv_boot P items n qc c p0) (linv_boot P n qc c p0)
              (cinv_boot p0)) as (s & g & Hrun & _ & _ & [[(Hnd & Hlive & Hcount) Hf Hb] _ _ _ _]).
  exists s. split_and!; try done.
  - rewrite Hcount. unfold out_cells. rewrite !length_app.
    destruct (out_data_ (iter (world s))); simpl; lia.
  - rewrite Hcount. lia.
Qed.

(** X7: over a deterministic upstream producer, whatever the calls of
    the consumer and the interleaving of the threads: between two calls
    [Value()] gives the record that the last [Next()] showed, and fails
    its CHECK when the last call was a [Next()] that returned false or a
    [BeforeFirst()], or when there was no call yet.  No worker writes to
    the cell behind [Value()]. *)
Theorem Value_after_Next_of_workers (p0 : PState P) (sched : list Move) :
  exists s,
    run P F sched (boot P n qc c p0) = Ok s /\
    (cpc s = Idle ->
       Value P (world s) =
         match last (seen s) with Some (Got v) => Ok v | _ => Fatal end).
Proof using Hdet.
  destruct (run_cinv sched _ _ (minv_boot P items n qc c p0) (linv_boot P n qc c p0)
              (cinv_boot p0)) as (s & g & Hrun & _ & _ & [_ _ _ Hsh _]).
  exists s. split; [done|]. intros Hidle. specialize (Hsh Hidle). unfold Value.
  destruct (last (seen s)) as [[v| | | | | | |]|]; try (by rewrite Hsh).
  by destruct Hsh as (a & -> & ->).
Qed.

(** X8: over an upstream producer of [items], whatever the calls of the
    consumer and the interleaving of the threads: every record that a
    call of [Next()] has shown is the image under the closure [next] of
    a record of [items], made by a worker whose number is below
    [thread_num_]; and so is the content of every output cell of the
    pipe. *)
Theorem records_are_transformed (p0 : PState P) (sched : list Move) :
  exists s,
    run P F sched (boot P n qc c p0) = Ok s /\
    (forall v, Got v ∈ seen s -> exists x tid, x ∈ items /\ tid < n /\ v = F x tid) /\
    (forall p, p ∈ out_cells P (iter (world s)) ->
       exists x tid, x ∈ items /\ tid < n /\ TP.holds (cells (world s)) p (F x tid)).
Proof using Hdet.
  destruct (run_cinv sched _ _ (minv_boot P items n qc c p0) (linv_boot P n qc c p0)
              (cinv_boot p0)) as (s & g & Hrun & _ & _ & [_ _ Hm _ Ht]).
  exists s. split; [done|]. split; [exact Ht|].
  unfold made in Hm. by rewrite Forall_forall in Hm.
Qed.

End Cells.

(** ** The source record of a worker that is stopped *)

Section Dropped.
Context {Src T : Type} (P : Producer Src) (F : Src -> nat -> T) (items : list Src).
Context (n qc c : nat).
Implicit Types (s : System (T:=T) P) (g : TI.System P) (p : cellptr).

(** The lists of the upstream pipe. *)
Definition upstream_lists (l : TI.World P) : list cellptr :=
  TI.free_cells_ (TI.iter P l) ++ TI.queue_ (TI.iter P l) ++
  TP.in_flight (TI.iter P l) ++ TP.in_hand (TI.iter P l).

(** A source cell that is allocated while neither pipe has a pointer to
    it: it is in no list of the upstream pipe, in the hands of no
    worker and in no entry of the queue. *)
Definition dropped s p : Prop :=
  TP.live (TI.cells P (loader_ (iter (world s)))) p /\
  (p ∉ upstream_lists (loader_ (iter (world s)))) /\
  (p ∉ held_sources P (iter (world s))).

Lemma dropped_sub s s' p :
  TI.cells P (loader_ (iter (world s'))) = TI.cells P (loader_ (iter (world s))) ->
  (forall x, x ∈ upstream_lists (loader_ (iter (world s'))) ->
     x ∈ upstream_lists (loader_ (iter (world s))) \/ x ∈ held_sources P (iter (world s))) ->
  (forall x, x ∈ held_sources P (iter (world s')) ->
     x ∈ upstream_lists (loader_ (iter (world s))) \/ x ∈ held_sources P (iter (world s))) ->
  dropped s p -> dropped s' p.
Proof.
  intros Hc H1 H2 (Hl & Hu & Hh). unfold dropped. rewrite Hc.
  split; [done|]. split; intros Hin; [apply H1 in Hin|apply H2 in Hin]; tauto.
Qed.

(** The producer thread of the upstream pipe never gets hold of a cell
    that is in none of its lists. *)
Lemma upstream_thread_dropped (l l' : TI.World P) p :
  TI.producer_fun P l = Ok l' ->
  TP.live (TI.cells P l) p -> p ∉ upstream_lists l ->
  TP.live (TI.cells P l') p /\ (p ∉ upstream_lists l').
Proof.
  clear F items n qc c.
  destruct l as [[o sg pr th e cap od q f] h src d].
  unfold TI.producer_fun, upstream_lists, TP.in_flight, TP.in_hand. simpl.
  intros Hw Hl Hu.
  destruct th as [[| |cell|cell|]|]; try done.
  - destruct (p_before_first P src); [|done]. by injection Hw as <-.
  - destruct (TI.producer_may_run _); [|done].
    destruct sg.
    + destruct f as [|cell f]; injection Hw as <-; simpl; split; try done.
      intros Hin. apply Hu. revert Hin.
      destruct cell; repeat (rewrite ?elem_of_app, ?elem_of_cons, ?elem_of_nil); tauto.
    + destruct (p_before_first P src); [|done]. injection Hw as <-. simpl.
      split; [done|]. intros Hin. apply Hu. revert Hin.
      repeat (rewrite ?elem_of_app, ?elem_of_cons, ?elem_of_nil). tauto.
    + injection Hw as <-. simpl. split; [done|]. intros Hin. apply Hu. revert Hin.
      repeat (rewrite ?elem_of_app, ?elem_of_cons, ?elem_of_nil). tauto.
  - unfold Producer_Next in Hw. destruct (p_next P src) as [[v|] src']; simpl in Hw.
    + destruct cell as [a|]; simpl in Hw; injection Hw as <-; simpl.
      * split; [by apply live_write|done].
      * split; [by apply live_new_old|]. intros Hin.
        assert (p = Some (length h) \/
                p ∈ f ++ q ++ [] ++ (if od is Some a then [Some a] else [])) as [->|Hin'].
        { revert Hin. repeat (rewrite ?elem_of_app, ?elem_of_cons, ?elem_of_nil). tauto. }
        -- by apply TP.live_not_fresh in Hl.
        -- by apply Hu.
    + rewrite orb_true_r in Hw. injection Hw as <-. simpl. done.
  - injection Hw as <-. simpl. split; [done|]. intros Hin.
    assert (p = None \/
            p ∈ f ++ q ++ (if cell is Some a then [Some a] else [])
                  ++ (if od is Some a then [Some a] else [])) as [->|Hin'].
    { revert Hin. destruct e; simpl; destruct cell as [a|]; simpl;
        repeat (rewrite ?elem_of_app, ?elem_of_cons, ?elem_of_nil); tauto. }
    + by apply TP.live_None in Hl.
    + apply Hu. revert Hin'. by destruct cell.
Qed.

Lemma upstream_request_lists (l l' : TI.World P) b x :
  TI.BeforeFirst_request P l = Ok (b, l') ->
  x ∈ upstream_lists l' -> x ∈ upstream_lists l.
Proof.
  clear F items n qc c.
  destruct l as [[o sg pr th e cap od q f] h src d].
  unfold TI.BeforeFirst_request, upstream_lists, TP.in_flight, TP.in_hand. simpl.
  destruct od; simpl; destruct sg; simpl; destruct pr; simpl; try done;
    intros [= <- <-]; simpl;
    repeat (rewrite ?elem_of_app, ?elem_of_cons, ?elem_of_nil); tauto.
Qed.

Lemma upstream_ack_lists (l l' : TI.World P) x :
  TI.BeforeFirst_ack P l = Ok l' ->
  x ∈ upstream_lists l' -> x ∈ upstream_lists l.
Proof.
  clear F items n qc c.
  unfold TI.BeforeFirst_ack. destruct (TI.producer_sig_processed_ _); [|done].
  by intros [= <-].
Qed.

Ltac open_sys s :=
  destruct s as [[[od l tn fs nu ths bq qcap fc] ht rs] cp sn].

Lemma enter_dropped by_ s s' p :
  dropped s p -> enter P by_ s = Ok s' -> dropped s' p.
Proof.
  intros Hd. unfold enter. rewrite Next_enter_eq.
  destruct (_ <=? _).
  - intros Hw%returned_world. revert Hd. apply dropped_sub; rewrite Hw; simpl; auto.
  - intros [= <-]. revert Hd. apply dropped_sub; simpl; auto.
Qed.

Lemma turn_dropped by_ s s' p :
  dropped s p -> turn P by_ s = Ok s' -> dropped s' p.
Proof.
  intros Hd. unfold turn. intros ([r w'] & Hw & Hr)%TP.obind_Ok.
  assert (world s' = w') as Hw'.
  { destruct r as [more|]; [by apply returned_world in Hr|by injection Hr as <-]. }
  clear Hr. revert Hd. open_sys s. destruct s' as [w1 cp' sn']. simpl in *. subst w1.
  unfold Next_turn, Pop in Hw. simpl in Hw.
  destruct bq as [[ff cap kd]|]; [|done]. simpl in *.
  destruct kd; simpl in Hw.
  { injection Hw as <- <-. apply dropped_sub; simpl; auto. }
  destruct ff as [|[[a|] src] rest]; simpl in Hw; [done| |].
  - injection Hw as <- <-. apply dropped_sub; [done|..]; simpl;
      unfold upstream_lists, held_sources, the_fifo; simpl;
      change (queue_sources ((Some a, src) :: rest)) with (src :: queue_sources rest);
      intros x; repeat (rewrite ?elem_of_app, ?elem_of_cons, ?elem_of_nil); tauto.
  - assert (w' = on_iter P (set_null_cell_num P (S nu))
                   (on_iter P (set_queue P (Some (mkQueue rest cap false)))
                      (mkWorld P (mkMulti P od l tn fs nu ths
                         (Some (mkQueue ((None, src) :: rest) cap false)) qcap fc) ht rs)))
      as -> by (repeat case_match; by simplify_eq).
    apply dropped_sub; simpl; auto.
Qed.

(** A cell that is dropped stays dropped, whatever runs next. *)
Lemma step_dropped mv s s' g p :
  minv P items n qc c s g -> dropped s p -> step P F mv s = Ok s' -> dropped s' p.
Proof.
  intros Hminv Hd Hs. destruct mv as [|tid| |].
  - (* the upstream pipe *)
    simpl in Hs. unfold loader_thread in Hs.
    apply TP.obind_Ok in Hs as (w' & (l' & Hl & [= <-])%TP.obind_Ok & [= <-]).
    destruct Hd as (Hlive & Hu & Hh).
    destruct (upstream_thread_dropped _ l' p Hl Hlive Hu) as [Hlive' Hu'].
    by repeat split.
  - (* a worker *)
    simpl in Hs. apply TP.obind_Ok in Hs as (w' & Hw & [= <-]).
    unfold producer_thread_body_ in Hw.
    destruct (producer_threads_ (iter (world s)) !! tid) as [[pc|]|] eqn:Hlook; try done.
    pose proof (fun pc' => threads_update _ tid pc pc' Hlook) as Hupd.
    destruct Hminv as [_ _ _ _ _ _ ([ff bcap kd] & Hq & Hkd & Hcap) _ _ _ _ _].
    revert Hd. open_sys s. simpl in *. subst bq kd bcap.
    destruct pc as [|src|src|cell src|cell src| | |]; simpl in *; try done.
    + (* loader_->Next *)
      apply TP.obind_Ok in Hw as ([[more src] l'] & Hn & [= <-]).
      unfold TI.Next in Hn.
      destruct (TI.producer_sig_ (TI.iter P l)); [| done |].
      * destruct (TI.queue_ (TI.iter P l)) as [|front rest] eqn:Hqu.
        -- destruct (TI.produce_end_ (TI.iter P l)); [|done]. injection Hn as <- <- <-.
           destruct (Hupd WPushNull) as (_ & _ & _ & (R & H1 & H2) & _). simpl in *.
           apply dropped_sub; [done|auto|]. simpl.
           unfold held_sources, the_fifo. simpl. intros x.
           rewrite !elem_of_app, H1, H2. tauto.
        -- injection Hn as <- <- <-.
           destruct (Hupd (WCheck front)) as (_ & _ & _ & (R & H1 & H2) & _). simpl in *.
           apply dropped_sub; [done|..]; simpl;
             unfold upstream_lists, held_sources, the_fifo; simpl; rewrite Hqu;
             intros x; rewrite ?H1, ?H2;
             repeat (rewrite ?elem_of_app, ?elem_of_cons, ?elem_of_nil); tauto.
      * injection Hn as <- <- <-.
        destruct (Hupd WPushNull) as (_ & _ & _ & (R & H1 & H2) & _). simpl in *.
        apply dropped_sub; [done|auto|]. simpl.
        unfold held_sources, the_fifo. simpl. intros x.
        rewrite !elem_of_app, H1, H2. tauto.
    + (* force_stopped_ *)
      injection Hw as <-. apply dropped_sub; [done|auto|]. simpl.
      unfold held_sources, the_fifo. simpl. intros x.
      destruct fs;
        [destruct (Hupd WPushNull) as (_ & _ & _ & (R & H1 & H2) & _)
        |destruct (Hupd (WTake src)) as (_ & _ & _ & (R & H1 & H2) & _)];
        simpl in *; rewrite !elem_of_app, H1, H2, ?elem_of_cons; tauto.
    + (* the free cell *)
      destruct fc as [|cell rest]; injection Hw as <-;
        (apply dropped_sub; [done|auto|]); simpl;
        unfold held_sources, the_fifo; simpl; intros x;
        [destruct (Hupd (WCall None src)) as (_ & _ & _ & (R & H1 & H2) & _)
        |destruct (Hupd (WCall cell src)) as (_ & _ & _ & (R & H1 & H2) & _)];
        simpl in *; rewrite !elem_of_app, H1, H2; tauto.
    + (* next(&cell, source_data, tid) *)
      apply TP.obind_Ok in Hw as ([cell' w1] & Ht & [= <-]).
      unfold transform in Ht. simpl in Ht.
      destruct src as [a|]; [|done].
      destruct (cell_value (TI.cells P l) a) as [v|]; [|done].
      destruct cell as [b|]; simplify_eq/=;
        (apply dropped_sub; [done|auto|]); simpl;
        unfold held_sources, the_fifo; simpl; intros x;
        [destruct (Hupd (WPush (Some b) (Some a))) as (_ & _ & _ & (R & H1 & H2) & _)
        |destruct (Hupd (WPush (Some (length ht)) (Some a)))
           as (_ & _ & _ & (R & H1 & H2) & _)];
        simpl in *; rewrite !elem_of_app, H1, H2; tauto.
    + (* queue_->Push *)
      unfold push_cell, Push in Hw. simpl in Hw.
      destruct (length ff <? qc); simplify_eq/=.
      destruct (Hupd WNext) as (_ & _ & _ & (R & H1 & H2) & _). simpl in *.
      apply dropped_sub; [done|auto|]. simpl.
      unfold held_sources, the_fifo. simpl. intros x.
      rewrite queue_sources_snoc, !elem_of_app, H1, H2. simpl.
      destruct cell; rewrite ?elem_of_cons, ?elem_of_nil; tauto.
    + (* the sentinel *)
      unfold push_cell, Push in Hw. simpl in Hw.
      destruct (length ff <? qc); simplify_eq/=.
      destruct (Hupd WReturn) as (_ & _ & _ & (R & H1 & H2) & _). simpl in *.
      apply dropped_sub; [done|auto|]. simpl.
      unfold held_sources, the_fifo. simpl. intros x.
      rewrite queue_sources_snoc, !elem_of_app, H1, H2. simpl.
      rewrite ?elem_of_nil. tauto.
    + (* the return of the thread function *)
      injection Hw as <-.
      destruct (Hupd WExit) as (_ & _ & _ & (R & H1 & H2) & _). simpl in *.
      apply dropped_sub; [done|auto|]. simpl.
      unfold held_sources, the_fifo. simpl. intros x.
      rewrite !elem_of_app, H1, H2. tauto.
  - (* Next() *)
    simpl in Hs. destruct (cpc s) as [|[]| | | | | | |] eqn:Hcp; try done.
    + revert Hs. by apply enter_dropped.
    + revert Hs. by apply turn_dropped.
  - (* BeforeFirst() *)
    simpl in Hs. destruct (cpc s) as [|[]| | | | | | |] eqn:Hcp; try done.
    + injection Hs as <-. revert Hd. apply dropped_sub; simpl; auto.
    + revert Hs. by apply turn_dropped.
    + revert Hs. by apply turn_dropped.
    + revert Hs. by apply enter_dropped.
    + apply TP.obind_Ok in Hs as (w' & Hj & [= <-]). unfold join_all in Hj.
      destruct (all_ended _); [|done]. destruct (_ <? _); [done|]. injection Hj as <-.
      revert Hd. apply dropped_sub; [done|auto|]. simpl.
      unfold held_sources, the_fifo. simpl.
      rewrite (replicate_no_sources _ None eq_refl). intros x.
      rewrite !elem_of_app, elem_of_nil. tauto.
    + revert Hs. by apply enter_dropped.
    + injection Hs as <-. revert Hd. apply dropped_sub; simpl; auto.
    + apply TP.obind_Ok in Hs as ([back l'] & Hb & Hs).
      pose proof (upstream_request_cells P _ _ _ Hb) as Hcells.
      pose proof (fun x => upstream_request_lists _ _ _ x Hb) as Hlists.
      revert Hd. destruct back; injection Hs as <-; apply dropped_sub; simpl; auto.
    + apply TP.obind_Ok in Hs as (l' & Hb & [= <-]).
      pose proof (upstream_ack_cells P _ _ Hb) as Hcells.
      pose proof (fun x => upstream_ack_lists _ _ x Hb) as Hlists.
      revert Hd. apply dropped_sub; simpl; auto.
    + injection Hs as <-. revert Hd. apply dropped_sub; [done|auto|]. simpl.
      unfold held_sources, the_fifo, launch. simpl.
      rewrite (replicate_no_sources _ (Some WNext) eq_refl). intros x.
      rewrite !elem_of_app, elem_of_nil. tauto.
Qed.

Hypothesis Hdet : TI.produces P items.

Lemma run_dropped sched s g p :
  minv P items n qc c s g -> dropped s p ->
  exists s', run P F sched s = Ok s' /\ dropped s' p.
Proof using Hdet.
  revert s g. induction sched as [|mv sched IH]; intros s g Hminv Hd; simpl;
    [by exists s|].
  destruct (step_minv P F items n qc c Hdet mv s g Hminv) as [->|(s1 & g1 & Hs & Hm1)];
    [by apply (IH s g)|].
  rewrite Hs. apply (IH s1 g1 Hm1). exact (step_dropped mv s s1 g p Hminv Hd Hs).
Qed.

(** X9: a worker whose [loader_->Next] has returned a source record and
    that then reads [force_stopped_] as true, as it does during
    [BeforeFirst()], pushes its sentinel and ends without recycling the
    record.  The source cell is then allocated in the store of the
    upstream pipe while neither pipe has a pointer to it, and it stays
    so whatever runs afterwards. *)
Theorem stopped_worker_drops_its_source (p0 : PState P) (sched : list Move) s tid src :
  run P F sched (boot P n qc c p0) = Ok s ->
  producer_threads_ (iter (world s)) !! tid = Some (Some (WCheck src)) ->
  force_stopped_ (iter (world s)) = true ->
  exists s1,
    step P F (Work tid) s = Ok s1 /\
    producer_threads_ (iter (world s1)) !! tid = Some (Some WPushNull) /\
    loader_ (iter (world s1)) = loader_ (iter (world s)) /\
    dropped s1 src /\
    forall sched', exists s2, run P F sched' s1 = Ok s2 /\ dropped s2 src.
Proof using Hdet.
  intros Hrun Hlook Hfs.
  destruct (run_invs P F items n qc c Hdet sched _ _ (minv_boot P items n qc c p0)
              (linv_boot P n qc c p0)) as (s0 & g & Hrun0 & Hminv & _).
  assert (s0 = s) as -> by congruence.
  destruct (step_minv P F items n qc c Hdet (Work tid) s g Hminv)
    as [Hb|(s1 & g1 & Hs & Hm1)].
  { simpl in Hb. unfold producer_thread_body_ in Hb. by rewrite Hlook in Hb. }
  exists s1. split; [done|].
  assert (world s1 = set_worker P tid WPushNull (world s)) as Hw1.
  { simpl in Hs. unfold producer_thread_body_ in Hs. rewrite Hlook, Hfs in Hs.
    simpl in Hs. by injection Hs as <-. }
  assert (dropped s1 src) as Hd.
  { destruct (threads_update _ tid _ WPushNull Hlook) as (_ & _ & _ & (R & H1 & H2) & _).
    simpl in H1, H2.
    destruct Hminv as [Hld Hup _ _ Hloans _ _ _ _ _ _ _].
    assert (src ∈ held_sources P (iter (world s))) as Hin.
    { unfold held_sources. rewrite elem_of_app, H1, elem_of_cons. tauto. }
    pose proof (elem_of_submseteq _ _ _ Hin Hloans) as Hloan.
    destruct (submseteq_Permutation _ _ Hloans) as (rest & Hperm).
    destruct (TP.inv_owns P c g Hup) as (Hnd & _ & _).
    unfold dropped. rewrite Hw1. simpl. split_and!.
    - rewrite <- Hld. by apply (loan_live P c g).
    - intros Hu. unfold TP.homes in Hnd. rewrite !app_assoc in Hnd.
      apply NoDup_app in Hnd as (_ & Hnd & _). apply (Hnd src); [|done].
      rewrite <- !app_assoc. by rewrite Hld.
    - unfold TP.homes in Hnd. rewrite !app_assoc in Hnd.
      apply NoDup_app in Hnd as (_ & _ & Hnd). rewrite Hperm in Hnd.
      apply NoDup_app in Hnd as (Hnd & _ & _). unfold held_sources in Hnd |- *.
      simpl. rewrite H1 in Hnd. rewrite H2. simpl in Hnd.
      by apply NoDup_cons in Hnd as [Hnd _]. }
  split_and!; try done.
  - rewrite Hw1. simpl. apply list_lookup_insert_eq. by eapply lookup_lt_Some.
  - by rewrite Hw1.
  - intros sched'. by apply (run_dropped sched' s1 g1).
Qed.

End Dropped.

(** ** The properties at a concrete pipe *)

(** A schedule with a rewind: the upstream producer makes a record,
    one worker fetches it, and the consumer calls [BeforeFirst()]. *)
Definition caught : list Move :=
  replicate 4 Feed ++ [Work 0; Rewind].

(** A schedule that ends with the consumer between two calls: one
    record goes through the upstream pipe, a worker and a call of
    [Next()]. *)
Definition one_record : list Move :=
  replicate 4 Feed ++ replicate 5 (Work 0) ++ [Advance; Advance].

Lemma every_pass_delivers_all_witness :
  exists s,
    run (list_producer [1; 2; 3]) (fun x tid => 10 * x + tid) one_record
      (boot (list_producer [1; 2; 3]) 2 4 4 []) = Ok s /\
    cpc s = Idle /\
    exists sched' s' (more : list nat),
      run (list_producer [1; 2; 3]) (fun x tid => 10 * x + tid) sched' s = Ok s' /\
      seen s' = seen s ++ rewind_stages ++ (Got <$> more) ++ [End] /\
      length more = 3.
Proof.
  destruct (every_pass_delivers_all (list_producer [1; 2; 3])
              (fun x tid => 10 * x + tid) [1; 2; 3] 2 4 4)
    with (p0 := @nil nat) (sched := one_record) as (s & H1 & H2).
  - intros s. exists [1; 2; 3]. split; [reflexivity|]. simpl. repeat split; reflexivity.
  - lia.
  - lia.
  - lia.
  - assert (cpc s = Idle) as Hidle.
    { assert (exists s0,
        run (list_producer [1; 2; 3]) (fun x tid => 10 * x + tid) one_record
          (boot (list_producer [1; 2; 3]) 2 4 4 []) = Ok s0 /\ cpc s0 = Idle)
        as (s0 & Hr0 & Hc0) by (eexists; split; [vm_compute; reflexivity|reflexivity]).
      congruence. }
    exists s. split; [exact H1|]. split; [exact Hidle|].
    destruct (H2 Hidle) as (_ & sched' & s' & more & Hr & _ & Hs & Hl).
    exists sched', s', more. split; [exact Hr|]. split; [exact Hs|exact Hl].
Defined.

Lemma output_cells_bound_witness :
  exists s,
    run (list_producer [1; 2; 3]) (fun x tid => 10 * x + tid) (one_record ++ caught)
      (boot (list_producer [1; 2; 3]) 2 4 4 []) = Ok s /\
    NoDup (out_cells (list_producer [1; 2; 3]) (iter (world s))) /\
    allocated (cells (world s)) <= 4 + 2 + 1.
Proof.
  destruct (output_cells_bound (list_producer [1; 2; 3])
              (fun x tid => 10 * x + tid) [1; 2; 3] 2 4 4)
    with (p0 := @nil nat) (sched := one_record ++ caught) as (s & H1 & H2 & _ & _ & _ & H3).
  - intros s. exists [1; 2; 3]. split; [reflexivity|]. simpl. repeat split; reflexivity.
  - exists s. split; [exact H1|]. split; [exact H2|exact H3].
Defined.

Lemma Value_after_Next_of_workers_witness :
  exists s,
    run (list_producer [1; 2; 3]) (fun x tid => 10 * x + tid) one_record
      (boot (list_producer [1; 2; 3]) 2 4 4 []) = Ok s /\
    cpc s = Idle /\
    Value (list_producer [1; 2; 3]) (world s) =
      match last (seen s) with Some (Got v) => Ok v | _ => Fatal end.
Proof.
  destruct (Value_after_Next_of_workers (list_producer [1; 2; 3])
              (fun x tid => 10 * x + tid) [1; 2; 3] 2 4 4)
    with (p0 := @nil nat) (sched := one_record) as (s & H1 & H2).
  - intros s. exists [1; 2; 3]. split; [reflexivity|]. simpl. repeat split; reflexivity.
  - assert (cpc s = Idle) as Hidle.
    { assert (exists s0,
        run (list_producer [1; 2; 3]) (fun x tid => 10 * x + tid) one_record
          (boot (list_producer [1; 2; 3]) 2 4 4 []) = Ok s0 /\ cpc s0 = Idle)
        as (s0 & Hr0 & Hc0) by (eexists; split; [vm_compute; reflexivity|reflexivity]).
      congruence. }
    exists s. split; [exact H1|]. split; [exact Hidle|exact (H2 Hidle)].
Defined.

Lemma records_are_transformed_witness :
  exists s,
    run (list_producer [1; 2; 3]) (fun x tid => 10 * x + tid) one_record
      (boot (list_producer [1; 2; 3]) 2 4 4 []) = Ok s /\
    (forall v, Got v ∈ seen s ->
       exists x tid, x ∈ [1; 2; 3] /\ tid < 2 /\ v = 10 * x + tid).
Proof.
  destruct (records_are_transformed (list_producer [1; 2; 3])
              (fun x tid => 10 * x + tid) [1; 2; 3] 2 4 4)
    with (p0 := @nil nat) (sched := one_record) as (s & H1 & H2 & _).
  - intros s. exists [1; 2; 3]. split; [reflexivity|]. simpl. repeat split; reflexivity.
  - exists s. split; [exact H1|exact H2].
Defined.

Lemma stopped_worker_drops_its_source_witness :
  exists s s1,
    run (list_producer [1; 2; 3]) (fun x tid => 10 * x + tid) caught
      (boot (list_producer [1; 2; 3]) 2 4 4 []) = Ok s /\
    step (list_producer [1; 2; 3]) (fun x tid => 10 * x + tid) (Work 0) s = Ok s1 /\
    dropped (list_producer [1; 2; 3]) s1 (Some 0).
Proof.
  assert (exists s,
    run (list_producer [1; 2; 3]) (fun x tid => 10 * x + tid) caught
      (boot (list_producer [1; 2; 3]) 2 4 4 []) = Ok s /\
    producer_threads_ (iter (world s)) !! 0 = Some (Some (WCheck (Some 0))) /\
    force_stopped_ (iter (world s)) = true) as (s & Hrun & Hlook & Hfs).
  { eexists. split; [vm_compute; reflexivity|]. split; reflexivity. }
  destruct (stopped_worker_drops_its_source (list_producer [1; 2; 3])
              (fun x tid => 10 * x + tid) [1; 2; 3] 2 4 4)
    with (p0 := @nil nat) (sched := caught) (s := s) (tid := 0) (src := Some 0)
    as (s1 & H1 & _ & _ & H2 & _).
  - intros s'. exists [1; 2; 3]. split; [reflexivity|]. simpl. repeat split; reflexivity.
  - exact Hrun.
  - exact Hlook.
  - exact Hfs.
  - exists s, s1. split; [exact Hrun|]. split; [exact H1|exact H2].
Defined.

(** C7 does not hold for every number of workers that the constructor
    accepts.  With [thread_num] 0 over the producer of [1; 2; 3], the
    first call of [Next()] returns false at once, with the counter at 0
    and a record waiting in the upstream pipe; and whatever the calls
    and the interleaving, no call ever returns true. *)
Lemma Next_false_with_records_upstream :
  (exists s,
     run (list_producer [1; 2; 3]) (fun x tid => 10 * x + tid)
       (replicate 4 Feed ++ [Advance]) (boot (list_producer [1; 2; 3]) 0 4 4 []) = Ok s /\
     cpc s = Idle /\ seen s = [End] /\
     null_cell_num_ (iter (world s)) = 0 /\
     length (ThreadedIter.queue_ (ThreadedIter.iter _ (loader_ (iter (world s))))) = 1) /\
  (forall sched, exists s,
     run (list_producer [1; 2; 3]) (fun x tid => 10 * x + tid) sched
       (boot (list_producer [1; 2; 3]) 0 4 4 []) = Ok s /\
     forall v, Got v ∉ seen s).
Proof.
  split.
  - eexists. split; [vm_compute; reflexivity|]. repeat split; reflexivity.
  - intros sched.
    assert (ThreadedIter.produces (list_producer [1; 2; 3]) [1; 2; 3]) as Hdet.
    { intros s. exists [1; 2; 3]. split; [reflexivity|]. simpl. repeat split; reflexivity. }
    destruct (run_cinv (list_producer [1; 2; 3]) (fun x tid => 10 * x + tid) [1; 2; 3]
                0 4 4 Hdet sched _ _
                (minv_boot (list_producer [1; 2; 3]) [1; 2; 3] 0 4 4 (@nil nat))
                (linv_boot (list_producer [1; 2; 3]) 0 4 4 (@nil nat))
                (cinv_boot (list_producer [1; 2; 3]) (fun x tid => 10 * x + tid)
                   [1; 2; 3] 0 4 4 (@nil nat)))
      as (s & g & Hrun & _ & _ & [_ _ _ _ Ht]).
    exists s. split; [exact Hrun|].
    intros v Hin. destruct (Ht v Hin) as (x & tid & _ & Htid & _). lia.
Qed.

End MultiThreadedIterFacts.
